(** * SMLReader: framing, validation, extraction and publishing of SML datagrams

    A shallow embedding of [src/main.cpp].  The firmware is a state machine
    driven from [loop()]: each call of [run_current_state] runs the current
    state function, which drains the bytes that are available on the serial
    line.  The globals of the sketch become the fields of one [machine]
    record, the serial receive queue is a list of bytes that is threaded
    through the state functions, and [millis()] is an argument of every
    tick. *)

From Stdlib Require Import ZArith List Lia Bool String SpecFloat.
From stdpp Require Import base list.
Import ListNotations.

Local Open Scope Z_scope.

(** ** Constants of the sketch *)

Definition START_SEQUENCE : list Z := [0x1B; 0x1B; 0x1B; 0x1B; 0x01; 0x01; 0x01; 0x01].
Definition END_SEQUENCE : list Z := [0x1B; 0x1B; 0x1B; 0x1B; 0x1A].
Definition BUFFER_SIZE : nat := 3840.
Definition READ_TIMEOUT : Z := 30.

Record metric_value := MetricValue {
  value : Z;   (* int64_t *)
  unit : Z;    (* uint8_t *)
  scaler : Z   (* int8_t *)
}.

Record metric := Metric {
  name : string;
  pattern : list Z
}.

Definition METRICS : list metric :=
  [ Metric "power_in" [0x77; 0x07; 0x01; 0x00; 0x01; 0x08; 0x00; 0xFF];
    Metric "power_out" [0x77; 0x07; 0x01; 0x00; 0x02; 0x08; 0x00; 0xFF];
    Metric "power_current" [0x77; 0x07; 0x01; 0x00; 0x10; 0x07; 0x00; 0xFF] ].

Definition METRIC_LENGTH : nat := length METRICS.
Definition START_SEQUENCE_LENGTH : nat := length START_SEQUENCE.
Definition END_SEQUENCE_LENGTH : nat := length END_SEQUENCE.

(** ** Machine integers

    Conversions between the integer types of the sketch, with the
    wrap-around written out. *)

Definition to_uint8 (z : Z) : Z := z mod 2 ^ 8.
Definition to_uint32 (z : Z) : Z := z mod 2 ^ 32.
Definition to_uint64 (z : Z) : Z := z mod 2 ^ 64.
Definition to_int8 (z : Z) : Z := (z + 2 ^ 7) mod 2 ^ 8 - 2 ^ 7.
Definition to_int32 (z : Z) : Z := (z + 2 ^ 31) mod 2 ^ 32 - 2 ^ 31.
Definition to_int64 (z : Z) : Z := (z + 2 ^ 63) mod 2 ^ 64 - 2 ^ 63.

Definition is_byte (b : Z) : Prop := 0 <= b < 256.

(** ** CRC-16/X-25

    [FastCRC16::x25] comes from the FastCRC library.  It computes the
    CRC-16/X-25 of its input: reflected polynomial 0x8408, initial value
    0xFFFF, final xor 0xFFFF.  The bitwise form of that CRC is used here. *)

Definition crc_shift (crc : Z) : Z :=
  if Z.testbit crc 0 then Z.lxor (Z.shiftr crc 1) 0x8408 else Z.shiftr crc 1.

Definition crc_update (crc b : Z) : Z :=
  Nat.iter 8 crc_shift (Z.lxor crc b).

Definition x25 (data : list Z) : Z :=
  Z.lxor (fold_left crc_update data 0xFFFF) 0xFFFF.

(** ** Doubles

    The publisher computes in [double].  IEEE 754 binary64 is taken from
    the Standard Library's [SpecFloat]: 53 bits of precision, round to
    nearest even. *)

Definition double := spec_float.
Definition dprec : Z := 53.
Definition demax : Z := 1024.

Definition double_of_Z (z : Z) : double := binary_normalize dprec demax z 0 false.
Definition dmul (x y : double) : double := SFmul dprec demax x y.

(** [(uint32_t) d] for a double whose truncation lies in the range of
    [uint32_t]; [None] where the C++ conversion is undefined. *)
Definition trunc_to_uint32 (d : double) : option Z :=
  match d with
  | S754_zero _ => Some 0
  | S754_finite s m e =>
      let mag := if 0 <=? e then Z.shiftl (Z.pos m) e else Z.shiftr (Z.pos m) (- e) in
      if s then (if mag =? 0 then Some 0 else None)
      else (if mag <? 2 ^ 32 then Some mag else None)
  | _ => None
  end.

(** ** What the target leaves open

    Five things the source relies on are fixed by the tool chain and the
    board rather than by the sketch: the result of [pow] from the C
    library, the result of converting an out-of-range double to
    [uint32_t], the memory that lies behind [buffer], the indeterminate
    initial content of the local array [values], and the bytes that
    [memmem_P] reads at [&METRICS[i].pattern.front()].  The pattern is a
    [std::list<byte>]: its elements live in list nodes of their own, so only
    the first element is at that address; [front_memory T i n] stands for the
    [n] bytes that the search reads from there.  These five are collected in
    a record; every statement below holds for all of its inhabitants unless
    it names one. *)

Record target := Target {
  libm_pow : double -> double -> double;
  fixuns_undefined : double -> Z;
  beyond : nat -> Z;
  indeterminate : nat -> metric_value;
  front_memory : nat -> nat -> list Z
}.

(** ** The one-wire register file that receives the results *)

Record bae910_memory := Bae910 {
  userm : Z;
  usern : Z;
  usero : Z;
  userp : Z
}.

(** ** Global state of the sketch *)

(** The function pointer [state] ranges over the four state functions. *)
Inductive state_fn :=
  | WaitStart    (* wait_for_start_sequence *)
  | Accumulate   (* read_message *)
  | AwaitTail    (* read_checksum *)
  | Done.        (* process_message *)

Definition state_fn_eqb (a b : state_fn) : bool :=
  match a, b with
  | WaitStart, WaitStart | Accumulate, Accumulate
  | AwaitTail, AwaitTail | Done, Done => true
  | _, _ => false
  end.

(** What the sketch writes to [Serial], one entry per printed line. *)
Inductive serial_line :=
  | StateIs (s : state_fn)                         (* "State is '...'." *)
  | Message (msg : string)                         (* the text given to reset() *)
  | FoundMetric (n : string)                       (* "Found metric <n>." *)
  | PublishedMetric (n : string) (v u s : Z)       (* "Published metric <n> with value ..." *)
  | TooManyMetrics (n : string)                    (* "Error: Num of metrics exceeds ..." *)
  | ReadTimeout.                                   (* "Did not receive a message within 30 seconds, ..." *)

Record machine := Machine {
  buffer : list Z;               (* byte buffer[BUFFER_SIZE] *)
  position : nat;                (* int position; never negative *)
  last_state_reset : Z;          (* unsigned long *)
  bytes_until_checksum : Z;      (* uint8_t *)
  state : option state_fn;       (* NULL before setup() *)
  memory : bae910_memory;        (* owBae910.memory.field *)
  serial : list serial_line      (* output on Serial, oldest first *)
}.

Definition set_buffer (b : list Z) (m : machine) : machine :=
  Machine b (position m) (last_state_reset m) (bytes_until_checksum m) (state m) (memory m) (serial m).
Definition set_position (p : nat) (m : machine) : machine :=
  Machine (buffer m) p (last_state_reset m) (bytes_until_checksum m) (state m) (memory m) (serial m).
Definition set_last_state_reset (t : Z) (m : machine) : machine :=
  Machine (buffer m) (position m) t (bytes_until_checksum m) (state m) (memory m) (serial m).
Definition set_bytes_until_checksum (n : Z) (m : machine) : machine :=
  Machine (buffer m) (position m) (last_state_reset m) n (state m) (memory m) (serial m).
Definition set_state_pointer (s : state_fn) (m : machine) : machine :=
  Machine (buffer m) (position m) (last_state_reset m) (bytes_until_checksum m) (Some s) (memory m) (serial m).
Definition set_memory (f : bae910_memory) (m : machine) : machine :=
  Machine (buffer m) (position m) (last_state_reset m) (bytes_until_checksum m) (state m) f (serial m).
Definition println (l : serial_line) (m : machine) : machine :=
  Machine (buffer m) (position m) (last_state_reset m) (bytes_until_checksum m) (state m) (memory m)
          (serial m ++ [l]).

#[global] Instance metric_value_inhabited : Inhabited metric_value :=
  populate (MetricValue 0 0 0).
#[global] Instance metric_inhabited : Inhabited metric :=
  populate (Metric EmptyString []).

(** ** State transitions *)

(** [set_state]: [now] is the value of [millis()]. *)
Definition set_state (now : Z) (new_state : state_fn) (m : machine) : machine :=
  let m :=
    match new_state with
    | WaitStart =>
        set_position 0%nat (set_last_state_reset now (println (StateIs WaitStart) m))
    | Accumulate => println (StateIs Accumulate) m
    | AwaitTail => set_bytes_until_checksum 3 (println (StateIs AwaitTail) m)
    | Done => println (StateIs Done) m
    end in
  set_state_pointer new_state m.

(** [reset]: the message is printed when it is not empty. *)
Definition reset (now : Z) (message : string) (m : machine) : machine :=
  let m := if (0 <? String.length message)%nat then println (Message message) m else m in
  set_state now WaitStart m.

(** [memmem_P]: offset of the first occurrence of the needle, if any. *)
Fixpoint starts_with (needle hay : list Z) : bool :=
  match needle, hay with
  | [], _ => true
  | _ :: _, [] => false
  | x :: needle', y :: hay' => (x =? y) && starts_with needle' hay'
  end.

Fixpoint memmem (hay needle : list Z) : option nat :=
  if starts_with needle hay then Some 0%nat
  else match hay with
       | [] => None
       | _ :: hay' => option_map S (memmem hay' needle)
       end.

Section Sketch.

Variable T : target.

(** Reading [buffer[off]] or [*cp]: the array first, then what lies behind it. *)
Definition peek (buf : list Z) (off : nat) : Z :=
  match buf !! off with
  | Some b => b
  | None => beyond T off
  end.

(** *** wait_for_start_sequence *)

Fixpoint wait_for_start_sequence (now : Z) (rx : list Z) (m : machine) : machine * list Z :=
  match rx with
  | [] => (m, [])
  | b :: rx' =>
      let m := set_buffer (<[position m := b]> (buffer m)) m in
      let m := set_position
                 (if peek (buffer m) (position m) =? START_SEQUENCE !!! position m
                  then S (position m) else 0%nat) m in
      if (position m =? START_SEQUENCE_LENGTH)%nat
      then (set_state now Accumulate m, rx')
      else wait_for_start_sequence now rx' m
  end.

(** *** read_message *)

(** The backward comparison with the end sequence; [fuel] bounds the number
    of iterations, which the loop condition [i <= last_index_of_end_seq]
    limits to [END_SEQUENCE_LENGTH]. *)
Fixpoint end_sequence_loop (fuel i : nat) (buf : list Z) (pos : nat) : bool :=
  match fuel with
  | O => false
  | S fuel' =>
      let last_index_of_end_seq := (END_SEQUENCE_LENGTH - 1)%nat in
      if (i <=? last_index_of_end_seq)%nat then
        if negb (END_SEQUENCE !!! (last_index_of_end_seq - i)%nat =? peek buf (pos - (i + 1))%nat)
        then false
        else if (i =? last_index_of_end_seq)%nat then true
        else end_sequence_loop fuel' (S i) buf pos
      else false
  end.

Definition end_sequence_found (buf : list Z) (pos : nat) : bool :=
  end_sequence_loop END_SEQUENCE_LENGTH 0 buf pos.

Fixpoint read_message (now : Z) (rx : list Z) (m : machine) : machine * list Z :=
  match rx with
  | [] => (m, [])
  | b :: rx' =>
      if (position m + 3 =? BUFFER_SIZE)%nat
      then (reset now "Buffer will overflow, starting over." m, rx)
      else
        let m := set_position (S (position m))
                   (set_buffer (<[position m := b]> (buffer m)) m) in
        if end_sequence_found (buffer m) (position m)
        then (set_state now AwaitTail m, rx')
        else read_message now rx' m
  end.

(** *** read_checksum *)

Fixpoint read_checksum_loop (rx : list Z) (m : machine) : machine * list Z :=
  if 0 <? bytes_until_checksum m then
    match rx with
    | [] => (m, [])
    | b :: rx' =>
        let m := set_position (S (position m))
                   (set_buffer (<[position m := b]> (buffer m)) m) in
        let m := set_bytes_until_checksum (to_uint8 (bytes_until_checksum m - 1)) m in
        read_checksum_loop rx' m
    end
  else (m, rx).

Definition read_checksum (now : Z) (rx : list Z) (m : machine) : machine * list Z :=
  let '(m, rx) := read_checksum_loop rx m in
  if bytes_until_checksum m =? 0 then (set_state now Done m, rx) else (m, rx).

(** *** process_message: parsing *)

(** [while (--nlen) { uvalue <<= 8; uvalue |= *cp++; }] with [nlen] a
    [uint8_t]: the decrement wraps, so the loop runs at most 255 times. *)
Fixpoint value_loop (fuel : nat) (buf : list Z) (nlen uvalue : Z) (cp : nat) : Z * nat :=
  match fuel with
  | O => (uvalue, cp)
  | S fuel' =>
      let nlen := to_uint8 (nlen - 1) in
      if nlen =? 0 then (uvalue, cp)
      else
        let uvalue := to_uint64 (Z.shiftl uvalue 8) in
        let uvalue := Z.lor uvalue (peek buf cp) in
        value_loop fuel' buf nlen uvalue (S cp)
  end.

(** The value field: from [type = *cp & 0x70] to the assignment of
    [values[i].value].  The conditional expression has type [uint64_t]; its
    result is converted to the [int64_t] field. *)
Definition parse_value (buf : list Z) (cp : nat) : Z :=
  let type := Z.land (peek buf cp) 0x70 in
  let len := Z.land (peek buf cp) 0x0f in
  let cp := S cp in
  let '(uvalue, _) := value_loop 256 buf len 0 cp in
  to_int64 (if type =? 0x50 then to_uint64 (to_int64 uvalue) else uvalue).

(** The cursor after the status, time, unit and scaler fields, with the unit
    and the scaler read on the way. *)
Definition parse_header (buf : list Z) (cp : nat) : Z * Z * nat :=
  (* Ignore status byte *)
  let cp := (cp + Z.to_nat (Z.land (peek buf cp) 0x0f))%nat in
  (* Ignore time byte *)
  let cp := (cp + Z.to_nat (Z.land (peek buf cp) 0x0f))%nat in
  (* Save unit *)
  let len := Z.land (peek buf cp) 0x0f in
  let u := peek buf (cp + 1) in
  let cp := (cp + Z.to_nat len)%nat in
  (* Save scaler *)
  let len := Z.land (peek buf cp) 0x0f in
  let s := to_int8 (peek buf (cp + 1)) in
  let cp := (cp + Z.to_nat len)%nat in
  (u, s, cp).

(** The body of [if (found_at != NULL)]. *)
Definition parse_metric (buf : list Z) (found_at pattern_size : nat) : metric_value :=
  let cp := (found_at + pattern_size)%nat in
  let '(u, s, cp) := parse_header buf cp in
  MetricValue (parse_value buf cp) u s.

(** [memmem_P(buffer, position, &METRICS[i].pattern.front(), pattern_mem_size)] *)
Definition found (m : machine) (i : nat) : option nat :=
  let pattern_mem_size := length (pattern (METRICS !!! i)) in
  memmem (take (position m) (buffer m)) (front_memory T i pattern_mem_size).

Definition parse_step (st : list metric_value * machine) (i : nat)
  : list metric_value * machine :=
  let '(values, m) := st in
  match found m i with
  | Some found_at =>
      (<[i := parse_metric (buffer m) found_at (length (pattern (METRICS !!! i)))]> values,
       println (FoundMetric (name (METRICS !!! i))) m)
  | None => (values, m)
  end.

Definition parse (m : machine) : list metric_value * machine :=
  fold_left parse_step (seq 0 METRIC_LENGTH)
            (map (indeterminate T) (seq 0 METRIC_LENGTH), m).

(** *** process_message: publishing *)

(** [(uint32_t)((value * pow(10, scaler)) * 1000)], assigned to the
    [int32_t value]. *)
Definition scaled (mv : metric_value) : Z :=
  let d := dmul (dmul (double_of_Z (value mv))
                      (libm_pow T (double_of_Z 10) (double_of_Z (scaler mv))))
                (double_of_Z 1000) in
  to_int32 (match trunc_to_uint32 d with
            | Some n => n
            | None => to_uint32 (fixuns_undefined T d)
            end).

Definition publish_step (values : list metric_value) (m : machine) (i : nat) : machine :=
  let v := scaled (values !!! i) in
  let f := memory m in
  let written :=
    match i with
    | 0%nat => Some (set_memory (Bae910 v (usern f) (usero f) (userp f)) m)
    | 1%nat => Some (set_memory (Bae910 (userm f) v (usero f) (userp f)) m)
    | 2%nat => Some (set_memory (Bae910 (userm f) (usern f) v (userp f)) m)
    | 3%nat => Some (set_memory (Bae910 (userm f) (usern f) (usero f) v) m)
    | _ => None
    end in
  match written with
  | Some m =>
      println (PublishedMetric (name (METRICS !!! i))
                 (to_int32 (value (values !!! i))) (unit (values !!! i)) (scaler (values !!! i))) m
  | None => println (TooManyMetrics (name (METRICS !!! i))) m
  end.

Definition publish (values : list metric_value) (m : machine) : machine :=
  fold_left (publish_step values) (seq 0 METRIC_LENGTH) m.

(** *** process_message *)

Definition calculated_checksum (m : machine) : Z :=
  x25 (take (position m - 2) (buffer m)).

Definition given_checksum (m : machine) : Z :=
  Z.lor (Z.shiftl (peek (buffer m) (position m - 1)) 8) (peek (buffer m) (position m - 2)).

Definition process_message (now : Z) (m : machine) : machine :=
  if negb (calculated_checksum m =? given_checksum m)
  then reset now "Checksum mismatch, starting over." m
  else
    let '(values, m) := parse m in
    let m := publish values m in
    reset now "" m.

(** *** run_current_state, setup and loop *)

(** The serial line: bytes that have arrived and were not read yet. *)
Definition world : Type := machine * list Z.

Definition timed_out (now : Z) (m : machine) : bool :=
  READ_TIMEOUT * 1000 <? to_uint32 (now - last_state_reset m).

Definition run_current_state (now : Z) (w : world) : world :=
  let '(m, rx) := w in
  match state m with
  | None => w
  | Some _ =>
      let m := if timed_out now m then reset now "" (println ReadTimeout m) else m in
      match state m with
      | Some WaitStart => wait_for_start_sequence now rx m
      | Some Accumulate => read_message now rx m
      | Some AwaitTail => read_checksum now rx m
      | Some Done => (process_message now m, rx)
      | None => (m, rx)
      end
  end.

(** The globals at power-on ([buffer] is zero-initialised) and [setup()].
    [f] is the content of the register file after its construction. *)
Definition power_on (f : bae910_memory) : machine :=
  Machine (replicate BUFFER_SIZE 0) 0%nat 0 0 None f [].

Definition setup (now : Z) (f : bae910_memory) : machine :=
  set_state now WaitStart (power_on f).

(** One turn of [loop()]: the bytes that arrived since the last turn join
    the queue, then the current state runs at time [now]. *)
Definition loop (w : world) (turn : Z * list Z) : world :=
  let '(now, arrived) := turn in
  run_current_state now (fst w, snd w ++ arrived).

Definition run (turns : list (Z * list Z)) (w : world) : world :=
  fold_left loop turns w.

End Sketch.

(** ** A reference target

    Used where a statement needs a concrete target: [pow] is computed by
    repeated multiplication and one correctly rounded division, out-of-range
    conversions give 0, the memory behind the buffer reads as 0, the
    indeterminate [values[i]] hold value 7, unit 0, scaler 0, and the first
    element of a pattern is followed in its list node by bytes that read
    as 0, so that the search of every metric is for 77 00 00 00 00 00 00 00. *)

Definition Z_of_double (d : double) : Z :=
  match d with
  | S754_finite s m e =>
      let mag := if 0 <=? e then Z.shiftl (Z.pos m) e else Z.shiftr (Z.pos m) (- e) in
      if s then - mag else mag
  | _ => 0
  end.

Fixpoint dpow_nat (x : double) (n : nat) : double :=
  match n with
  | O => double_of_Z 1
  | S n' => dmul x (dpow_nat x n')
  end.

Definition reference_pow (x y : double) : double :=
  let n := Z_of_double y in
  if 0 <=? n then dpow_nat x (Z.to_nat n)
  else SFdiv dprec demax (double_of_Z 1) (dpow_nat x (Z.to_nat (- n))).

Definition reference_target : target :=
  Target reference_pow (fun _ => 0) (fun _ => 0) (fun _ => MetricValue 7 0 0)
         (fun i n => take n (take 1 (pattern (METRICS !!! i)) ++ replicate n 0)).

(** ** Datagrams on the wire

    Start sequence, payload, end sequence, fill-count byte and the
    CRC-16/X-25 of everything before it, low byte first. *)

Definition datagram (payload : list Z) (fill : Z) : list Z :=
  let covered := START_SEQUENCE ++ payload ++ END_SEQUENCE ++ [fill] in
  covered ++ [Z.land (x25 covered) 0xFF; Z.shiftr (x25 covered) 8].

(** The 16-bit value whose low byte is [lo] and whose high byte is [hi]. *)
Definition little_endian16 (lo hi : Z) : Z := lo + 256 * hi.

(** * Properties *)

(** The check value of CRC-16/X-25: the CRC of the ASCII digits 1 to 9. *)
Example x25_check_value :
  x25 [0x31; 0x32; 0x33; 0x34; 0x35; 0x36; 0x37; 0x38; 0x39] = 0x906E.
Proof. reflexivity. Qed.

(** ** Field equations of the transitions *)

Lemma reset_state now msg m : state (reset now msg m) = Some WaitStart.
Proof. unfold reset. destruct (0 <? String.length msg)%nat; reflexivity. Qed.

Lemma reset_position now msg m : position (reset now msg m) = 0%nat.
Proof. unfold reset. destruct (0 <? String.length msg)%nat; reflexivity. Qed.

Lemma reset_last_state_reset now msg m : last_state_reset (reset now msg m) = now.
Proof. unfold reset. destruct (0 <? String.length msg)%nat; reflexivity. Qed.

Lemma reset_buffer now msg m : buffer (reset now msg m) = buffer m.
Proof. unfold reset. destruct (0 <? String.length msg)%nat; reflexivity. Qed.

Lemma reset_memory now msg m : memory (reset now msg m) = memory m.
Proof. unfold reset. destruct (0 <? String.length msg)%nat; reflexivity. Qed.

Lemma peek_lookup T (buf : list Z) off b : buf !! off = Some b -> peek T buf off = b.
Proof. unfold peek. now intros ->. Qed.

Lemma peek_insert_eq T (buf : list Z) off b :
  (off < length buf)%nat -> peek T (<[off := b]> buf) off = b.
Proof. intros H. apply peek_lookup. now apply list_lookup_insert_eq. Qed.

Lemma peek_insert_ne T (buf : list Z) i off b :
  i <> off -> peek T (<[i := b]> buf) off = peek T buf off.
Proof. intros H. unfold peek. now rewrite list_lookup_insert_ne. Qed.

(** ** The watchdog *)

Lemma timed_out_spec now m :
  timed_out now m = true <-> 30000 < (now - last_state_reset m) mod 2 ^ 32.
Proof. unfold timed_out, to_uint32, READ_TIMEOUT. rewrite Z.ltb_lt. reflexivity. Qed.

(** The state function that a tick calls when the watchdog stays quiet. *)
Definition dispatch (T : target) (s : state_fn) (now : Z) (rx : list Z) (m : machine) : world :=
  match s with
  | WaitStart => wait_for_start_sequence T now rx m
  | Accumulate => read_message T now rx m
  | AwaitTail => read_checksum now rx m
  | Done => (process_message T now m, rx)
  end.

(** C10, as the code has it: the watchdog reset happens on a tick exactly
    when more than 30000 ms (modulo 2^32) have passed since the last reset,
    whatever the current state is, [WaitStart] included.  The reset prints
    the time-out line, sets the position to zero, restarts the timer and the
    same tick goes on with [wait_for_start_sequence]; otherwise the tick runs
    the current state function. *)
Theorem watchdog_resets_in_every_state T now m rx s :
  state m = Some s ->
  (30000 < (now - last_state_reset m) mod 2 ^ 32 ->
     let m' := reset now "" (println ReadTimeout m) in
     run_current_state T now (m, rx) = wait_for_start_sequence T now rx m'
     /\ state m' = Some WaitStart /\ position m' = 0%nat /\ last_state_reset m' = now
     /\ serial m' = serial m ++ [ReadTimeout; StateIs WaitStart])
  /\ ((now - last_state_reset m) mod 2 ^ 32 <= 30000 ->
     run_current_state T now (m, rx) = dispatch T s now rx m).
Proof.
  intros Hs. split.
  - intros Hlate. apply timed_out_spec in Hlate.
    cbv zeta. unfold run_current_state. rewrite Hs, Hlate.
    repeat split.
    cbn. now rewrite <- app_assoc.
  - intros Hearly.
    assert (timed_out now m = false) as Hq.
    { destruct (timed_out now m) eqn:E; [|reflexivity].
      apply timed_out_spec in E. lia. }
    unfold run_current_state. rewrite Hs, Hq, Hs. now destruct s.
Qed.

(** In [WaitStart], with three bytes of the start sequence matched, a tick
    that comes 30001 ms after the last reset resets the machine. *)
Lemma watchdog_resets_wait_start_example :
  let w := run reference_target [(0, [0x1B; 0x1B; 0x1B])] (setup 0 (Bae910 0 0 0 0), []) in
  let w' := loop reference_target w (30001, []) in
  state (fst w) = Some WaitStart /\ position (fst w) = 3%nat
  /\ serial (fst w') = serial (fst w) ++ [ReadTimeout; StateIs WaitStart]
  /\ position (fst w') = 0%nat /\ last_state_reset (fst w') = 30001.
Proof. vm_compute. repeat split. Qed.

Lemma watchdog_resets_in_every_state_witness :
  let m := fst (run reference_target [(0, [0x1B; 0x1B; 0x1B])] (setup 0 (Bae910 0 0 0 0), [])) in
  run_current_state reference_target 30001 (m, [])
  = wait_for_start_sequence reference_target 30001 [] (reset 30001 "" (println ReadTimeout m))
  /\ run_current_state reference_target 30000 (m, [0x1B])
     = dispatch reference_target WaitStart 30000 [0x1B] m.
Proof.
  cbv zeta.
  pose proof (watchdog_resets_in_every_state reference_target 30001
    (fst (run reference_target [(0, [0x1B; 0x1B; 0x1B])] (setup 0 (Bae910 0 0 0 0), [])))
    [] WaitStart eq_refl) as [H1 _].
  pose proof (watchdog_resets_in_every_state reference_target 30000
    (fst (run reference_target [(0, [0x1B; 0x1B; 0x1B])] (setup 0 (Bae910 0 0 0 0), [])))
    [0x1B] WaitStart eq_refl) as [_ H2].
  split.
  - apply H1. vm_compute. reflexivity.
  - apply H2. vm_compute. discriminate.
Defined.

(** ** Waiting for the start sequence *)

Lemma wait_for_start_sequence_cons T now b rx m :
  (position m < length (buffer m))%nat ->
  wait_for_start_sequence T now (b :: rx) m =
    let m1 := set_buffer (<[position m := b]> (buffer m)) m in
    if b =? START_SEQUENCE !!! position m then
      if (S (position m) =? START_SEQUENCE_LENGTH)%nat
      then (set_state now Accumulate (set_position (S (position m)) m1), rx)
      else wait_for_start_sequence T now rx (set_position (S (position m)) m1)
    else wait_for_start_sequence T now rx (set_position 0%nat m1).
Proof.
  intros Hlt. cbn [wait_for_start_sequence]. cbv zeta.
  cbn [buffer position set_buffer set_position].
  rewrite peek_insert_eq by exact Hlt.
  destruct (b =? START_SEQUENCE !!! position m); reflexivity.
Qed.

(** What holds of the machine while it waits: the cursor is inside the
    start sequence and the bytes before it are the matched part. *)
Definition matching (m : machine) : Prop :=
  state m = Some WaitStart
  /\ (position m < START_SEQUENCE_LENGTH)%nat
  /\ length (buffer m) = BUFFER_SIZE
  /\ take (position m) (buffer m) = take (position m) START_SEQUENCE.

Lemma START_SEQUENCE_lookup (p : nat) :
  (p < START_SEQUENCE_LENGTH)%nat -> START_SEQUENCE !! p = Some (START_SEQUENCE !!! p).
Proof. intros H. now apply list_lookup_lookup_total_lt. Qed.

Lemma matching_advance m b :
  matching m -> b = START_SEQUENCE !!! position m ->
  take (S (position m)) (<[position m := b]> (buffer m)) = take (S (position m)) START_SEQUENCE.
Proof.
  intros (_ & Hp & Hl & Ht) ->.
  assert (position m < length (buffer m))%nat
    by (rewrite Hl; unfold START_SEQUENCE_LENGTH, BUFFER_SIZE in *; simpl in Hp; lia).
  rewrite (take_S_r _ _ (START_SEQUENCE !!! position m))
    by now apply list_lookup_insert_eq.
  rewrite take_insert_ge by lia. rewrite Ht.
  symmetry. apply take_S_r. now apply START_SEQUENCE_lookup.
Qed.

Lemma wait_for_start_sequence_found T now rx : forall m,
  matching m ->
  state (fst (wait_for_start_sequence T now rx m)) = Some Accumulate ->
  position (fst (wait_for_start_sequence T now rx m)) = START_SEQUENCE_LENGTH
  /\ take START_SEQUENCE_LENGTH (buffer (fst (wait_for_start_sequence T now rx m)))
     = START_SEQUENCE
  /\ length (buffer (fst (wait_for_start_sequence T now rx m))) = BUFFER_SIZE.
Proof.
  induction rx as [|b rx IH]; intros m Hm.
  - destruct Hm as (Hs & _). cbn. rewrite Hs. discriminate.
  - pose proof Hm as (Hs & Hp & Hl & Ht).
    assert (position m < length (buffer m))%nat as Hlt
      by (rewrite Hl; unfold START_SEQUENCE_LENGTH, BUFFER_SIZE in *; simpl in Hp; lia).
    rewrite wait_for_start_sequence_cons by exact Hlt. cbv zeta.
    destruct (b =? START_SEQUENCE !!! position m) eqn:Eb.
    + apply Z.eqb_eq in Eb.
      pose proof (matching_advance m b Hm Eb) as Hadv.
      destruct (S (position m) =? START_SEQUENCE_LENGTH)%nat eqn:Efull.
      * apply Nat.eqb_eq in Efull. intros _.
        rewrite Efull in Hadv.
        cbn [fst set_state set_state_pointer println position buffer set_position set_buffer].
        repeat split; [exact Efull | exact Hadv | now rewrite length_insert].
      * apply Nat.eqb_neq in Efull. apply IH.
        change START_SEQUENCE_LENGTH with 8%nat in *.
        repeat split; cbn; [exact Hs | lia | now rewrite length_insert | exact Hadv].
    + apply IH. repeat split; cbn; [exact Hs | lia | now rewrite length_insert ].
Qed.

Lemma setup_matching now f : matching (setup now f).
Proof. repeat split. unfold START_SEQUENCE_LENGTH. simpl. lia. Qed.

(** C8, as the code has it: when the match cursor reaches the length of the
    start sequence the buffer is not cleared.  The position is 8, the first
    eight bytes of the buffer are the start sequence, the state becomes
    [read_message], and the next byte read is stored at offset 8. *)
Theorem start_sequence_is_kept_in_buffer T now rx m :
  matching m ->
  state (fst (wait_for_start_sequence T now rx m)) = Some Accumulate ->
  let m' := fst (wait_for_start_sequence T now rx m) in
  position m' = 8%nat
  /\ take 8 (buffer m') = START_SEQUENCE
  /\ forall now' b,
       let m'' := fst (read_message T now' [b] m') in
       position m'' = 9%nat /\ take 9 (buffer m'') = START_SEQUENCE ++ [b].
Proof.
  intros Hm Hacc.
  destruct (wait_for_start_sequence_found T now rx m Hm Hacc) as (Hp & Ht & Hl).
  cbv zeta. change START_SEQUENCE_LENGTH with 8%nat in Hp, Ht.
  split; [exact Hp|]. split; [exact Ht|].
  intros now' b.
  set (m' := fst (wait_for_start_sequence T now rx m)) in *.
  assert (take 9 (<[8%nat := b]> (buffer m')) = START_SEQUENCE ++ [b]) as H9.
  { rewrite (take_S_r _ 8 b).
    - rewrite take_insert_ge by lia. now rewrite Ht.
    - apply list_lookup_insert_eq. rewrite Hl. unfold BUFFER_SIZE. lia. }
  cbn [read_message]. rewrite Hp. cbn [Nat.add Nat.eqb BUFFER_SIZE].
  cbv zeta. cbn [position buffer set_position set_buffer].
  destruct (end_sequence_found T (<[8%nat:=b]> (buffer m')) 9); cbn; split; auto.
Qed.

(** After the bytes of the start sequence the buffer has length 8, not 0. *)
Lemma start_sequence_is_kept_example :
  let w := run reference_target [(0, START_SEQUENCE)] (setup 0 (Bae910 0 0 0 0), []) in
  state (fst w) = Some Accumulate /\ position (fst w) = 8%nat
  /\ take 8 (buffer (fst w)) = START_SEQUENCE.
Proof. vm_compute. repeat split. Qed.

Lemma start_sequence_is_kept_in_buffer_witness :
  let m' := fst (wait_for_start_sequence reference_target 0 START_SEQUENCE
                   (setup 0 (Bae910 0 0 0 0))) in
  position m' = 8%nat
  /\ take 8 (buffer m') = START_SEQUENCE
  /\ forall now' b,
       let m'' := fst (read_message reference_target now' [b] m') in
       position m'' = 9%nat /\ take 9 (buffer m'') = START_SEQUENCE ++ [b].
Proof.
  apply (start_sequence_is_kept_in_buffer reference_target 0 START_SEQUENCE
           (setup 0 (Bae910 0 0 0 0))).
  - apply setup_matching.
  - vm_compute. reflexivity.
Defined.

(** ** Validation *)

Lemma land_shiftl8_byte hi lo : is_byte lo -> Z.land (Z.shiftl hi 8) lo = 0.
Proof.
  intros [H0 H1]. apply Z.bits_inj'. intros n Hn.
  rewrite Z.land_spec, Z.bits_0.
  destruct (Z.ltb_spec n 8) as [Hlt|Hge].
  - rewrite Z.shiftl_spec_low by lia. reflexivity.
  - destruct (Z.eq_dec lo 0) as [->|Hnz].
    + rewrite Z.bits_0. apply andb_false_r.
    + rewrite (Z.bits_above_log2 lo n); [apply andb_false_r | lia |].
      assert (Z.log2 lo < 8) by (apply Z.log2_lt_pow2; lia). lia.
Qed.

Lemma lor_shiftl8_byte hi lo :
  is_byte lo -> Z.lor (Z.shiftl hi 8) lo = little_endian16 lo hi.
Proof.
  intros Hlo. unfold little_endian16.
  pose proof (Z.add_lor_land (Z.shiftl hi 8) lo) as H.
  rewrite (land_shiftl8_byte hi lo Hlo), Z.add_0_r in H.
  rewrite H, Z.shiftl_mul_pow2 by lia. change (2 ^ 8) with 256. lia.
Qed.

Lemma parse_step_frame T st i :
  let m := snd st in let m' := snd (parse_step T st i) in
  buffer m' = buffer m /\ position m' = position m /\ state m' = state m
  /\ memory m' = memory m /\ last_state_reset m' = last_state_reset m
  /\ bytes_until_checksum m' = bytes_until_checksum m.
Proof.
  destruct st as [values m]. unfold parse_step. cbn [snd].
  destruct (found T m i); cbn; repeat split.
Qed.

Lemma parse_frame T m :
  let m' := snd (parse T m) in
  buffer m' = buffer m /\ position m' = position m /\ state m' = state m
  /\ memory m' = memory m /\ last_state_reset m' = last_state_reset m
  /\ bytes_until_checksum m' = bytes_until_checksum m.
Proof.
  unfold parse. change (seq 0 METRIC_LENGTH) with [0; 1; 2]%nat.
  generalize (map (indeterminate T) [0; 1; 2]%nat). intros values.
  cbn [fold_left].
  set (s0 := (values, m)).
  set (s1 := parse_step T s0 0). set (s2 := parse_step T s1 1).
  destruct (parse_step_frame T s0 0) as (?&?&?&?&?&?).
  destruct (parse_step_frame T s1 1) as (?&?&?&?&?&?).
  destruct (parse_step_frame T s2 2) as (?&?&?&?&?&?).
  subst s0 s1 s2. cbn [snd] in *. repeat split; congruence.
Qed.

Lemma publish_frame T values m :
  let m' := publish T values m in
  buffer m' = buffer m /\ position m' = position m /\ state m' = state m
  /\ last_state_reset m' = last_state_reset m
  /\ bytes_until_checksum m' = bytes_until_checksum m.
Proof. cbv zeta. unfold publish. cbn. repeat split. Qed.

(** C3: for a completed datagram of length [L = position], the CRC-16/X-25
    of the bytes [0, L-2) is compared with the little-endian 16-bit value
    made of the bytes at [L-2] (low) and [L-1] (high).  When they differ the
    machine is reset to [WaitStart] with position 0, the register file is
    untouched and nothing but the mismatch message and the state line is
    printed.  When they are equal the metrics are parsed from, and published
    for, the machine as it is, and the buffer is left unmodified. *)
Theorem checksum_decides_processing T now m :
  is_byte (peek T (buffer m) (position m - 2)) ->
  let L := position m in
  let computed := x25 (take (L - 2) (buffer m)) in
  let expected := little_endian16 (peek T (buffer m) (L - 2)) (peek T (buffer m) (L - 1)) in
  (computed <> expected ->
     let m' := process_message T now m in
     state m' = Some WaitStart /\ position m' = 0%nat
     /\ memory m' = memory m
     /\ serial m' = serial m ++ [Message "Checksum mismatch, starting over."; StateIs WaitStart])
  /\ (computed = expected ->
     let m' := process_message T now m in
     m' = reset now "" (publish T (fst (parse T m)) (snd (parse T m)))
     /\ buffer (snd (parse T m)) = buffer m /\ position (snd (parse T m)) = position m
     /\ buffer m' = buffer m /\ state m' = Some WaitStart).
Proof.
  intros Hlo L computed expected.
  assert (given_checksum T m = expected) as Hgiven.
  { unfold given_checksum, expected, L. now apply lor_shiftl8_byte. }
  assert (calculated_checksum m = computed) as Hcalc by reflexivity.
  split; intros Hcmp; cbv zeta; unfold process_message; rewrite Hgiven, Hcalc.
  - destruct (Z.eqb_spec computed expected) as [E|_]; [contradiction|].
    cbn. rewrite <- app_assoc. repeat split.
  - destruct (Z.eqb_spec computed expected) as [_|N]; [|contradiction].
    cbn [negb]. destruct (parse T m) as [values mp] eqn:Ep.
    pose proof (parse_frame T m) as Hf. rewrite Ep in Hf. cbn [snd fst] in *.
    destruct Hf as (Hb & Hp & _).
    pose proof (publish_frame T values mp) as (Hb' & _).
    split; [reflexivity|]. split; [exact Hb|]. split; [exact Hp|].
    split; [rewrite reset_buffer; congruence | apply reset_state].
Qed.

(** ** An invariant of the framer

    It holds after [setup()] and after every turn of [loop()], for any input
    and any clock. *)

Definition framed (m : machine) : Prop :=
  length (buffer m) = BUFFER_SIZE
  /\ match state m with
     | Some WaitStart => matching m
     | Some Accumulate =>
         (8 <= position m <= 3837)%nat /\ take 8 (buffer m) = START_SEQUENCE
     | Some AwaitTail =>
         (8 <= position m)%nat /\ 0 <= bytes_until_checksum m <= 3
         /\ Z.of_nat (position m) + bytes_until_checksum m <= 3840
         /\ take 8 (buffer m) = START_SEQUENCE
     | Some Done =>
         (8 <= position m <= 3840)%nat /\ take 8 (buffer m) = START_SEQUENCE
     | None => False
     end.

Lemma framed_reset now msg m :
  length (buffer m) = BUFFER_SIZE -> framed (reset now msg m).
Proof.
  intros Hl. unfold framed. rewrite reset_state, reset_buffer.
  split; [exact Hl|]. unfold matching.
  rewrite reset_state, reset_position, reset_buffer.
  repeat split; [unfold START_SEQUENCE_LENGTH; simpl; lia | exact Hl].
Qed.

Lemma framed_wait_for_start_sequence T now rx : forall m,
  matching m -> length (buffer m) = BUFFER_SIZE ->
  framed (fst (wait_for_start_sequence T now rx m)).
Proof.
  induction rx as [|b rx IH]; intros m Hm Hlen.
  - cbn. split; [exact Hlen|]. destruct Hm as (Hs & ?). rewrite Hs.
    repeat split; tauto.
  - pose proof Hm as (Hs & Hp & Hl & Ht).
    change START_SEQUENCE_LENGTH with 8%nat in *.
    assert (position m < length (buffer m))%nat as Hlt
      by (rewrite Hl; unfold BUFFER_SIZE; lia).
    rewrite wait_for_start_sequence_cons by exact Hlt. cbv zeta.
    change START_SEQUENCE_LENGTH with 8%nat in *.
    destruct (b =? START_SEQUENCE !!! position m) eqn:Eb.
    + apply Z.eqb_eq in Eb.
      pose proof (matching_advance m b Hm Eb) as Hadv.
      destruct (S (position m) =? 8)%nat eqn:Efull.
      * apply Nat.eqb_eq in Efull. rewrite Efull in Hadv.
        split; cbn; [now rewrite length_insert|].
        split; [lia | exact Hadv].
      * apply Nat.eqb_neq in Efull. apply IH; cbn; [|now rewrite length_insert].
        repeat split; cbn; [exact Hs | lia | now rewrite length_insert | exact Hadv].
    + apply IH; cbn; [|now rewrite length_insert].
      repeat split; cbn; [exact Hs | lia | now rewrite length_insert].
Qed.

Lemma framed_read_message T now rx : forall m,
  framed m -> state m = Some Accumulate ->
  framed (fst (read_message T now rx m)).
Proof.
  induction rx as [|b rx IH]; intros m Hm Hs.
  - exact Hm.
  - pose proof Hm as (Hl & Hst). rewrite Hs in Hst. destruct Hst as (Hp & Ht).
    cbn [read_message].
    destruct (position m + 3 =? BUFFER_SIZE)%nat eqn:Efull.
    + now apply framed_reset.
    + apply Nat.eqb_neq in Efull. unfold BUFFER_SIZE in Efull. cbv zeta.
      cbn [buffer position set_buffer set_position].
      assert (take 8 (<[position m := b]> (buffer m)) = START_SEQUENCE) as Ht'
        by (rewrite take_insert_ge by lia; exact Ht).
      destruct (end_sequence_found T _ _).
      * split; cbn; [now rewrite length_insert|]. repeat split; try lia. exact Ht'.
      * apply IH; [|exact Hs].
        split; cbn; [now rewrite length_insert|]. rewrite Hs.
        repeat split; try lia. exact Ht'.
Qed.

Lemma framed_read_checksum_loop rx : forall m,
  framed m -> state m = Some AwaitTail ->
  framed (fst (read_checksum_loop rx m))
  /\ state (fst (read_checksum_loop rx m)) = Some AwaitTail.
Proof.
  induction rx as [|b rx IH]; intros m Hm Hs.
  - cbn. destruct (0 <? bytes_until_checksum m); auto.
  - pose proof Hm as (Hl & Hst). rewrite Hs in Hst.
    destruct Hst as (Hp & Hb & Hsum & Ht).
    cbn [read_checksum_loop].
    destruct (Z.ltb_spec 0 (bytes_until_checksum m)) as [Hpos|Hzero]; [|auto].
    cbv zeta. apply IH; [|exact Hs].
    split; cbn; [now rewrite length_insert|]. rewrite Hs.
    unfold to_uint8. rewrite Z.mod_small by lia.
    repeat split; try lia.
    rewrite take_insert_ge by lia. exact Ht.
Qed.

Lemma framed_read_checksum now rx m :
  framed m -> state m = Some AwaitTail ->
  framed (fst (read_checksum now rx m)).
Proof.
  intros Hm Hs. unfold read_checksum.
  destruct (framed_read_checksum_loop rx m Hm Hs) as (Hf & Hs').
  destruct (read_checksum_loop rx m) as [m1 rx1]. cbn [fst] in *.
  destruct (bytes_until_checksum m1 =? 0) eqn:Ez; [|exact Hf].
  apply Z.eqb_eq in Ez.
  destruct Hf as (Hl & Hst). rewrite Hs' in Hst. destruct Hst as (Hp & Hb & Hsum & Ht).
  split; cbn; [exact Hl|]. repeat split; try lia. exact Ht.
Qed.

Lemma framed_process_message T now m :
  length (buffer m) = BUFFER_SIZE -> framed (process_message T now m).
Proof.
  intros Hl. unfold process_message.
  destruct (negb _); [now apply framed_reset|].
  destruct (parse T m) as [values mp] eqn:Ep.
  apply framed_reset.
  pose proof (parse_frame T m) as Hf. rewrite Ep in Hf. cbn [snd] in Hf.
  destruct Hf as (Hb & _).
  pose proof (publish_frame T values mp) as (Hb' & _). congruence.
Qed.

Lemma framed_run_current_state T now m rx :
  framed m -> framed (fst (run_current_state T now (m, rx))).
Proof.
  intros Hm. unfold run_current_state.
  destruct (state m) as [s|] eqn:Hs; [|destruct Hm as (_ & Hst); now rewrite Hs in Hst].
  set (m1 := if timed_out now m then reset now "" (println ReadTimeout m) else m).
  assert (framed m1) as Hm1.
  { unfold m1. destruct (timed_out now m); [|exact Hm].
    apply framed_reset. cbn. apply Hm. }
  clearbody m1. clear Hm Hs m s.
  pose proof Hm1 as (Hl & Hst).
  destruct (state m1) as [[| | |]|] eqn:Hs; try contradiction.
  - now apply framed_wait_for_start_sequence.
  - now apply framed_read_message.
  - now apply framed_read_checksum.
  - cbn [fst]. now apply framed_process_message.
Qed.

Lemma framed_setup now f : framed (setup now f).
Proof.
  split; [reflexivity|]. cbn. apply setup_matching.
Qed.

Lemma framed_run T turns : forall w, framed (fst w) -> framed (fst (run T turns w)).
Proof.
  induction turns as [|[now arrived] turns IH]; intros w Hw; [exact Hw|].
  cbn [run fold_left]. apply IH. unfold loop.
  now apply framed_run_current_state.
Qed.

(** ** Buffer overflow *)

Definition overflow_message : string := "Buffer will overflow, starting over.".

(** What [read_message] does with one byte that it stores: the statement
    [buffer[position++] = data_read()]. *)
Definition append_byte (m : machine) (b : Z) : machine :=
  set_position (S (position m)) (set_buffer (<[position m := b]> (buffer m)) m).

Definition appended (m : machine) (bytes : list Z) : machine :=
  fold_left append_byte bytes m.

(** None of the first [k] bytes of [rx], stored one after the other,
    completes an end sequence. *)
Definition no_end_sequence (T : target) (m : machine) (rx : list Z) (k : nat) : bool :=
  forallb (fun j => let mj := appended m (take j rx) in
                    negb (end_sequence_found T (buffer mj) (position mj)))
          (seq 1 k).

Lemma forallb_seq_shift (f : nat -> bool) k : forall a,
  forallb f (seq (S a) k) = forallb (fun j => f (S j)) (seq a k).
Proof.
  induction k as [|k IH]; intros a; [reflexivity|].
  cbn [seq forallb]. now rewrite IH.
Qed.

Lemma no_end_sequence_cons T m b rx k :
  no_end_sequence T m (b :: rx) (S k)
  = negb (end_sequence_found T (buffer (append_byte m b)) (position (append_byte m b)))
    && no_end_sequence T (append_byte m b) rx k.
Proof.
  unfold no_end_sequence. cbn [seq forallb]. f_equal.
  now rewrite forallb_seq_shift.
Qed.

Lemma appended_position bytes : forall m,
  position (appended m bytes) = (position m + length bytes)%nat.
Proof.
  induction bytes as [|b bytes IH]; intros m; cbn [appended fold_left length]; [lia|].
  fold (appended (append_byte m b) bytes). rewrite IH. cbn. lia.
Qed.

Lemma appended_state bytes : forall m, state (appended m bytes) = state m.
Proof.
  induction bytes as [|b bytes IH]; intros m; cbn [appended fold_left]; [reflexivity|].
  fold (appended (append_byte m b) bytes). now rewrite IH.
Qed.

Lemma appended_serial bytes : forall m, serial (appended m bytes) = serial m.
Proof.
  induction bytes as [|b bytes IH]; intros m; cbn [appended fold_left]; [reflexivity|].
  fold (appended (append_byte m b) bytes). now rewrite IH.
Qed.

Lemma read_message_cons T now b rx m :
  read_message T now (b :: rx) m
  = if (position m + 3 =? BUFFER_SIZE)%nat
    then (reset now overflow_message m, b :: rx)
    else if end_sequence_found T (buffer (append_byte m b)) (position (append_byte m b))
         then (set_state now AwaitTail (append_byte m b), rx)
         else read_message T now rx (append_byte m b).
Proof. reflexivity. Qed.

(** A burst that carries the buffer to 3837 bytes without an end sequence
    and holds one byte more: the reset comes when that byte is due. *)
Lemma read_message_overflows T now : forall k rx m,
  (position m + k = 3837)%nat -> (k < length rx)%nat ->
  no_end_sequence T m rx k = true ->
  read_message T now rx m
  = (reset now overflow_message (appended m (take k rx)), drop k rx).
Proof.
  induction k as [|k IH]; intros rx m Hp Hlen Hno.
  - destruct rx as [|b rx]; [cbn in Hlen; lia|].
    rewrite read_message_cons.
    replace (position m + 3 =? BUFFER_SIZE)%nat with true
      by (symmetry; apply Nat.eqb_eq; unfold BUFFER_SIZE; lia).
    reflexivity.
  - destruct rx as [|b rx]; [cbn in Hlen; lia|].
    rewrite no_end_sequence_cons in Hno. apply andb_prop in Hno as (H1 & Hno).
    apply negb_true_iff in H1.
    rewrite read_message_cons, H1.
    replace (position m + 3 =? BUFFER_SIZE)%nat with false
      by (symmetry; apply Nat.eqb_neq; unfold BUFFER_SIZE; lia).
    cbn [take drop]. change (appended m (b :: take k rx))
      with (appended (append_byte m b) (take k rx)).
    apply IH; [cbn; lia | cbn in Hlen; lia | exact Hno].
Qed.

(** Any other burst: [read_message] stores bytes until the burst is used up
    or an end sequence is complete, and does not reset. *)
Lemma read_message_no_overflow T now : forall rx m,
  (position m <= 3837)%nat ->
  (length rx <= 3837 - position m)%nat
  \/ no_end_sequence T m rx (3837 - position m) = false ->
  exists n,
    (n <= length rx)%nat /\ (n <= 3837 - position m)%nat
    /\ ((n = length rx /\ read_message T now rx m = (appended m (take n rx), drop n rx))
        \/ (end_sequence_found T (buffer (appended m (take n rx)))
              (position (appended m (take n rx))) = true
            /\ read_message T now rx m
               = (set_state now AwaitTail (appended m (take n rx)), drop n rx))).
Proof.
  induction rx as [|b rx IH]; intros m Hp Hcase.
  - exists 0%nat. cbn. split; [lia|]. split; [lia|]. left. split; reflexivity.
  - destruct (Nat.eq_dec (position m) 3837%nat) as [E|NE].
    { rewrite E, Nat.sub_diag in Hcase.
      destruct Hcase as [H|H]; [cbn in H; lia | discriminate H]. }
    replace (3837 - position m)%nat with (S (3837 - S (position m))) in * by lia.
    rewrite no_end_sequence_cons in Hcase.
    rewrite read_message_cons.
    replace (position m + 3 =? BUFFER_SIZE)%nat with false
      by (symmetry; apply Nat.eqb_neq; unfold BUFFER_SIZE; lia).
    destruct (end_sequence_found T (buffer (append_byte m b)) (position (append_byte m b)))
      eqn:Eend.
    + exists 1%nat. cbn [take drop length]. rewrite take_0.
      change (appended m [b]) with (append_byte m b).
      split; [lia|]. split; [lia|]. right. split; [exact Eend | reflexivity].
    + cbn [negb andb] in Hcase.
      destruct (IH (append_byte m b)) as (n & Hn & Hk & Hout).
      * cbn. lia.
      * cbn [position append_byte set_position].
        destruct Hcase as [H|H]; [left; cbn in H; lia | right; exact H].
      * cbn [position append_byte set_position] in Hk.
        exists (S n). cbn [take drop length].
        change (appended m (b :: take n rx)) with (appended (append_byte m b) (take n rx)).
        split; [lia|]. split; [lia|].
        destruct Hout as [(Hall & Hrun)|(He & Hrun)].
        { left. split; [lia | exact Hrun]. }
        { right. split; [exact He | exact Hrun]. }
Qed.

(** C4: while the machine accumulates, the position never exceeds
    3837 = capacity - 3.  For a burst of any length that [read_message]
    meets with [position <= 3837], let [k = 3837 - position] be the room
    that is left.  If the burst holds more than [k] bytes and none of its
    first [k] bytes completes an end sequence, these [k] bytes are stored,
    the buffer then holds 3837 bytes, and the reset with the overflow
    message takes place before the next byte is read or stored: the state
    is [WaitStart], the position 0, and the byte is still in the queue.  In
    every other case there is no reset: some [n <= k] bytes are stored and
    either the burst is used up and the machine goes on accumulating, or the
    [n]-th byte completes the end sequence and the machine goes on to read
    the checksum. *)
Theorem buffer_overflow_exactly_at_3837 T :
  (forall t0 f turns,
     let m := fst (run T turns (setup t0 f, [])) in
     state m = Some Accumulate -> (position m <= 3837)%nat)
  /\ (forall now rx m,
        state m = Some Accumulate -> (position m <= 3837)%nat ->
        let k := (3837 - position m)%nat in
        (k < length rx)%nat -> no_end_sequence T m rx k = true ->
        let full := appended m (take k rx) in
        position full = 3837%nat
        /\ read_message T now rx m = (reset now overflow_message full, drop k rx)
        /\ state (reset now overflow_message full) = Some WaitStart
        /\ position (reset now overflow_message full) = 0%nat
        /\ buffer (reset now overflow_message full) = buffer full
        /\ serial (reset now overflow_message full)
           = serial m ++ [Message overflow_message; StateIs WaitStart])
  /\ (forall now rx m,
        state m = Some Accumulate -> (position m <= 3837)%nat ->
        let k := (3837 - position m)%nat in
        (length rx <= k)%nat \/ no_end_sequence T m rx k = false ->
        let w := read_message T now rx m in
        exists n,
          (n <= length rx)%nat /\ (n <= k)%nat
          /\ snd w = drop n rx
          /\ position (fst w) = (position m + n)%nat
          /\ buffer (fst w) = buffer (appended m (take n rx))
          /\ ((state (fst w) = Some Accumulate /\ n = length rx
               /\ serial (fst w) = serial m)
              \/ (state (fst w) = Some AwaitTail
                  /\ end_sequence_found T (buffer (fst w)) (position (fst w)) = true
                  /\ serial (fst w) = serial m ++ [StateIs AwaitTail]))).
Proof.
  split; [|split].
  - intros t0 f turns m Hs.
    assert (framed m) as (_ & Hst)
      by (apply framed_run; apply framed_setup).
    rewrite Hs in Hst. lia.
  - intros now rx m Hs Hp k Hlen Hno full.
    assert (position full = 3837%nat) as Hfull.
    { unfold full. rewrite appended_position, length_take. unfold k in *. lia. }
    split; [exact Hfull|].
    split; [apply read_message_overflows; unfold k in *; [lia | exact Hlen | exact Hno]|].
    split; [reflexivity|]. split; [reflexivity|]. split; [reflexivity|].
    cbn. unfold full. rewrite appended_serial. now rewrite <- app_assoc.
  - intros now rx m Hs Hp k Hcase w.
    destruct (read_message_no_overflow T now rx m Hp Hcase)
      as (n & Hn & Hk & Hout).
    exists n.
    assert (position (appended m (take n rx)) = (position m + n)%nat) as Hpos
      by (rewrite appended_position, length_take; lia).
    split; [exact Hn|]. split; [exact Hk|].
    destruct Hout as [(Hall & Hrun)|(He & Hrun)]; unfold w; rewrite Hrun; cbn [fst snd].
    + split; [reflexivity|]. split; [exact Hpos|]. split; [reflexivity|].
      left. split; [now rewrite appended_state|]. split; [exact Hall|].
      apply appended_serial.
    + split; [reflexivity|]. split; [exact Hpos|]. split; [reflexivity|].
      right. split; [reflexivity|]. split; [exact He|].
      cbn. now rewrite appended_serial.
Qed.

Lemma buffer_overflow_exactly_at_3837_witness :
  let m := Machine (replicate BUFFER_SIZE 0) 3835 0 0 (Some Accumulate) (Bae910 0 0 0 0) [] in
  (read_message reference_target 5 [0x76; 0x05; 0x1B; 0x1B] m
   = (reset 5 overflow_message (appended m [0x76; 0x05]), [0x1B; 0x1B])
   /\ position (reset 5 overflow_message (appended m [0x76; 0x05])) = 0%nat)
  /\ exists n,
       snd (read_message reference_target 5 [0x76; 0x05] m) = drop n [0x76; 0x05]
       /\ position (fst (read_message reference_target 5 [0x76; 0x05] m)) = (3835 + n)%nat.
Proof.
  cbv zeta.
  destruct (buffer_overflow_exactly_at_3837 reference_target) as (_ & Hat & Hbelow).
  split.
  - destruct (Hat 5 [0x76; 0x05; 0x1B; 0x1B]
      (Machine (replicate BUFFER_SIZE 0) 3835 0 0 (Some Accumulate) (Bae910 0 0 0 0) []))
      as (_ & Hrun & _ & Hpos & _).
    + reflexivity.
    + cbn. lia.
    + cbn. lia.
    + vm_compute. reflexivity.
    + split; [exact Hrun | exact Hpos].
  - destruct (Hbelow 5 [0x76; 0x05]
      (Machine (replicate BUFFER_SIZE 0) 3835 0 0 (Some Accumulate) (Bae910 0 0 0 0) []))
      as (n & _ & _ & Hrest & Hpos & _).
    + reflexivity.
    + cbn. lia.
    + left. cbn. lia.
    + exists n. split; [exact Hrest | exact Hpos].
Defined.

(** The start sequence followed by 3829 bytes fills the buffer up to 3837
    bytes; the next byte is not read, the overflow message is printed and the
    machine waits for a start sequence again. *)
Lemma buffer_overflow_example :
  let w := run reference_target [(0, START_SEQUENCE); (0, replicate 3829 0)]
               (setup 0 (Bae910 0 0 0 0), []) in
  let w' := loop reference_target w (0, [0x76]) in
  (state (fst w) = Some Accumulate /\ position (fst w) = 3837%nat /\ snd w = [])
  /\ snd w' = [0x76]
  /\ serial (fst w') = serial (fst w) ++ [Message overflow_message; StateIs WaitStart].
Proof. vm_compute. repeat split. Qed.

(** ** The value field *)

(** The bytes [buf[cp], ..., buf[cp + n - 1]]. *)
Definition bytes_at (T : target) (buf : list Z) (cp n : nat) : list Z :=
  map (peek T buf) (seq cp n).

(** The number that a sequence of bytes denotes, most significant byte first. *)
Definition big_endian (bytes : list Z) : Z :=
  fold_left (fun acc b => 256 * acc + b) bytes 0.

(** One turn of the loop body on the accumulator. *)
Definition shift_or (uvalue b : Z) : Z := Z.lor (to_uint64 (Z.shiftl uvalue 8)) b.

Lemma value_loop_runs T buf : forall (n fuel : nat) uvalue cp,
  (n < fuel)%nat -> (n <= 254)%nat ->
  value_loop T fuel buf (Z.of_nat n + 1) uvalue cp
  = (fold_left shift_or (bytes_at T buf cp n) uvalue, (cp + n)%nat).
Proof.
  induction n as [|n IH]; intros fuel uvalue cp Hfuel Hn.
  - destruct fuel as [|fuel]; [lia|]. cbn. now rewrite Nat.add_0_r.
  - destruct fuel as [|fuel]; [lia|].
    cbn [value_loop]. cbv zeta.
    replace (Z.of_nat (S n) + 1 - 1) with (Z.of_nat n + 1) by lia.
    unfold to_uint8 at 1 2. rewrite Z.mod_small by (change (2 ^ 8) with 256; lia).
    destruct (Z.eqb_spec (Z.of_nat n + 1) 0) as [E|_]; [lia|].
    rewrite IH by lia.
    unfold bytes_at. cbn [seq map fold_left]. unfold shift_or at 2.
    f_equal. lia.
Qed.

Lemma value_loop_step T fuel buf nlen uvalue cp :
  to_uint8 (nlen - 1) <> 0 ->
  value_loop T (S fuel) buf nlen uvalue cp
  = value_loop T fuel buf (to_uint8 (nlen - 1)) (shift_or uvalue (peek T buf cp)) (S cp).
Proof.
  intros Hne. cbn [value_loop]. cbv zeta.
  destruct (Z.eqb_spec (to_uint8 (nlen - 1)) 0) as [E|_]; [contradiction | reflexivity].
Qed.

Lemma bytes_at_cons T buf cp n :
  bytes_at T buf cp (S n) = peek T buf cp :: bytes_at T buf (S cp) n.
Proof. reflexivity. Qed.

Lemma fold_left_shift_or_cons b bytes uvalue :
  fold_left shift_or (b :: bytes) uvalue = fold_left shift_or bytes (shift_or uvalue b).
Proof. reflexivity. Qed.

Lemma to_uint8_minus_1 : to_uint8 (0 - 1) = Z.of_nat 254 + 1.
Proof. vm_compute. reflexivity. Qed.

Lemma value_loop_wraps T fuel buf uvalue cp :
  (254 < fuel)%nat ->
  value_loop T (S fuel) buf 0 uvalue cp
  = (fold_left shift_or (bytes_at T buf cp (S 254)) uvalue, (cp + S 254)%nat).
Proof.
  intros Hfuel. rewrite value_loop_step by (rewrite to_uint8_minus_1; lia).
  rewrite to_uint8_minus_1.
  rewrite (value_loop_runs T buf 254 fuel _ _ Hfuel (Nat.le_refl 254)).
  rewrite (bytes_at_cons T buf cp 254), fold_left_shift_or_cons. f_equal. lia.
Qed.

(** The loop ends by its own condition within 256 turns: more fuel changes
    nothing. *)
Lemma value_loop_enough_fuel T buf fuel nlen uvalue cp :
  0 <= nlen < 256 -> (256 <= fuel)%nat ->
  value_loop T fuel buf nlen uvalue cp = value_loop T 256 buf nlen uvalue cp.
Proof.
  intros Hn Hfuel.
  destruct (Z.eq_dec nlen 0) as [->|Hnz].
  - destruct fuel as [|fuel]; [lia|].
    rewrite value_loop_wraps by lia.
    symmetry. apply (value_loop_wraps T 255). lia.
  - replace nlen with (Z.of_nat (Z.to_nat (nlen - 1)) + 1) by lia.
    rewrite !value_loop_runs by lia. reflexivity.
Qed.

Lemma to_int64_mod z : to_int64 (z mod 2 ^ 64) = to_int64 z.
Proof.
  unfold to_int64. f_equal.
  rewrite Z.add_mod_idemp_l by lia. reflexivity.
Qed.

Lemma to_int64_idem z : to_int64 (to_uint64 (to_int64 z)) = to_int64 z.
Proof.
  unfold to_uint64. rewrite to_int64_mod. unfold to_int64.
  f_equal.
  replace ((z + 2 ^ 63) mod 2 ^ 64 - 2 ^ 63 + 2 ^ 63) with ((z + 2 ^ 63) mod 2 ^ 64) by lia.
  apply Z.mod_mod. lia.
Qed.

Lemma lor_low_byte a b :
  is_byte b -> Z.lor (256 * a) b = 256 * a + b.
Proof.
  intros Hb. pose proof (lor_shiftl8_byte a b Hb) as H.
  rewrite Z.shiftl_mul_pow2 in H by lia. change (2 ^ 8) with 256 in H.
  unfold little_endian16 in H. rewrite Z.mul_comm. lia.
Qed.

Lemma shift_or_arith uvalue b :
  is_byte b -> shift_or uvalue b = (256 * (uvalue mod 2 ^ 56)) + b.
Proof.
  intros Hb. unfold shift_or, to_uint64.
  rewrite Z.shiftl_mul_pow2 by lia. change (2 ^ 8) with 256.
  replace (uvalue * 256) with (256 * uvalue) by lia.
  change (2 ^ 64) with (256 * 2 ^ 56).
  rewrite Z.mul_mod_distr_l by lia.
  now apply lor_low_byte.
Qed.

Lemma shift_or_mod uvalue b :
  is_byte b -> shift_or uvalue b = (256 * uvalue + b) mod 2 ^ 64.
Proof.
  intros Hb. rewrite shift_or_arith by exact Hb.
  pose proof (Z.mod_pos_bound uvalue (2 ^ 56) ltac:(lia)) as Hr.
  symmetry.
  rewrite (Z.div_mod uvalue (2 ^ 56)) at 1 by lia.
  replace (256 * (2 ^ 56 * (uvalue / 2 ^ 56) + uvalue mod 2 ^ 56) + b)
    with ((256 * (uvalue mod 2 ^ 56) + b) + (uvalue / 2 ^ 56) * 2 ^ 64)
    by (change (2 ^ 64) with (256 * 2 ^ 56); lia).
  rewrite Z.mod_add by lia.
  apply Z.mod_small. destruct Hb. change (2 ^ 64) with (256 * 2 ^ 56). lia.
Qed.

Lemma fold_shift_or bytes : forall uvalue acc,
  Forall is_byte bytes -> uvalue = acc mod 2 ^ 64 ->
  fold_left shift_or bytes uvalue
  = fold_left (fun a b => 256 * a + b) bytes acc mod 2 ^ 64.
Proof.
  induction bytes as [|b bytes IH]; intros uvalue acc Hb Hu; [exact Hu|].
  inversion Hb as [|? ? Hb1 Hb2]; subst.
  cbn [fold_left]. apply IH; [exact Hb2|].
  rewrite shift_or_mod by exact Hb1.
  rewrite <- Z.add_mod_idemp_l, <- Z.mul_mod_idemp_r by lia.
  rewrite Z.mod_mod by lia.
  rewrite Z.mul_mod_idemp_r, Z.add_mod_idemp_l by lia. reflexivity.
Qed.

Lemma low_nibble_range z : 0 <= Z.land z 0x0f <= 15.
Proof.
  change (Z.land z 0x0f) with (Z.land z (Z.ones 4)). rewrite Z.land_ones by lia.
  pose proof (Z.mod_pos_bound z (2 ^ 4) ltac:(lia)). change (2 ^ 4) with 16 in *. lia.
Qed.

(** C6, as the code has it: for a value field whose header has a low nibble
    [len >= 1], the loop reads exactly the [len - 1] bytes after the header
    and accumulates them, most significant first, modulo 2^64; the stored
    [int64_t] is the two's-complement reading of that accumulator whatever
    the type bits [header & 0x70] are, so an accumulator below 2^63 is
    stored as it is. *)
Theorem value_field_decoding T buf cp :
  let header := peek T buf cp in
  let len := Z.land header 0x0f in
  let payload := bytes_at T buf (S cp) (Z.to_nat (len - 1)) in
  1 <= len -> Forall is_byte payload ->
  value_loop T 256 buf len 0 (S cp)
  = (big_endian payload mod 2 ^ 64, (S cp + Z.to_nat (len - 1))%nat)
  /\ parse_value T buf cp = to_int64 (big_endian payload)
  /\ (big_endian payload mod 2 ^ 64 < 2 ^ 63 ->
      parse_value T buf cp = big_endian payload mod 2 ^ 64).
Proof.
  intros header len payload Hlen Hbytes.
  pose proof (low_nibble_range header) as Hrange. fold len in Hrange.
  assert (value_loop T 256 buf len 0 (S cp)
          = (big_endian payload mod 2 ^ 64, (S cp + Z.to_nat (len - 1))%nat)) as Hloop.
  { replace len with (Z.of_nat (Z.to_nat (len - 1)) + 1) at 1 by lia.
    rewrite value_loop_runs by lia. f_equal.
    now apply fold_shift_or. }
  assert (parse_value T buf cp = to_int64 (big_endian payload)) as Hvalue.
  { unfold parse_value. fold header. fold len. rewrite Hloop.
    destruct (Z.land header 112 =? 80).
    - now rewrite to_int64_idem, to_int64_mod.
    - now rewrite to_int64_mod. }
  split; [exact Hloop|]. split; [exact Hvalue|].
  intros Hsmall. rewrite Hvalue, <- to_int64_mod.
  pose proof (Z.mod_pos_bound (big_endian payload) (2 ^ 64) ltac:(lia)) as Hpos.
  unfold to_int64. rewrite Z.mod_small by lia. lia.
Qed.

(** An unsigned value field (type bits 0x60) of eight bytes 0xFF is stored as
    -1; a header whose low nibble is 0 makes the loop read 255 bytes. *)
Lemma value_field_signed_whatever_the_type :
  let field := [0x69; 0xFF; 0xFF; 0xFF; 0xFF; 0xFF; 0xFF; 0xFF; 0xFF] in
  Z.land 0x69 0x70 <> 0x50
  /\ big_endian (tl field) = 2 ^ 64 - 1
  /\ parse_value reference_target field 0 = -1
  /\ snd (value_loop reference_target 256 (0x50 :: replicate 300 1) (Z.land 0x50 0x0f) 0 1)
     = 256%nat.
Proof. vm_compute. repeat split. discriminate. Qed.

Lemma value_field_decoding_witness :
  let buf := [0x54; 0x00; 0x03; 0x94] in
  value_loop reference_target 256 buf 4 0 1 = (916, 4%nat)
  /\ parse_value reference_target buf 0 = 916.
Proof.
  cbv zeta.
  destruct (value_field_decoding reference_target [0x54; 0x00; 0x03; 0x94] 0)
    as (H1 & H2 & _).
  - vm_compute. discriminate.
  - vm_compute. repeat constructor; discriminate.
  - split; [exact H1 | exact H2].
Defined.

(** ** What [process_message] publishes *)

(** The content of [values[i]] after the parsing loop. *)
Definition extracted (T : target) (m : machine) (i : nat) : metric_value :=
  match found T m i with
  | Some found_at => parse_metric T (buffer m) found_at (length (pattern (METRICS !!! i)))
  | None => indeterminate T i
  end.

(** On the reference target the search of every metric is for the first
    byte of its pattern followed by seven bytes 0. *)
Lemma found_reference m i :
  (i < METRIC_LENGTH)%nat ->
  found reference_target m i
  = memmem (take (position m) (buffer m)) [0x77; 0; 0; 0; 0; 0; 0; 0].
Proof.
  intros Hi. change METRIC_LENGTH with 3%nat in Hi.
  destruct i as [|[|[|i]]]; [reflexivity..|lia].
Qed.

Lemma found_frame T m m' i :
  buffer m' = buffer m -> position m' = position m -> found T m' i = found T m i.
Proof. unfold found. now intros -> ->. Qed.

Lemma parse_step_values T values m i :
  fst (parse_step T (values, m) i)
  = match found T m i with
    | Some found_at =>
        <[i := parse_metric T (buffer m) found_at (length (pattern (METRICS !!! i)))]> values
    | None => values
    end.
Proof. unfold parse_step. now destruct (found T m i). Qed.

Lemma parse_values T m :
  fst (parse T m) = [extracted T m 0; extracted T m 1; extracted T m 2].
Proof.
  unfold parse. change (seq 0 METRIC_LENGTH) with [0; 1; 2]%nat.
  cbn [fold_left map].
  set (v0 := [indeterminate T 0; indeterminate T 1; indeterminate T 2]).
  destruct (parse_step T (v0, m) 0) as [v1 m1] eqn:E1.
  destruct (parse_step T (v1, m1) 1) as [v2 m2] eqn:E2.
  pose proof (parse_step_frame T (v0, m) 0) as (Hb1 & Hp1 & _).
  pose proof (parse_step_frame T (v1, m1) 1) as (Hb2 & Hp2 & _).
  rewrite E1 in Hb1, Hp1. rewrite E2 in Hb2, Hp2. cbn [snd] in *.
  assert (buffer m2 = buffer m) as Hb by congruence.
  assert (position m2 = position m) as Hp by congruence.
  rewrite parse_step_values.
  rewrite (found_frame T m m2 2 Hb Hp), Hb.
  assert (v2 = fst (parse_step T (v1, m1) 1)) as -> by now rewrite E2.
  rewrite parse_step_values. rewrite (found_frame T m m1 1 Hb1 Hp1), Hb1.
  assert (v1 = fst (parse_step T (v0, m) 0)) as -> by now rewrite E1.
  rewrite parse_step_values.
  unfold extracted, v0.
  destruct (found T m 0), (found T m 1), (found T m 2); reflexivity.
Qed.

Lemma publish_memory T values m :
  memory (publish T values m)
  = Bae910 (scaled T (values !!! 0%nat)) (scaled T (values !!! 1%nat))
           (scaled T (values !!! 2%nat)) (userp (memory m)).
Proof. reflexivity. Qed.

Lemma process_message_memory T now m :
  calculated_checksum m = given_checksum T m ->
  memory (process_message T now m)
  = Bae910 (scaled T (extracted T m 0)) (scaled T (extracted T m 1))
           (scaled T (extracted T m 2)) (userp (memory m)).
Proof.
  intros Hok. unfold process_message. rewrite Hok, Z.eqb_refl. cbn [negb].
  pose proof (parse_values T m) as Hv. pose proof (parse_frame T m) as (_ & _ & _ & Hm & _).
  destruct (parse T m) as [values mp]. cbn [fst snd] in *.
  rewrite reset_memory, publish_memory, Hv, Hm. reflexivity.
Qed.

(** ** The worked example *)

(** The double nearest to 1/10 and its two neighbours. *)
Definition one_tenth : double := S754_finite false 0x1999999999999A (-56).
Definition near_one_tenth (d : double) : Prop :=
  d = S754_finite false 0x19999999999999 (-56) \/ d = one_tenth
  \/ d = S754_finite false 0x1999999999999B (-56).

Definition example_fields : list Z :=
  [0x01; 0x01; 0x62; 0x1E; 0x52; 0xFF; 0x54; 0x00; 0x03; 0x94].

Definition example_datagram : list Z :=
  datagram (pattern (METRICS !!! 0%nat) ++ example_fields) 0.

(** The same fields behind the eight bytes that the search of the reference
    target is for. *)
Definition matched_datagram : list Z :=
  datagram (front_memory reference_target 0 8 ++ example_fields) 0.

(** The fields as the example of the specification writes them. *)
Definition specified_fields : list Z :=
  [0x01; 0x00; 0x01; 0x00; 0x01; 0x1E; 0x01; 0xFF; 0x59; 0x00; 0x03; 0x94].

(** The machine after [setup()] and the given turns of [loop()], all at
    time 0, with an empty register file at the start. *)
Definition after_turns (T : target) (arrivals : list (list Z)) : machine :=
  fst (run T (map (fun a => (0, a)) arrivals) (setup 0 (Bae910 0 0 0 0), [])).

Lemma scaled_example T u :
  near_one_tenth (libm_pow T (double_of_Z 10) (double_of_Z (-1))) ->
  scaled T (MetricValue 916 u (-1)) = 91600.
Proof.
  intros Hpow. unfold scaled. cbn [value scaler].
  destruct Hpow as [-> | [-> | ->]]; vm_compute; reflexivity.
Qed.

(** C5, with well-formed field headers: when [memmem_P] reports a match for
    the first metric at offset [k] and the bytes behind the eight matched
    ones are 01 01 62 1E 52 FF 54 00 03 94 (empty status, empty time stamp,
    unit field of length 2, scaler field of length 2, value field of length
    4), the walk decodes unit 0x1E, scaler -1 and value 916, and, [pow(10,
    -1)] being within one unit in the last place of 1/10, processing the
    datagram writes 91600 to the first register. *)
Theorem example_fields_decode_and_publish T now m k :
  calculated_checksum m = given_checksum T m ->
  found T m 0 = Some k ->
  bytes_at T (buffer m) (k + 8) 10 = example_fields ->
  near_one_tenth (libm_pow T (double_of_Z 10) (double_of_Z (-1))) ->
  extracted T m 0 = MetricValue 916 0x1E (-1)
  /\ userm (memory (process_message T now m)) = 91600.
Proof.
  intros Hok Hfound Hbytes Hpow.
  assert (extracted T m 0 = MetricValue 916 0x1E (-1)) as Hex.
  { unfold extracted. rewrite Hfound.
    unfold bytes_at, example_fields in Hbytes. cbn [seq map] in Hbytes.
    injection Hbytes as H0 H1 H2 H3 H4 H5 H6 H7 H8 H9.
    change (length (pattern (METRICS !!! 0%nat))) with 8%nat.
    unfold parse_metric, parse_header. cbv zeta.
    rewrite ?Nat.add_succ_r, ?Nat.add_0_r in *.
    rewrite H0. change (Z.to_nat (Z.land 1 15)) with 1%nat.
    rewrite ?Nat.add_succ_r, ?Nat.add_0_r.
    rewrite H1. change (Z.to_nat (Z.land 1 15)) with 1%nat.
    rewrite ?Nat.add_succ_r, ?Nat.add_0_r.
    rewrite H2, H3. change (Z.to_nat (Z.land 98 15)) with 2%nat.
    rewrite ?Nat.add_succ_r, ?Nat.add_0_r.
    rewrite H4, H5. change (Z.to_nat (Z.land 82 15)) with 2%nat.
    rewrite ?Nat.add_succ_r, ?Nat.add_0_r.
    unfold parse_value. rewrite H6.
    change (Z.land 84 15) with 4. change (Z.land 84 112) with 80.
    cbn [value_loop]. cbv zeta.
    change (to_uint8 (4 - 1)) with 3. change (to_uint8 (3 - 1)) with 2.
    change (to_uint8 (2 - 1)) with 1. change (to_uint8 (1 - 1)) with 0.
    cbn [Z.eqb]. rewrite H7, H8, H9. reflexivity. }
  split; [exact Hex|].
  rewrite process_message_memory by exact Hok. cbn [userm].
  rewrite Hex. now apply scaled_example.
Qed.

(** The bytes 01 00 01 00 01 1E 01 FF 59 00 03 94 of the specification.
    Behind the pattern of the first metric: the walk from there stops
    advancing at the second byte, whose low nibble is 0, so that unit and
    scaler are both read as 1 and the value loop takes 255 bytes, the result
    being value 0, unit 1, scaler 1; and on the reference target the search
    does not even match the pattern, whose elements are list nodes, and the
    first register receives the scaled indeterminate value.  Behind the eight
    bytes that the search of the reference target is for: the match is at
    offset 8, the walk decodes value 0, unit 1, scaler 1, and the first
    register receives 0. *)
Lemma specified_fields_decode_differently :
  let m := after_turns reference_target
             [datagram (pattern (METRICS !!! 0%nat) ++ specified_fields) 0; []; []] in
  let m' := after_turns reference_target
              [datagram (front_memory reference_target 0 8 ++ specified_fields) 0; []; []] in
  (state m = Some Done
   /\ bytes_at reference_target (buffer m) 8 20
      = pattern (METRICS !!! 0%nat) ++ specified_fields
   /\ parse_metric reference_target (buffer m) 8 8 = MetricValue 0 1 1
   /\ found reference_target m 0 = None
   /\ userm (memory (process_message reference_target 0 m)) = 7000)
  /\ (state m' = Some Done
      /\ found reference_target m' 0 = Some 8%nat
      /\ bytes_at reference_target (buffer m') 16 12 = specified_fields
      /\ extracted reference_target m' 0 = MetricValue 0 1 1
      /\ userm (memory (process_message reference_target 0 m')) = 0).
Proof. vm_compute. repeat split. Qed.

Lemma example_fields_decode_and_publish_witness :
  let m := after_turns reference_target [matched_datagram; []; []] in
  extracted reference_target m 0 = MetricValue 916 0x1E (-1)
  /\ userm (memory (process_message reference_target 0 m)) = 91600.
Proof.
  apply (example_fields_decode_and_publish reference_target 0
           (after_turns reference_target [matched_datagram; []; []]) 8).
  - vm_compute. reflexivity.
  - vm_compute. reflexivity.
  - vm_compute. reflexivity.
  - right. left. vm_compute. reflexivity.
Defined.

(** ** Scaling *)

(** The double that is converted to [uint32_t]. *)
Definition scaled_product (T : target) (mv : metric_value) : double :=
  dmul (dmul (double_of_Z (value mv))
             (libm_pow T (double_of_Z 10) (double_of_Z (scaler mv))))
       (double_of_Z 1000).

(** The published number in the words of the specification:
    [value * 10^scaler * 1000], rounded to the nearest integer, then cut to
    32 bits. *)
Definition round_div (num den : Z) : Z := (2 * num + den) / (2 * den).
Definition published_per_spec (v s : Z) : Z :=
  to_int32 (if 0 <=? s then v * 10 ^ s * 1000 else round_div (v * 1000) (10 ^ (- s))).

(** C7, as the code has it: the three registers are written by position
    (metric 0 to [userm], 1 to [usern], 2 to [usero]; [userp] is left alone),
    and the number written is the double-precision product
    [(value * pow(10, scaler)) * 1000] converted to [uint32_t], that is,
    for a product in the range [0, 2^32), its integer part (no rounding),
    read back as [int32_t]: 0 for a product that is zero, and for a product
    [man * 2^e] above zero the integer [n] with [n <= man * 2^e < n + 1]. *)
Theorem published_is_truncated_product T now m :
  calculated_checksum m = given_checksum T m ->
  memory (process_message T now m)
  = Bae910 (scaled T (extracted T m 0)) (scaled T (extracted T m 1))
           (scaled T (extracted T m 2)) (userp (memory m))
  /\ (forall mv sign, scaled_product T mv = S754_zero sign -> scaled T mv = 0)
  /\ forall mv man e,
       scaled_product T mv = S754_finite false man e ->
       let n := if 0 <=? e then Z.pos man * 2 ^ e else Z.pos man / 2 ^ (- e) in
       n < 2 ^ 32 ->
       scaled T mv = to_int32 n
       /\ (e < 0 -> n * 2 ^ (- e) <= Z.pos man < (n + 1) * 2 ^ (- e)).
Proof.
  intros Hok. split; [now apply process_message_memory|].
  split.
  { intros mv sign Hprod. unfold scaled. fold (scaled_product T mv).
    rewrite Hprod. reflexivity. }
  intros mv man e Hprod n Hn.
  assert (n = if 0 <=? e then Z.shiftl (Z.pos man) e else Z.shiftr (Z.pos man) (- e)) as Hshift.
  { unfold n. destruct (Z.leb_spec 0 e).
    - now rewrite Z.shiftl_mul_pow2.
    - rewrite Z.shiftr_div_pow2 by lia. reflexivity. }
  split.
  - unfold scaled. fold (scaled_product T mv). rewrite Hprod.
    unfold trunc_to_uint32. cbv zeta. rewrite <- Hshift.
    destruct (Z.ltb_spec n (2 ^ 32)); [reflexivity | lia].
  - intros He. unfold n. destruct (Z.leb_spec 0 e); [lia|].
    assert (0 < 2 ^ (- e)) as Hpow by (apply Z.pow_pos_nonneg; lia).
    pose proof (Z.div_mod (Z.pos man) (2 ^ (- e)) ltac:(lia)) as Hdm.
    pose proof (Z.mod_pos_bound (Z.pos man) (2 ^ (- e)) Hpow) as Hmb.
    nia.
Qed.

(** Value 6 with scaler -4 stands for 0.6 milli-units: the code writes 0,
    rounding would give 1.  Value 803 with scaler -2 stands for 8030
    milli-units: the double product is just below 8030 and the code writes
    8029. *)
Lemma published_is_not_rounded :
  (scaled reference_target (MetricValue 6 0x1E (-4)) = 0
   /\ published_per_spec 6 (-4) = 1)
  /\ (scaled reference_target (MetricValue 803 0x1E (-2)) = 8029
      /\ published_per_spec 803 (-2) = 8030).
Proof. vm_compute. repeat split. Qed.

Lemma published_is_truncated_product_witness :
  let m := after_turns reference_target [matched_datagram; []; []] in
  memory (process_message reference_target 0 m) = Bae910 91600 91600 91600 0
  /\ scaled reference_target (MetricValue 916 0x1E (-1)) = to_int32 91600
  /\ scaled reference_target (MetricValue 0 0x1E (-1)) = 0.
Proof.
  cbv zeta.
  destruct (published_is_truncated_product reference_target 0
              (after_turns reference_target [matched_datagram; []; []]))
    as (Hmem & Hzero & Htrunc).
  - vm_compute. reflexivity.
  - split; [|split].
    + rewrite Hmem. vm_compute. reflexivity.
    + destruct (Htrunc (MetricValue 916 0x1E (-1)) 6294704069017601%positive (-36))
        as (Hs & _).
      * vm_compute. reflexivity.
      * vm_compute. reflexivity.
      * rewrite Hs. vm_compute. reflexivity.
    + apply (Hzero (MetricValue 0 0x1E (-1)) false). vm_compute. reflexivity.
Defined.

(** ** Metrics whose pattern is absent *)

Lemma absent_metric_is_published T now m :
  calculated_checksum m = given_checksum T m ->
  (found T m 0 = None ->
   userm (memory (process_message T now m)) = scaled T (indeterminate T 0))
  /\ (found T m 1 = None ->
      usern (memory (process_message T now m)) = scaled T (indeterminate T 1))
  /\ (found T m 2 = None ->
      usero (memory (process_message T now m)) = scaled T (indeterminate T 2)).
Proof.
  intros Hok. rewrite process_message_memory by exact Hok. cbn [userm usern usero].
  unfold extracted.
  repeat split; intros ->; reflexivity.
Qed.

(** C1 on a datagram without payload: no pattern occurs in it, and yet all
    three registers are overwritten, from the indeterminate content of
    [values], and three "Published metric" lines are printed. *)
Theorem absent_metrics_are_published_example :
  let m := after_turns reference_target [datagram [] 0; []; []] in
  let m' := process_message reference_target 0 m in
  state m = Some Done
  /\ calculated_checksum m = given_checksum reference_target m
  /\ map (found reference_target m) [0; 1; 2]%nat = [None; None; None]
  /\ memory m = Bae910 0 0 0 0
  /\ memory m' = Bae910 7000 7000 7000 0
  /\ serial m' = serial m ++ [PublishedMetric "power_in" 7 0 0;
                              PublishedMetric "power_out" 7 0 0;
                              PublishedMetric "power_current" 7 0 0;
                              StateIs WaitStart].
Proof. vm_compute. repeat split. Qed.

(** ** The walk over the fields is not bounds-checked *)

Lemma value_loop_256 T buf nlen uvalue cp :
  0 <= nlen < 256 ->
  value_loop T 256 buf nlen uvalue cp
  = (fold_left shift_or (bytes_at T buf cp (Z.to_nat ((nlen - 1) mod 256))) uvalue,
     (cp + Z.to_nat ((nlen - 1) mod 256))%nat).
Proof.
  intros Hn. destruct (Z.eq_dec nlen 0) as [->|Hnz].
  - replace (Z.to_nat ((0 - 1) mod 256)) with (S 254) by (vm_compute; reflexivity).
    apply (value_loop_wraps T 255). lia.
  - rewrite Z.mod_small by lia.
    replace nlen with (Z.of_nat (Z.to_nat (nlen - 1)) + 1) at 1 by lia.
    now rewrite value_loop_runs by lia.
Qed.

Lemma bytes_at_agree T T' buf buf' n : forall cp,
  (forall off, (cp <= off < cp + n)%nat -> peek T buf off = peek T' buf' off) ->
  bytes_at T buf cp n = bytes_at T' buf' cp n.
Proof.
  induction n as [|n IH]; intros cp H; [reflexivity|].
  rewrite !bytes_at_cons. f_equal; [apply H; lia|].
  apply IH. intros off Hoff. apply H. lia.
Qed.

Lemma low_nibble_nat z : (Z.to_nat (Z.land z 0x0f) <= 15)%nat.
Proof. pose proof (low_nibble_range z). lia. Qed.

Lemma parse_header_agree T T' buf buf' cp :
  (forall off, (cp <= off < cp + 47)%nat -> peek T buf off = peek T' buf' off) ->
  parse_header T buf cp = parse_header T' buf' cp
  /\ (cp <= snd (parse_header T buf cp) <= cp + 60)%nat.
Proof.
  intros H. unfold parse_header. cbv zeta.
  rewrite <- (H cp) by lia.
  set (a := Z.to_nat (Z.land (peek T buf cp) 15)).
  assert (a <= 15)%nat by apply low_nibble_nat.
  rewrite <- (H (cp + a)%nat) by lia.
  set (b := Z.to_nat (Z.land (peek T buf (cp + a)) 15)).
  assert (b <= 15)%nat by apply low_nibble_nat.
  rewrite <- (H (cp + a + b)%nat) by lia.
  rewrite <- (H (cp + a + b + 1)%nat) by lia.
  set (c := Z.to_nat (Z.land (peek T buf (cp + a + b)) 15)).
  assert (c <= 15)%nat by apply low_nibble_nat.
  rewrite <- (H (cp + a + b + c)%nat) by lia.
  rewrite <- (H (cp + a + b + c + 1)%nat) by lia.
  set (d := Z.to_nat (Z.land (peek T buf (cp + a + b + c)) 15)).
  assert (d <= 15)%nat by apply low_nibble_nat.
  split; [reflexivity | cbn [snd]; lia].
Qed.

Lemma parse_value_agree T T' buf buf' cp :
  (forall off, (cp <= off < cp + 256)%nat -> peek T buf off = peek T' buf' off) ->
  parse_value T buf cp = parse_value T' buf' cp.
Proof.
  intros H. unfold parse_value. rewrite <- (H cp) by lia.
  pose proof (low_nibble_range (peek T buf cp)) as Hr.
  rewrite !value_loop_256 by lia.
  set (n := Z.to_nat ((Z.land (peek T buf cp) 15 - 1) mod 256)).
  assert (n <= 255)%nat.
  { unfold n. pose proof (Z.mod_pos_bound (Z.land (peek T buf cp) 15 - 1) 256 ltac:(lia)). lia. }
  rewrite (bytes_at_agree T T' buf buf' n (S cp)); [reflexivity|].
  intros off Hoff. apply H. lia.
Qed.

(** The register that the publishing loop writes for metric [i]: the
    cases of its [switch]. *)
Definition register (i : nat) (f : bae910_memory) : Z :=
  match i with
  | 0%nat => userm f
  | 1%nat => usern f
  | 2%nat => usero f
  | _ => userp f
  end.

(** C9, as the code has it: the cursor is advanced and dereferenced without
    any comparison with the end of the datagram.  A match of the search at
    offset [k] always yields a decoded triple, and that triple is a function
    of the 316 bytes at the offsets [k + 8, k + 324), wherever the datagram
    ends.  When the checksum is right the triple is published, scaled, in
    the register of its metric, and every other metric is published in its
    own register as well. *)
Theorem walk_reads_a_fixed_window_unchecked T now m i k :
  (i < METRIC_LENGTH)%nat ->
  found T m i = Some k ->
  fst (parse T m) !! i = Some (parse_metric T (buffer m) k 8)
  /\ (forall T' buf',
        (forall j, (j < 316)%nat ->
                   peek T (buffer m) (k + 8 + j) = peek T' buf' (k + 8 + j)) ->
        parse_metric T (buffer m) k 8 = parse_metric T' buf' k 8)
  /\ (calculated_checksum m = given_checksum T m ->
      register i (memory (process_message T now m))
      = scaled T (parse_metric T (buffer m) k 8)
      /\ forall j, (j < METRIC_LENGTH)%nat ->
           register j (memory (process_message T now m)) = scaled T (extracted T m j)).
Proof.
  intros Hi Hfound.
  assert (extracted T m i = parse_metric T (buffer m) k 8) as Hex.
  { unfold extracted. rewrite Hfound.
    change METRIC_LENGTH with 3%nat in Hi.
    destruct i as [|[|[|i]]]; [reflexivity..|lia]. }
  split; [|split].
  - rewrite parse_values. rewrite <- Hex.
    change METRIC_LENGTH with 3%nat in Hi.
    destruct i as [|[|[|i]]]; [reflexivity..|lia].
  - intros T' buf' H. unfold parse_metric.
    assert (forall off, (k + 8 <= off < k + 8 + 316)%nat ->
                        peek T (buffer m) off = peek T' buf' off) as Hw.
    { intros off Hoff. replace off with (k + 8 + (off - (k + 8)))%nat by lia.
      apply H. lia. }
    destruct (parse_header_agree T T' (buffer m) buf' (k + 8)) as (Hh & Hcp).
    { intros off Hoff. apply Hw. lia. }
    rewrite <- Hh.
    destruct (parse_header T (buffer m) (k + 8)) as [[u s] cp]. cbn [snd] in Hcp.
    f_equal. apply parse_value_agree. intros off Hoff. apply Hw. lia.
  - intros Hok.
    assert (forall j, (j < METRIC_LENGTH)%nat ->
              register j (memory (process_message T now m)) = scaled T (extracted T m j))
      as Hall.
    { intros j Hj. rewrite process_message_memory by exact Hok.
      change METRIC_LENGTH with 3%nat in Hj.
      destruct j as [|[|[|j]]]; [reflexivity..|lia]. }
    split; [|exact Hall]. rewrite <- Hex. now apply Hall.
Qed.

(** A datagram that ends right after the eight bytes that the search of the
    reference target is for is 24 bytes long; the match is at offset 8, the
    walk starts on the end sequence and moves to offset 27, behind the
    datagram.  What is decoded depends on the bytes that an earlier, longer
    datagram left in the buffer, and it is published in either case. *)
Lemma walk_reads_past_the_datagram_end :
  let short := datagram (front_memory reference_target 0 8) 0 in
  let long := datagram (replicate 19 0 ++ [0x01; 0x62; 0x1E; 0x52; 0xFF; 0x54; 0x00; 0x03; 0x94]) 0 in
  let m1 := after_turns reference_target [short; []; []] in
  let m2 := after_turns reference_target [long; []; []; []; short; []; []] in
  (state m1 = Some Done /\ position m1 = 24%nat /\ take 24 (buffer m1) = short)
  /\ (state m2 = Some Done /\ position m2 = 24%nat /\ take 24 (buffer m2) = short)
  /\ found reference_target m1 0 = Some 8%nat
  /\ found reference_target m2 0 = Some 8%nat
  /\ extracted reference_target m1 0 = MetricValue 0 0 0
  /\ extracted reference_target m2 0 = MetricValue 916 0x1E (-1)
  /\ userm (memory (process_message reference_target 0 m1)) = 0
  /\ userm (memory (process_message reference_target 0 m2)) = 91600.
Proof. vm_compute. repeat split. Qed.

Lemma walk_reads_a_fixed_window_unchecked_witness :
  let m := after_turns reference_target [matched_datagram; []; []] in
  fst (parse reference_target m) !! 0%nat
  = Some (parse_metric reference_target (buffer m) 8 8)
  /\ usern (memory (process_message reference_target 0 m))
     = scaled reference_target (extracted reference_target m 1).
Proof.
  cbv zeta.
  destruct (walk_reads_a_fixed_window_unchecked reference_target 0
              (after_turns reference_target [matched_datagram; []; []]) 0 8)
    as (H & _ & Hpub).
  - vm_compute. lia.
  - vm_compute. reflexivity.
  - split; [exact H|].
    destruct Hpub as (_ & Hall); [vm_compute; reflexivity|].
    apply (Hall 1%nat). vm_compute. lia.
Defined.

(** A datagram whose value byte was changed after the checksum was
    computed. *)
Definition corrupted_datagram : list Z := <[25%nat := 0x95]> example_datagram.

Lemma checksum_decides_processing_witness :
  let good := after_turns reference_target [example_datagram; []; []] in
  let bad := after_turns reference_target [corrupted_datagram; []; []] in
  (state good = Some Done /\ state bad = Some Done)
  /\ (memory (process_message reference_target 9 bad) = memory bad
      /\ position (process_message reference_target 9 bad) = 0%nat)
  /\ buffer (process_message reference_target 9 good) = buffer good.
Proof.
  cbv zeta. split; [vm_compute; split; reflexivity|].
  split.
  - destruct (checksum_decides_processing reference_target 9
                (after_turns reference_target [corrupted_datagram; []; []]))
      as (Hbad & _).
    + vm_compute. split; [discriminate | reflexivity].
    + destruct Hbad as (_ & Hp & Hm & _).
      * vm_compute. discriminate.
      * split; [exact Hm | exact Hp].
  - destruct (checksum_decides_processing reference_target 9
                (after_turns reference_target [example_datagram; []; []]))
      as (_ & Hgood).
    + vm_compute. split; [discriminate | reflexivity].
    + destruct Hgood as (_ & _ & _ & Hb & _).
      * vm_compute. reflexivity.
      * exact Hb.
Defined.

(** ** Framing: the scan for the start sequence *)

(** The match cursor after the given bytes, started at [cur]; [None] once
    the start sequence has been completed. *)
Fixpoint start_cursor (cur : nat) (bytes : list Z) : option nat :=
  match bytes with
  | [] => Some cur
  | b :: bytes' =>
      let cur' := if b =? START_SEQUENCE !!! cur then S cur else 0%nat in
      if (cur' =? START_SEQUENCE_LENGTH)%nat then None else start_cursor cur' bytes'
  end.

Lemma start_cursor_app a : forall cur b,
  start_cursor cur (a ++ b)
  = match start_cursor cur a with
    | Some c => start_cursor c b
    | None => None
    end.
Proof.
  induction a as [|x a IH]; intros cur b; [reflexivity|].
  cbn [app start_cursor]. cbv zeta.
  destruct (_ =? START_SEQUENCE_LENGTH)%nat; [reflexivity | apply IH].
Qed.

Lemma start_cursor_prefix a b cur c :
  start_cursor cur (a ++ b) = Some c -> exists c', start_cursor cur a = Some c'.
Proof.
  rewrite start_cursor_app. destruct (start_cursor cur a) as [c'|]; [eauto | discriminate].
Qed.

Lemma wait_for_start_sequence_noise T now a : forall m cur',
  matching m -> start_cursor (position m) a = Some cur' ->
  exists m1,
    (forall b, wait_for_start_sequence T now (a ++ b) m = wait_for_start_sequence T now b m1)
    /\ matching m1 /\ position m1 = cur'
    /\ drop 8 (buffer m1) = drop 8 (buffer m)
    /\ memory m1 = memory m /\ serial m1 = serial m
    /\ last_state_reset m1 = last_state_reset m.
Proof.
  induction a as [|x a IH]; intros m cur' Hm Hcur.
  - exists m. cbn in Hcur. injection Hcur as <-. repeat split; auto; apply Hm.
  - pose proof Hm as (Hs & Hp & Hl & Ht).
    change START_SEQUENCE_LENGTH with 8%nat in Hp.
    assert (position m < length (buffer m))%nat as Hlt
      by (rewrite Hl; unfold BUFFER_SIZE; lia).
    cbn [start_cursor] in Hcur. cbv zeta in Hcur.
    destruct (x =? START_SEQUENCE !!! position m) eqn:Ex.
    + destruct (S (position m) =? START_SEQUENCE_LENGTH)%nat eqn:Efull; [discriminate|].
      apply Z.eqb_eq in Ex. pose proof (matching_advance m x Hm Ex) as Hadv.
      apply Nat.eqb_neq in Efull. change START_SEQUENCE_LENGTH with 8%nat in Efull.
      destruct (IH (set_position (S (position m))
                      (set_buffer (<[position m := x]> (buffer m)) m)) cur')
        as (m1 & Hrun & Hm1 & Hp1 & Hd1 & Hmem1 & Hser1 & Hlsr1).
      { repeat split; cbn; [exact Hs | change START_SEQUENCE_LENGTH with 8%nat; lia
                           | now rewrite length_insert | exact Hadv]. }
      { exact Hcur. }
      exists m1. repeat split; auto; try apply Hm1.
      * intros b. cbn [app]. rewrite wait_for_start_sequence_cons by exact Hlt.
        cbv zeta. rewrite <- Ex, Z.eqb_refl.
        destruct (Nat.eqb_spec (S (position m)) START_SEQUENCE_LENGTH) as [E|_];
          [change START_SEQUENCE_LENGTH with 8%nat in E; lia|].
        apply Hrun.
      * rewrite Hd1. cbn. apply drop_insert_lt. lia.
    + change (0 =? START_SEQUENCE_LENGTH)%nat with false in Hcur. cbv iota in Hcur.
      destruct (IH (set_position 0%nat
                      (set_buffer (<[position m := x]> (buffer m)) m)) cur')
        as (m1 & Hrun & Hm1 & Hp1 & Hd1 & Hmem1 & Hser1 & Hlsr1).
      { repeat split; cbn; [exact Hs | change START_SEQUENCE_LENGTH with 8%nat; lia
                           | now rewrite length_insert]. }
      { exact Hcur. }
      exists m1. repeat split; auto; try apply Hm1.
      * intros b. cbn [app]. rewrite wait_for_start_sequence_cons by exact Hlt.
        cbv zeta. rewrite Ex. apply Hrun.
      * rewrite Hd1. cbn. apply drop_insert_lt. lia.
Qed.

(** ** Framing: the checksum bytes and the end sequence *)

Lemma recombine16 c : Z.lor (Z.shiftl (Z.shiftr c 8) 8) (Z.land c 0xFF) = c.
Proof.
  apply Z.bits_inj'. intros n Hn.
  rewrite Z.lor_spec, Z.land_spec.
  change 0xFF with (Z.ones 8).
  destruct (Z.ltb_spec n 8) as [Hlt|Hge].
  - rewrite Z.shiftl_spec_low by lia. rewrite Z.ones_spec_low by lia.
    cbn. now rewrite andb_true_r.
  - rewrite Z.shiftl_spec by lia. rewrite Z.shiftr_spec by lia.
    rewrite Z.ones_spec_high by lia.
    replace (n - 8 + 8) with n by lia. now rewrite andb_false_r, orb_false_r.
Qed.

(** Whether the five bytes of [l] from offset [w] on are the end sequence. *)
Definition window_is_end (l : list Z) (w : nat) : bool :=
  (l !!! w =? 0x1B) && (l !!! (w + 1)%nat =? 0x1B) && (l !!! (w + 2)%nat =? 0x1B)
  && (l !!! (w + 3)%nat =? 0x1B) && (l !!! (w + 4)%nat =? 0x1A).

(** The payload does not contain the end sequence, nor does the end
    sequence begin in it. *)
Definition end_marker_only_at_end (payload : list Z) : bool :=
  forallb (fun w => negb (window_is_end (payload ++ END_SEQUENCE) w))
          (seq 0 (length payload)).

Lemma end_sequence_found_peek T buf pos :
  end_sequence_found T buf pos
  = (peek T buf (pos - 5) =? 0x1B) && (peek T buf (pos - 4) =? 0x1B)
    && (peek T buf (pos - 3) =? 0x1B) && (peek T buf (pos - 2) =? 0x1B)
    && (peek T buf (pos - 1) =? 0x1A).
Proof.
  unfold end_sequence_found.
  change END_SEQUENCE_LENGTH with 5%nat.
  cbn [end_sequence_loop Nat.sub Nat.leb Nat.eqb Nat.add].
  change END_SEQUENCE_LENGTH with 5%nat. cbn [Nat.sub Nat.leb Nat.eqb].
  change (END_SEQUENCE !!! 4%nat) with 0x1A.
  change (END_SEQUENCE !!! 3%nat) with 0x1B.
  change (END_SEQUENCE !!! 2%nat) with 0x1B.
  change (END_SEQUENCE !!! 1%nat) with 0x1B.
  change (END_SEQUENCE !!! 0%nat) with 0x1B.
  rewrite !(Z.eqb_sym 26), !(Z.eqb_sym 27).
  destruct (peek T buf (pos - 1) =? 26), (peek T buf (pos - 2) =? 27),
    (peek T buf (pos - 3) =? 27), (peek T buf (pos - 4) =? 27),
    (peek T buf (pos - 5) =? 27); reflexivity.
Qed.

Lemma lookup_of_take_eq (l l' : list Z) n j :
  take n l = take n l' -> (j < n)%nat -> l !! j = l' !! j.
Proof.
  intros H Hj. rewrite <- (lookup_take_lt l n j), <- (lookup_take_lt l' n j) by lia.
  now rewrite H.
Qed.

Lemma peek_of_take_eq T (l l' : list Z) n j :
  take n l = take n l' -> (j < n)%nat -> (j < length l')%nat ->
  peek T l j = l' !!! j.
Proof.
  intros H Hj Hlen. apply peek_lookup.
  rewrite (lookup_of_take_eq l l' n j H Hj).
  now apply list_lookup_lookup_total_lt.
Qed.

(** The turns of [loop()] come at times that do not decrease and lie
    between [last] and [deadline]. *)
Fixpoint on_time (last deadline : Z) (turns : list (Z * list Z)) : Prop :=
  match turns with
  | [] => True
  | (t, _) :: turns' => last <= t <= deadline /\ on_time t deadline turns'
  end.

(** The time of the last of the turns, [last] when there is none. *)
Definition last_time (last : Z) (turns : list (Z * list Z)) : Z :=
  fold_left (fun _ turn => fst turn) turns last.

Lemma on_time_app deadline a : forall last b,
  on_time last deadline (a ++ b) ->
  on_time last deadline a /\ on_time (last_time last a) deadline b.
Proof.
  induction a as [|[t x] a IH]; intros last b H; [now split|].
  cbn in H. destruct H as (Ht & H). destruct (IH t b H) as (Ha & Hb).
  split; [split; assumption | exact Hb].
Qed.

Lemma on_time_replicate deadline t n last :
  on_time last deadline (replicate (S n) (t, [])) -> last <= t <= deadline.
Proof. cbn. tauto. Qed.

(** Projections of updated machines. *)
Ltac fields :=
  cbn [position state buffer memory serial bytes_until_checksum last_state_reset
       set_state set_state_pointer println set_position set_buffer
       set_bytes_until_checksum set_last_state_reset set_memory fst snd].

(** The backward comparison ends by itself within [END_SEQUENCE_LENGTH]
    turns: more fuel changes nothing. *)
Lemma end_sequence_loop_enough_fuel T fuel buf pos :
  (END_SEQUENCE_LENGTH <= fuel)%nat ->
  end_sequence_loop T fuel 0 buf pos = end_sequence_found T buf pos.
Proof.
  intros Hfuel. unfold end_sequence_found.
  change END_SEQUENCE_LENGTH with 5%nat in *.
  do 5 (destruct fuel as [|fuel]; [lia|]).
  cbn [end_sequence_loop]. change END_SEQUENCE_LENGTH with 5%nat.
  cbn [Nat.sub Nat.leb Nat.eqb Nat.add].
  repeat match goal with |- context [negb ?c] => destruct c; cbn [negb] end;
    reflexivity.
Qed.

(** ** Framing one datagram

    The datagram [D] travels from the serial line into the buffer.  The
    section fixes the datagram and the initial register file, and follows the
    machine through the bytes of [D]. *)

Section OneDatagram.

Variable T : target.
Variable payload : list Z.
Variable fill : Z.
Variable f0 : bae910_memory.

Let D : list Z := datagram payload fill.
Let N : nat := length D.

Hypothesis D_fits : (length (datagram payload fill) <= BUFFER_SIZE)%nat.
Hypothesis D_end : end_marker_only_at_end payload = true.

Lemma D_length : N = (16 + length payload)%nat.
Proof.
  unfold N, D, datagram. cbv zeta. rewrite !length_app.
  change (length START_SEQUENCE) with 8%nat. change (length END_SEQUENCE) with 5%nat.
  cbn [length]. lia.
Qed.

Lemma D_shape :
  D = START_SEQUENCE ++ (payload ++ END_SEQUENCE)
      ++ [fill; Z.land (x25 (START_SEQUENCE ++ payload ++ END_SEQUENCE ++ [fill])) 0xFF;
          Z.shiftr (x25 (START_SEQUENCE ++ payload ++ END_SEQUENCE ++ [fill])) 8].
Proof.
  unfold D, datagram. cbv zeta. rewrite <- !app_assoc. reflexivity.
Qed.

Lemma D_start k : (k < 8)%nat -> D !! k = START_SEQUENCE !! k.
Proof.
  intros Hk. rewrite D_shape. apply lookup_app_l. cbn. lia.
Qed.

Lemma D_lookup k : (k < N)%nat -> D !! k = Some (D !!! k).
Proof. intros Hk. now apply list_lookup_lookup_total_lt. Qed.

Lemma D_middle j :
  (j < length payload + 5)%nat -> D !!! (8 + j)%nat = (payload ++ END_SEQUENCE) !!! j.
Proof.
  intros Hj. rewrite D_shape.
  rewrite lookup_total_app_r by (cbn; lia).
  change (length START_SEQUENCE) with 8%nat.
  replace (8 + j - 8)%nat with j by lia.
  apply lookup_total_app_l. rewrite length_app. cbn. lia.
Qed.

Lemma D_window_early w :
  (4 <= w < 8 + length payload)%nat -> window_is_end D w = false.
Proof.
  intros Hw. unfold window_is_end.
  destruct (Nat.lt_ge_cases w 8) as [Hlt|Hge].
  - assert (D !!! w = 1) as ->.
    { apply list_lookup_total_correct. rewrite D_start by lia.
      destruct w as [|[|[|[|[|[|[|[|w]]]]]]]]; try lia; reflexivity. }
    reflexivity.
  - replace w with (8 + (w - 8))%nat by lia.
    replace (8 + (w - 8) + 1)%nat with (8 + (w - 8 + 1))%nat by lia.
    replace (8 + (w - 8) + 2)%nat with (8 + (w - 8 + 2))%nat by lia.
    replace (8 + (w - 8) + 3)%nat with (8 + (w - 8 + 3))%nat by lia.
    replace (8 + (w - 8) + 4)%nat with (8 + (w - 8 + 4))%nat by lia.
    rewrite !D_middle by lia.
    pose proof D_end as Hall. unfold end_marker_only_at_end in Hall.
    rewrite forallb_forall in Hall.
    specialize (Hall (w - 8)%nat).
    rewrite in_seq in Hall. specialize (Hall ltac:(lia)).
    apply negb_true_iff in Hall. exact Hall.
Qed.

Lemma D_window_end : window_is_end D (8 + length payload) = true.
Proof.
  unfold window_is_end.
  replace (8 + length payload)%nat with (8 + (length payload + 0))%nat at 1 by lia.
  replace (8 + length payload + 1)%nat with (8 + (length payload + 1))%nat by lia.
  replace (8 + length payload + 2)%nat with (8 + (length payload + 2))%nat by lia.
  replace (8 + length payload + 3)%nat with (8 + (length payload + 3))%nat by lia.
  replace (8 + length payload + 4)%nat with (8 + (length payload + 4))%nat by lia.
  rewrite !D_middle by lia.
  rewrite !lookup_total_app_r by lia.
  replace (length payload + 0 - length payload)%nat with 0%nat by lia.
  replace (length payload + 1 - length payload)%nat with 1%nat by lia.
  replace (length payload + 2 - length payload)%nat with 2%nat by lia.
  replace (length payload + 3 - length payload)%nat with 3%nat by lia.
  replace (length payload + 4 - length payload)%nat with 4%nat by lia.
  reflexivity.
Qed.

Lemma end_sequence_found_window buf k :
  (4 <= k)%nat -> (S k <= N)%nat ->
  take (S k) buf = take (S k) D ->
  end_sequence_found T buf (S k) = window_is_end D (k - 4).
Proof.
  intros Hk HN Htake. rewrite end_sequence_found_peek. unfold window_is_end.
  rewrite (peek_of_take_eq T buf D (S k) (S k - 5)) by (auto; lia).
  rewrite (peek_of_take_eq T buf D (S k) (S k - 4)) by (auto; lia).
  rewrite (peek_of_take_eq T buf D (S k) (S k - 3)) by (auto; lia).
  rewrite (peek_of_take_eq T buf D (S k) (S k - 2)) by (auto; lia).
  rewrite (peek_of_take_eq T buf D (S k) (S k - 1)) by (auto; lia).
  replace (S k - 5)%nat with (k - 4)%nat by lia.
  replace (S k - 4)%nat with (k - 4 + 1)%nat by lia.
  replace (S k - 3)%nat with (k - 4 + 2)%nat by lia.
  replace (S k - 2)%nat with (k - 4 + 3)%nat by lia.
  replace (S k - 1)%nat with (k - 4 + 4)%nat by lia.
  reflexivity.
Qed.

(** The state after [k] bytes of the datagram. *)
Definition phase_of (k : nat) : state_fn :=
  if (k <? 8)%nat then WaitStart
  else if (k <? N - 3)%nat then Accumulate
  else if (k <? N)%nat then AwaitTail
  else Done.

Definition serial_of (k : nat) : list serial_line :=
  match phase_of k with
  | WaitStart => [StateIs WaitStart]
  | Accumulate => [StateIs WaitStart; StateIs Accumulate]
  | AwaitTail => [StateIs WaitStart; StateIs Accumulate; StateIs AwaitTail]
  | Done => [StateIs WaitStart; StateIs Accumulate; StateIs AwaitTail; StateIs Done]
  end.

(** The machine after [k] bytes of the datagram: they are in the buffer, the
    rest of the buffer is as it was at power-on, nothing was published. *)
Definition in_datagram (k : nat) (m : machine) : Prop :=
  position m = k
  /\ state m = Some (phase_of k)
  /\ length (buffer m) = BUFFER_SIZE
  /\ take k (buffer m) = take k D
  /\ drop (Nat.max k 8) (buffer m) = replicate (BUFFER_SIZE - Nat.max k 8) 0
  /\ ((N - 3 <= k)%nat -> bytes_until_checksum m = Z.of_nat (N - k))
  /\ memory m = f0
  /\ serial m = serial_of k.

Lemma phase_of_wait k : (k < 8)%nat -> phase_of k = WaitStart.
Proof.
  intros H. unfold phase_of. destruct (Nat.ltb_spec k 8); [reflexivity | lia].
Qed.

Lemma phase_of_accumulate k : (8 <= k < N - 3)%nat -> phase_of k = Accumulate.
Proof.
  intros H. unfold phase_of.
  destruct (Nat.ltb_spec k 8); [lia|].
  destruct (Nat.ltb_spec k (N - 3)); [reflexivity | lia].
Qed.

Lemma phase_of_tail k : (N - 3 <= k < N)%nat -> phase_of k = AwaitTail.
Proof.
  intros H. pose proof D_length. unfold phase_of.
  destruct (Nat.ltb_spec k 8); [lia|].
  destruct (Nat.ltb_spec k (N - 3)); [lia|].
  destruct (Nat.ltb_spec k N); [reflexivity | lia].
Qed.

Lemma phase_of_done k : (N <= k)%nat -> phase_of k = Done.
Proof.
  intros H. pose proof D_length. unfold phase_of.
  destruct (Nat.ltb_spec k 8); [lia|].
  destruct (Nat.ltb_spec k (N - 3)); [lia|].
  destruct (Nat.ltb_spec k N); [lia | reflexivity].
Qed.

Lemma take_S_insert (buf : list Z) k b :
  (k < length buf)%nat -> take k buf = take k D -> D !! k = Some b ->
  take (S k) (<[k := b]> buf) = take (S k) D.
Proof.
  intros Hlt Ht Hb.
  rewrite (take_S_r _ _ b) by now apply list_lookup_insert_eq.
  rewrite take_insert_ge by lia. rewrite Ht.
  symmetry. now apply take_S_r.
Qed.

Lemma step_wait now k m rx :
  in_datagram k m -> (k < 8)%nat ->
  exists m',
    in_datagram (S k) m' /\ last_state_reset m' = last_state_reset m
    /\ wait_for_start_sequence T now (D !!! k :: rx) m
       = if (S k =? 8)%nat then (m', rx) else wait_for_start_sequence T now rx m'.
Proof.
  intros (Hp & Hs & Hl & Ht & Hz & Hb & Hmem & Hser) Hk.
  pose proof D_length as HN.
  assert (D !! k = Some (D !!! k)) as HDk by (apply D_lookup; lia).
  assert (D !!! k = START_SEQUENCE !!! k) as Hstart.
  { apply list_lookup_total_correct. rewrite D_start by lia.
    apply list_lookup_lookup_total_lt. cbn. lia. }
  assert (k < length (buffer m))%nat as Hlt by (rewrite Hl; unfold BUFFER_SIZE; lia).
  rewrite wait_for_start_sequence_cons by (rewrite Hp; exact Hlt).
  cbv zeta. rewrite Hp, Hstart, Z.eqb_refl. rewrite <- Hstart.
  change START_SEQUENCE_LENGTH with 8%nat.
  assert (take (S k) (<[k := D !!! k]> (buffer m)) = take (S k) D) as Ht'
    by now apply take_S_insert.
  assert (drop 8 (<[k := D !!! k]> (buffer m)) = replicate (BUFFER_SIZE - 8) 0) as Hz'.
  { rewrite drop_insert_lt by lia.
    replace (Nat.max k 8) with 8%nat in Hz by lia. exact Hz. }
  rewrite (phase_of_wait k Hk) in Hs. unfold serial_of in Hser.
  rewrite (phase_of_wait k Hk) in Hser.
  destruct (Nat.eqb_spec (S k) 8) as [E|NE].
  - eexists. split; [|split; [|reflexivity]].
    + unfold in_datagram. fields. rewrite length_insert.
      unfold serial_of. rewrite (phase_of_accumulate (S k)) by lia.
      rewrite Hser, Hmem. replace (Nat.max (S k) 8) with 8%nat by lia.
      repeat split; auto. intros; lia.
    + reflexivity.
  - eexists. split; [|split; [|reflexivity]].
    + unfold in_datagram. fields. rewrite length_insert.
      unfold serial_of. rewrite (phase_of_wait (S k)) by lia.
      replace (Nat.max (S k) 8) with 8%nat by lia.
      repeat split; auto. intros; lia.
    + reflexivity.
Qed.

Lemma drop_S_insert (buf : list Z) k b :
  (8 <= k)%nat -> (k < BUFFER_SIZE)%nat ->
  drop (Nat.max k 8) buf = replicate (BUFFER_SIZE - Nat.max k 8) 0 ->
  drop (Nat.max (S k) 8) (<[k := b]> buf) = replicate (BUFFER_SIZE - Nat.max (S k) 8) 0.
Proof.
  intros Hk Hlt Hz.
  replace (Nat.max k 8) with k in Hz by lia.
  replace (Nat.max (S k) 8) with (S k) by lia.
  rewrite drop_insert_lt by lia.
  replace (S k) with (k + 1)%nat by lia. rewrite <- drop_drop, Hz.
  rewrite drop_replicate. f_equal. lia.
Qed.

Lemma step_accumulate now k m rx :
  in_datagram k m -> (8 <= k < N - 3)%nat ->
  exists m',
    in_datagram (S k) m' /\ last_state_reset m' = last_state_reset m
    /\ read_message T now (D !!! k :: rx) m
       = if (S k =? N - 3)%nat then (m', rx) else read_message T now rx m'.
Proof.
  intros (Hp & Hs & Hl & Ht & Hz & Hb & Hmem & Hser) Hk.
  pose proof D_length as HN. pose proof D_fits as Hfit. fold D in Hfit. fold N in Hfit.
  assert (D !! k = Some (D !!! k)) as HDk by (apply D_lookup; lia).
  assert (k < length (buffer m))%nat as Hlt by (rewrite Hl; lia).
  assert (take (S k) (<[k := D !!! k]> (buffer m)) = take (S k) D) as Ht'
    by now apply take_S_insert.
  assert (drop (Nat.max (S k) 8) (<[k := D !!! k]> (buffer m))
          = replicate (BUFFER_SIZE - Nat.max (S k) 8) 0) as Hz'
    by (apply drop_S_insert; [lia | lia | exact Hz]).
  unfold serial_of in Hser. rewrite (phase_of_accumulate k Hk) in Hs, Hser.
  cbn [read_message]. rewrite Hp.
  destruct (Nat.eqb_spec (k + 3) BUFFER_SIZE) as [E|_]; [lia|].
  cbv zeta. fields.
  rewrite (end_sequence_found_window _ k) by (auto; lia).
  destruct (Nat.eqb_spec (S k) (N - 3)) as [E|NE].
  - replace (k - 4)%nat with (8 + length payload)%nat by lia.
    rewrite D_window_end.
    eexists. split; [|split; [|reflexivity]]; [|reflexivity].
    unfold in_datagram. fields. rewrite length_insert.
    unfold serial_of. rewrite (phase_of_tail (S k)) by lia.
    rewrite Hser, Hmem.
    repeat split; auto. intros _. lia.
  - rewrite D_window_early by lia.
    eexists. split; [|split; [|reflexivity]]; [|reflexivity].
    unfold in_datagram. fields. rewrite length_insert.
    unfold serial_of. rewrite (phase_of_accumulate (S k)) by lia.
    repeat split; auto. intros; lia.
Qed.

Lemma step_tail now k m rx :
  in_datagram k m -> (N - 3 <= k < N)%nat ->
  exists m',
    in_datagram (S k) m' /\ last_state_reset m' = last_state_reset m
    /\ read_checksum now (D !!! k :: rx) m
       = if (S k =? N)%nat then (m', rx) else read_checksum now rx m'.
Proof.
  intros (Hp & Hs & Hl & Ht & Hz & Hb & Hmem & Hser) Hk.
  pose proof D_length as HN. pose proof D_fits as Hfit. fold D in Hfit. fold N in Hfit.
  assert (D !! k = Some (D !!! k)) as HDk by (apply D_lookup; lia).
  assert (k < length (buffer m))%nat as Hlt by (rewrite Hl; lia).
  assert (take (S k) (<[k := D !!! k]> (buffer m)) = take (S k) D) as Ht'
    by now apply take_S_insert.
  assert (drop (Nat.max (S k) 8) (<[k := D !!! k]> (buffer m))
          = replicate (BUFFER_SIZE - Nat.max (S k) 8) 0) as Hz'
    by (apply drop_S_insert; [lia | lia | exact Hz]).
  unfold serial_of in Hser. rewrite (phase_of_tail k Hk) in Hs, Hser.
  specialize (Hb ltac:(lia)).
  assert (to_uint8 (bytes_until_checksum m - 1) = Z.of_nat (N - S k)) as Hdec.
  { rewrite Hb. unfold to_uint8. rewrite Z.mod_small by (change (2 ^ 8) with 256; lia). lia. }
  unfold read_checksum at 1. cbn [read_checksum_loop].
  destruct (Z.ltb_spec 0 (bytes_until_checksum m)) as [_|Hle]; [|lia].
  cbv zeta. fields. rewrite Hp, Hdec.
  destruct (Nat.eqb_spec (S k) N) as [E|NE].
  - replace (N - S k)%nat with 0%nat by lia.
    assert (forall m1, bytes_until_checksum m1 = 0 -> read_checksum_loop rx m1 = (m1, rx)) as Hstop.
    { intros m1 H0. destruct rx; cbn [read_checksum_loop]; rewrite H0; reflexivity. }
    rewrite Hstop by reflexivity. fields. cbn [Z.of_nat Z.eqb].
    eexists. split; [|split; [|reflexivity]]; [|reflexivity].
    unfold in_datagram. fields. rewrite length_insert.
    unfold serial_of. rewrite (phase_of_done (S k)) by lia.
    rewrite Hser, Hmem.
    repeat split; auto. intros _. lia.
  - eexists. split; [|split; [|reflexivity]]; [|reflexivity].
    unfold in_datagram. fields. rewrite length_insert.
    unfold serial_of. rewrite (phase_of_tail (S k)) by lia.
    repeat split; auto.
Qed.

Lemma phase_of_not_done k : (k < N)%nat -> phase_of k <> Done.
Proof.
  intros Hk. pose proof D_length. unfold phase_of.
  destruct (k <? 8)%nat; [discriminate|].
  destruct (k <? N - 3)%nat; [discriminate|].
  destruct (Nat.ltb_spec k N); [discriminate | lia].
Qed.

(** One byte of the datagram: the state function stores it and either goes
    on with the bytes that are left or hands over to the next state. *)
Lemma in_datagram_step now k m rx :
  in_datagram k m -> (k < N)%nat ->
  exists m',
    in_datagram (S k) m' /\ last_state_reset m' = last_state_reset m
    /\ dispatch T (phase_of k) now (D !!! k :: rx) m
       = if state_fn_eqb (phase_of (S k)) (phase_of k)
         then dispatch T (phase_of k) now rx m' else (m', rx).
Proof.
  intros Hm Hk. pose proof D_length as HN.
  destruct (Nat.lt_ge_cases k 8) as [Hw|Hw].
  - destruct (step_wait now k m rx Hm Hw) as (m' & Hin & Hlsr & Heq).
    exists m'. split; [exact Hin|]. split; [exact Hlsr|].
    rewrite (phase_of_wait k Hw). cbn [dispatch]. rewrite Heq.
    destruct (Nat.eqb_spec (S k) 8) as [E|NE].
    + rewrite (phase_of_accumulate (S k)) by lia. reflexivity.
    + rewrite (phase_of_wait (S k)) by lia. reflexivity.
  - destruct (Nat.lt_ge_cases k (N - 3)) as [Ha|Ha].
    + destruct (step_accumulate now k m rx Hm (conj Hw Ha)) as (m' & Hin & Hlsr & Heq).
      exists m'. split; [exact Hin|]. split; [exact Hlsr|].
      rewrite (phase_of_accumulate k) by lia. cbn [dispatch]. rewrite Heq.
      destruct (Nat.eqb_spec (S k) (N - 3)) as [E|NE].
      * rewrite (phase_of_tail (S k)) by lia. reflexivity.
      * rewrite (phase_of_accumulate (S k)) by lia. reflexivity.
    + destruct (step_tail now k m rx Hm (conj Ha Hk)) as (m' & Hin & Hlsr & Heq).
      exists m'. split; [exact Hin|]. split; [exact Hlsr|].
      rewrite (phase_of_tail k) by lia. cbn [dispatch]. rewrite Heq.
      destruct (Nat.eqb_spec (S k) N) as [E|NE].
      * rewrite (phase_of_done (S k)) by lia. reflexivity.
      * rewrite (phase_of_tail (S k)) by lia. reflexivity.
Qed.

(** The number of state changes that lead to a state. *)
Definition rank_of (s : state_fn) : nat :=
  match s with WaitStart => 0 | Accumulate => 1 | AwaitTail => 2 | Done => 3 end.

Lemma rank_of_phase_succ k :
  (rank_of (phase_of (S k)) <= S (rank_of (phase_of k)))%nat.
Proof.
  pose proof D_length as HN. unfold phase_of.
  destruct (Nat.ltb_spec k 8), (Nat.ltb_spec (S k) 8),
    (Nat.ltb_spec k (N - 3)), (Nat.ltb_spec (S k) (N - 3)),
    (Nat.ltb_spec k N), (Nat.ltb_spec (S k) N); cbn; lia.
Qed.

Lemma state_fn_eqb_eq a b : state_fn_eqb a b = true <-> a = b.
Proof. destruct a, b; cbn; split; congruence. Qed.

Lemma dispatch_nil now k m :
  in_datagram k m -> (k < N)%nat -> dispatch T (phase_of k) now [] m = (m, []).
Proof.
  intros (Hp & Hs & Hl & Ht & Hz & Hb & Hmem & Hser) Hk.
  pose proof (phase_of_not_done k Hk) as Hnd.
  destruct (phase_of k) eqn:E; try reflexivity; [|contradiction].
  assert (N - 3 <= k)%nat as Htail.
  { destruct (Nat.lt_ge_cases k (N - 3)) as [H|H]; [|exact H].
    destruct (Nat.lt_ge_cases k 8) as [H8|H8].
    - rewrite phase_of_wait in E by lia. discriminate.
    - rewrite phase_of_accumulate in E by lia. discriminate. }
  specialize (Hb Htail).
  cbn [dispatch]. unfold read_checksum. cbn [read_checksum_loop].
  destruct (Z.ltb_spec 0 (bytes_until_checksum m)) as [_|Hle]; [|lia].
  destruct (Z.eqb_spec (bytes_until_checksum m) 0) as [E0|_]; [lia | reflexivity].
Qed.

(** The bytes of the datagram that are available are consumed until they
    are used up or the state changes. *)
Lemma tick_in_datagram now rx : forall k m rest more,
  in_datagram k m -> (k < N)%nat -> rx ++ rest = drop k D ++ more ->
  exists k' m',
    dispatch T (phase_of k) now rx m = (m', drop (k' - k) rx)
    /\ in_datagram k' m' /\ (k <= k' <= N)%nat /\ (k' - k <= length rx)%nat
    /\ last_state_reset m' = last_state_reset m
    /\ (((k' - k)%nat = length rx /\ phase_of k' = phase_of k) \/ phase_of k' <> phase_of k)
    /\ (rank_of (phase_of k') <= S (rank_of (phase_of k)))%nat.
Proof.
  induction rx as [|b rx IH]; intros k m rest more Hm Hk Hrx.
  - exists k, m. rewrite dispatch_nil by assumption.
    replace (k - k)%nat with 0%nat by lia.
    split; [reflexivity|]. split; [exact Hm|]. split; [lia|]. split; [cbn; lia|].
    split; [reflexivity|]. split; [left; split; reflexivity | lia].
  - rewrite (drop_S D (D !!! k) k) in Hrx by (apply D_lookup; exact Hk).
    cbn [app] in Hrx. injection Hrx as Hb Hrx. subst b.
    destruct (in_datagram_step now k m rx Hm Hk) as (m1 & Hm1 & Hlsr1 & Hstep).
    rewrite Hstep.
    destruct (state_fn_eqb (phase_of (S k)) (phase_of k)) eqn:Esame.
    + apply state_fn_eqb_eq in Esame.
      assert (S k < N)%nat as Hk1.
      { destruct (Nat.lt_ge_cases (S k) N) as [H|H]; [exact H|].
        rewrite (phase_of_done (S k)) in Esame by lia.
        symmetry in Esame. now apply phase_of_not_done in Esame. }
      destruct (IH (S k) m1 rest more Hm1 Hk1 Hrx)
        as (k' & m' & Hrun & Hm' & Hrange & Hlen & Hlsr & Hprog & Hrank).
      exists k', m'. rewrite <- Esame, Hrun.
      replace (k' - k)%nat with (S (k' - S k)) by lia. cbn [drop length].
      split; [reflexivity|]. split; [exact Hm'|]. split; [lia|]. split; [lia|].
      split; [congruence|]. split; [|exact Hrank].
      destruct Hprog as [[H1 H2]|H]; [left | right]; [split|]; [lia | congruence | congruence].
    + exists (S k), m1. replace (S k - k)%nat with 1%nat by lia. cbn [drop length].
      split; [reflexivity|]. split; [exact Hm1|]. split; [lia|]. split; [lia|].
      split; [exact Hlsr1|]. split; [|apply rank_of_phase_succ].
      right. intros E. apply state_fn_eqb_eq in E. congruence.
Qed.

(** The machine that holds the whole datagram, ready to be processed. *)
Definition assembled : machine :=
  Machine (D ++ replicate (BUFFER_SIZE - N) 0) N 0 0 (Some Done) f0
          [StateIs WaitStart; StateIs Accumulate; StateIs AwaitTail; StateIs Done].

Lemma in_datagram_done m :
  in_datagram N m ->
  buffer m = buffer assembled /\ position m = position assembled
  /\ memory m = memory assembled /\ serial m = serial assembled
  /\ state m = Some Done.
Proof.
  intros (Hp & Hs & Hl & Ht & Hz & Hb & Hmem & Hser).
  pose proof D_length as HN.
  unfold serial_of in Hser. rewrite (phase_of_done N) in Hs, Hser by lia.
  repeat split; auto.
  cbn [buffer assembled].
  rewrite <- (take_drop N (buffer m)), Ht.
  replace (Nat.max N 8) with N in Hz by lia. rewrite Hz.
  rewrite take_ge by (unfold N; lia). reflexivity.
Qed.

Lemma assembled_checksum :
  calculated_checksum assembled = given_checksum T assembled.
Proof.
  pose proof D_length as HN.
  set (covered := START_SEQUENCE ++ payload ++ END_SEQUENCE ++ [fill]).
  assert (D = covered ++ [Z.land (x25 covered) 0xFF; Z.shiftr (x25 covered) 8]) as HD
    by reflexivity.
  assert (length covered = (N - 2)%nat) as Hcov.
  { unfold N. rewrite HD, length_app. cbn [length]. lia. }
  unfold calculated_checksum, given_checksum. cbn [buffer position assembled].
  rewrite take_app_le by (unfold N; lia).
  rewrite HD at 1. rewrite take_app_length' by (symmetry; exact Hcov).
  assert (forall j b, [Z.land (x25 covered) 0xFF; Z.shiftr (x25 covered) 8] !! j = Some b ->
            peek T (D ++ replicate (BUFFER_SIZE - N) 0) (N - 2 + j) = b) as Hpeek.
  { intros j b Hj. apply peek_lookup. apply lookup_app_l_Some.
    rewrite HD. rewrite lookup_app_r by lia.
    rewrite Hcov. replace (N - 2 + j - (N - 2))%nat with j by lia. exact Hj. }
  replace (N - 1)%nat with (N - 2 + 1)%nat by lia.
  rewrite (Hpeek 1%nat _ eq_refl).
  replace (N - 2)%nat with (N - 2 + 0)%nat by lia.
  rewrite (Hpeek 0%nat _ eq_refl).
  symmetry. apply recombine16.
Qed.

(** [process_message] looks at the buffer, the position, the register file
    and the serial output only. *)
Lemma process_message_agree now now' m1 m2 :
  buffer m1 = buffer m2 -> position m1 = position m2 ->
  memory m1 = memory m2 -> serial m1 = serial m2 ->
  buffer (process_message T now m1) = buffer (process_message T now' m2)
  /\ memory (process_message T now m1) = memory (process_message T now' m2)
  /\ serial (process_message T now m1) = serial (process_message T now' m2).
Proof.
  destruct m1 as [b1 p1 t1 n1 s1 f1 l1], m2 as [b2 p2 t2 n2 s2 f2 l2].
  cbn [buffer position memory serial]. intros -> -> -> ->.
  unfold process_message, calculated_checksum, given_checksum.
  cbn [buffer position].
  destruct (negb _); [repeat split|].
  unfold parse. change (seq 0 METRIC_LENGTH) with [0; 1; 2]%nat.
  cbn [fold_left map]. unfold parse_step, found. cbn [buffer position println].
  destruct (memmem (take p2 b2) (front_memory T 0 _));
    cbn [buffer position println];
    destruct (memmem (take p2 b2) (front_memory T 1 _));
    cbn [buffer position println];
    destruct (memmem (take p2 b2) (front_memory T 2 _));
    repeat split; reflexivity.
Qed.

(** *** The datagram within a stream

    The datagram is preceded and followed by bytes on which the scan for the
    start sequence does not complete a match; before the datagram the scan
    ends with the cursor at zero. *)

Variable pre post : list Z.
Variable post_cursor : nat.
Hypothesis pre_idle : start_cursor 0 pre = Some 0%nat.
Hypothesis post_idle : start_cursor 0 post = Some post_cursor.

Let stream : list Z := pre ++ D ++ post.
Let P : nat := length pre.

(** Waiting with nothing published (before the datagram) and waiting after
    the datagram was processed. *)
Definition idle (cur : nat) (m : machine) : Prop :=
  matching m /\ position m = cur
  /\ drop 8 (buffer m) = replicate (BUFFER_SIZE - 8) 0
  /\ memory m = f0 /\ serial m = [StateIs WaitStart].

Definition processed (cur : nat) (m : machine) : Prop :=
  matching m /\ position m = cur
  /\ drop 8 (buffer m) = drop 8 (buffer assembled)
  /\ memory m = memory (process_message T 0 assembled)
  /\ serial m = serial (process_message T 0 assembled).

(** [progress r c m]: [m] is the machine after [c] bytes of the stream;
    [r] counts the state changes so far. *)
Inductive progress : nat -> nat -> machine -> Prop :=
  | progress_before c cur m :
      (c <= P)%nat -> start_cursor 0 (take c pre) = Some cur -> idle cur m ->
      progress 0 c m
  | progress_within k m :
      (k <= N)%nat -> in_datagram k m ->
      progress (rank_of (phase_of k)) (P + k) m
  | progress_after c cur m :
      (c <= length post)%nat -> start_cursor 0 (take c post) = Some cur ->
      processed cur m ->
      progress 4 (P + N + c) m.

Lemma idle_in_datagram m : idle 0 m -> in_datagram 0 m.
Proof.
  intros ((Hs & Hp & Hl & Ht) & Hc & Hz & Hmem & Hser).
  pose proof D_length as HN.
  unfold in_datagram. unfold serial_of. rewrite (phase_of_wait 0) by lia.
  repeat split; auto. intros; lia.
Qed.

Lemma rank_of_phase_mono k k' :
  (k <= k')%nat -> (rank_of (phase_of k) <= rank_of (phase_of k'))%nat.
Proof.
  intros Hk. pose proof D_length as HN. unfold phase_of.
  destruct (Nat.ltb_spec k 8), (Nat.ltb_spec k' 8),
    (Nat.ltb_spec k (N - 3)), (Nat.ltb_spec k' (N - 3)),
    (Nat.ltb_spec k N), (Nat.ltb_spec k' N); cbn; lia.
Qed.

Lemma rank_of_inj a b : rank_of a = rank_of b -> a = b.
Proof. destruct a, b; cbn; congruence. Qed.

(** A tick on noise: all of it is consumed and the machine keeps waiting. *)
Lemma noise_tick now noise final c m rx rest :
  start_cursor 0 noise = Some final ->
  matching m -> start_cursor 0 (take c noise) = Some (position m) ->
  rx ++ rest = drop c noise ->
  exists m1 cur1,
    (forall b, wait_for_start_sequence T now (rx ++ b) m
               = wait_for_start_sequence T now b m1)
    /\ start_cursor 0 (take (c + length rx) noise) = Some cur1
    /\ matching m1 /\ position m1 = cur1
    /\ drop 8 (buffer m1) = drop 8 (buffer m)
    /\ memory m1 = memory m /\ serial m1 = serial m
    /\ last_state_reset m1 = last_state_reset m.
Proof.
  intros Hnoise Hm Hcur Hrx.
  assert (noise = (take c noise ++ rx) ++ rest) as Hsplit.
  { rewrite <- app_assoc, Hrx. symmetry. apply take_drop. }
  assert (take (c + length rx) noise = take c noise ++ rx) as Htake.
  { destruct (Nat.le_gt_cases c (length noise)) as [Hle|Hgt].
    - rewrite Hsplit at 1. apply take_app_length'.
      rewrite length_app, length_take. lia.
    - rewrite drop_ge in Hrx by lia.
      destruct rx; [|discriminate]. cbn [length]. rewrite Nat.add_0_r.
      now rewrite app_nil_r. }
  rewrite Hsplit in Hnoise.
  destruct (start_cursor_prefix _ _ _ _ Hnoise) as (cur1 & Hcur1).
  pose proof Hcur1 as Hscan. rewrite start_cursor_app, Hcur in Hscan.
  destruct (wait_for_start_sequence_noise T now rx m cur1 Hm Hscan)
    as (m1 & Hrun & Hm1 & Hp1 & Hd1 & Hmem1 & Hser1 & Hlsr1).
  exists m1, cur1. rewrite Htake. repeat split; auto; apply Hm1.
Qed.

Lemma app_split_le (l1 l2 a y : list Z) :
  l1 ++ l2 = a ++ y -> (length a <= length l1)%nat ->
  l1 = a ++ drop (length a) l1 /\ drop (length a) l1 ++ l2 = y.
Proof.
  intros H Hlen.
  assert (take (length a) l1 = a) as Ha.
  { rewrite <- (take_app_le l1 l2) by lia. rewrite H. apply take_app_length. }
  split.
  - rewrite <- Ha at 1. symmetry. apply take_drop.
  - rewrite <- (drop_app_le l1 l2) by lia. rewrite H. apply drop_app_length.
Qed.

Lemma app_split_ge (l1 l2 a y : list Z) :
  l1 ++ l2 = a ++ y -> (length l1 <= length a)%nat ->
  l1 ++ drop (length l1) a = a.
Proof.
  intros H Hlen.
  assert (take (length l1) a = l1) as Hl.
  { rewrite <- (take_app_le a y) by lia. rewrite <- H. apply take_app_length. }
  rewrite <- Hl at 1. apply take_drop.
Qed.

Lemma run_current_state_quiet now m rx s :
  state m = Some s -> timed_out now m = false ->
  run_current_state T now (m, rx) = dispatch T s now rx m.
Proof.
  intros Hs Hq. unfold run_current_state. rewrite Hs, Hq, Hs. now destruct s.
Qed.

Lemma process_message_buffer now m : buffer (process_message T now m) = buffer m.
Proof.
  unfold process_message. destruct (negb _); [apply reset_buffer|].
  pose proof (parse_frame T m) as (Hb & _).
  destruct (parse T m) as [values mp]. cbn [snd] in Hb.
  rewrite reset_buffer. pose proof (publish_frame T values mp) as (Hb' & _). congruence.
Qed.

Lemma process_message_reset now m :
  state (process_message T now m) = Some WaitStart
  /\ position (process_message T now m) = 0%nat
  /\ last_state_reset (process_message T now m) = now.
Proof.
  unfold process_message. destruct (negb _).
  - now rewrite reset_state, reset_position, reset_last_state_reset.
  - destruct (parse T m) as [values mp].
    now rewrite reset_state, reset_position, reset_last_state_reset.
Qed.

Lemma stream_before c : (c <= P)%nat -> drop c stream = drop c pre ++ D ++ post.
Proof. intros Hc. unfold stream. now apply drop_app_le. Qed.

Lemma stream_within k : (k <= N)%nat -> drop (P + k) stream = drop k D ++ post.
Proof.
  intros Hk. unfold stream. rewrite drop_app_add' by reflexivity.
  now apply drop_app_le.
Qed.

Lemma stream_after c : drop (P + N + c) stream = drop c post.
Proof.
  unfold stream. rewrite <- Nat.add_assoc. rewrite drop_app_add' by reflexivity.
  now rewrite drop_app_add' by reflexivity.
Qed.

Lemma tick_before now c cur m rx rest :
  (c <= P)%nat -> start_cursor 0 (take c pre) = Some cur -> idle cur m ->
  rx ++ rest = drop c stream ->
  exists r' c' m',
    wait_for_start_sequence T now rx m = (m', drop (c' - c) rx)
    /\ progress r' c' m'
    /\ (c <= c')%nat /\ (c' - c <= length rx)%nat
    /\ last_state_reset m' = last_state_reset m
    /\ (((c' - c)%nat = length rx /\ r' <> 3%nat) \/ (0 < r')%nat)
    /\ ((0 < r')%nat -> (c < c')%nat)
    /\ (r' <= 1)%nat.
Proof.
  intros Hc Hcur (Hm & Hpos & Hz & Hmem & Hser) Hrx.
  rewrite stream_before in Hrx by exact Hc.
  assert (length (drop c pre) = (P - c)%nat) as Hdl by (rewrite length_drop; reflexivity).
  rewrite <- Hpos in Hcur.
  destruct (Nat.le_gt_cases (length rx) (P - c)) as [Hshort|Hlong].
  - pose proof (app_split_ge rx rest (drop c pre) (D ++ post) Hrx ltac:(lia)) as Hpre.
    destruct (noise_tick now pre 0%nat c m rx _ pre_idle Hm Hcur Hpre)
      as (m1 & cur1 & Hrun & Hcur1 & Hm1 & Hp1 & Hd1 & Hmem1 & Hser1 & Hlsr1).
    exists 0%nat, (c + length rx)%nat, m1.
    specialize (Hrun []). rewrite app_nil_r in Hrun. rewrite Hrun.
    replace (c + length rx - c)%nat with (length rx) by lia. rewrite drop_all.
    split; [reflexivity|]. split.
    { apply (progress_before _ cur1); [lia | exact Hcur1 |].
      repeat split; try apply Hm1; congruence. }
    split; [lia|]. split; [lia|]. split; [exact Hlsr1|].
    split; [left; split; [reflexivity | lia] | split; lia].
  - destruct (app_split_le rx rest (drop c pre) (D ++ post) Hrx ltac:(lia)) as (Hsplit & Hb).
    rewrite Hdl in Hsplit, Hb.
    set (b := drop (P - c) rx) in *.
    destruct (noise_tick now pre 0%nat c m (drop c pre) [] pre_idle Hm Hcur
                (app_nil_r _))
      as (m1 & cur1 & Hrun & Hcur1 & Hm1 & Hp1 & Hd1 & Hmem1 & Hser1 & Hlsr1).
    rewrite Hdl in Hcur1. replace (c + (P - c))%nat with P in Hcur1 by lia.
    rewrite take_ge in Hcur1 by (unfold P; lia).
    rewrite pre_idle in Hcur1. injection Hcur1 as <-.
    assert (in_datagram 0 m1) as Hin.
    { apply idle_in_datagram. repeat split; try apply Hm1; congruence. }
    pose proof D_length as HN.
    destruct (tick_in_datagram now b 0 m1 rest post Hin ltac:(lia))
      as (k' & m' & Htick & Hin' & Hrange & Hlen & Hlsr & Hprog & Hrank).
    { rewrite drop_0. exact Hb. }
    rewrite (phase_of_wait 0) in Htick, Hprog, Hrank by lia.
    cbn [dispatch] in Htick. cbn [rank_of] in Hrank.
    replace (k' - 0)%nat with k' in * by lia.
    exists (rank_of (phase_of k')), (P + k')%nat, m'.
    rewrite Hsplit at 1. rewrite Hrun, Htick.
    assert (length rx = (P - c + length b)%nat) as Hlrx.
    { rewrite Hsplit at 1. rewrite length_app, Hdl. reflexivity. }
    split.
    { f_equal. rewrite Hsplit at 1.
      replace (P + k' - c)%nat with (P - c + k')%nat by lia.
      now rewrite drop_app_add' by (symmetry; exact Hdl). }
    split; [apply progress_within; [lia | exact Hin']|].
    split; [lia|]. split; [lia|]. split; [congruence|].
    split.
    + destruct Hprog as [[H1 H2]|H].
      * left. split; [lia|]. rewrite H2. cbn. lia.
      * right. destruct (rank_of (phase_of k')) eqn:E; [|lia].
        exfalso. apply H. apply rank_of_inj. exact E.
    + split; [|exact Hrank].
      intros Hr. destruct k' as [|k']; [|lia].
      rewrite (phase_of_wait 0) in Hr by lia. cbn in Hr. lia.
Qed.

Lemma tick_within now k m rx rest :
  (k <= N)%nat -> in_datagram k m -> rx ++ rest = drop (P + k) stream ->
  exists r' c' m',
    dispatch T (phase_of k) now rx m = (m', drop (c' - (P + k)) rx)
    /\ progress r' c' m'
    /\ (P + k <= c')%nat /\ (c' - (P + k) <= length rx)%nat
    /\ (rank_of (phase_of k) <= r')%nat
    /\ (last_state_reset m' = last_state_reset m \/ last_state_reset m' = now)
    /\ (((c' - (P + k))%nat = length rx /\ r' <> 3%nat)
        \/ (rank_of (phase_of k) < r')%nat)
    /\ ((rank_of (phase_of k) < r')%nat ->
        (P + k < c')%nat \/ rank_of (phase_of k) = 3%nat)
    /\ (r' <= S (rank_of (phase_of k)))%nat.
Proof.
  intros Hk Hin Hrx. pose proof D_length as HN.
  rewrite stream_within in Hrx by exact Hk.
  destruct (Nat.lt_ge_cases k N) as [Hlt|Hge].
  - destruct (tick_in_datagram now rx k m rest post Hin Hlt Hrx)
      as (k' & m' & Htick & Hin' & Hrange & Hlen & Hlsr & Hprog & Hrank).
    exists (rank_of (phase_of k')), (P + k')%nat, m'.
    replace (P + k' - (P + k))%nat with (k' - k)%nat by lia.
    split; [exact Htick|].
    split; [apply progress_within; [lia | exact Hin']|].
    split; [lia|]. split; [lia|].
    split; [apply rank_of_phase_mono; lia|].
    split; [left; exact Hlsr|].
    pose proof (rank_of_phase_mono k k' ltac:(lia)) as Hmono.
    split.
    + destruct Hprog as [[H1 H2]|H].
      * left. split; [exact H1|]. rewrite H2.
        pose proof (phase_of_not_done k Hlt) as Hnd.
        destruct (phase_of k); cbn; try lia. contradiction.
      * right. destruct (Nat.eq_dec (rank_of (phase_of k)) (rank_of (phase_of k')))
          as [E|NE]; [|lia].
        exfalso. apply H. symmetry. now apply rank_of_inj.
    + split; [|exact Hrank].
      intros Hr. left. destruct (Nat.eq_dec k k') as [->|NE]; lia.
  - assert (k = N) as -> by lia.
    destruct (in_datagram_done m Hin) as (Hb & Hp & Hmem & Hser & Hs).
    rewrite (phase_of_done N) by lia. cbn [dispatch rank_of].
    destruct (process_message_reset now m) as (Hs' & Hp' & Hl').
    destruct (process_message_agree now 0 m assembled Hb Hp Hmem Hser)
      as (Hb2 & Hmem2 & Hser2).
    exists 4%nat, (P + N + 0)%nat, (process_message T now m).
    replace (P + N + 0 - (P + N))%nat with 0%nat by lia. rewrite drop_0.
    split; [reflexivity|].
    split.
    { apply (progress_after 0 0%nat); [lia | reflexivity |].
      assert (length (buffer m) = BUFFER_SIZE) as Hlen by apply Hin.
      repeat split; auto.
      - change START_SEQUENCE_LENGTH with 8%nat. lia.
      - now rewrite process_message_buffer.
      - now rewrite Hp'.
      - rewrite Hb2. now rewrite process_message_buffer. }
    split; [lia|]. split; [lia|]. split; [lia|].
    split; [right; exact Hl'|].
    split; [right; lia|]. split; [intros _; right; reflexivity | lia].
Qed.

Lemma tick_after now c cur m rx rest :
  (c <= length post)%nat -> start_cursor 0 (take c post) = Some cur ->
  processed cur m -> rx ++ rest = drop (P + N + c) stream ->
  exists c' m',
    wait_for_start_sequence T now rx m = (m', drop (c' - (P + N + c)) rx)
    /\ progress 4 c' m'
    /\ (P + N + c <= c')%nat /\ (c' - (P + N + c))%nat = length rx
    /\ last_state_reset m' = last_state_reset m.
Proof.
  intros Hc Hcur (Hm & Hpos & Hz & Hmem & Hser) Hrx.
  rewrite stream_after in Hrx. rewrite <- Hpos in Hcur.
  destruct (noise_tick now post post_cursor c m rx rest post_idle Hm Hcur Hrx)
    as (m1 & cur1 & Hrun & Hcur1 & Hm1 & Hp1 & Hd1 & Hmem1 & Hser1 & Hlsr1).
  assert (c + length rx <= length post)%nat as Hbound.
  { assert (length (rx ++ rest) = length (drop c post)) as Hl by now rewrite Hrx.
    rewrite length_app, length_drop in Hl. lia. }
  exists (P + N + (c + length rx))%nat, m1.
  specialize (Hrun []). rewrite app_nil_r in Hrun. rewrite Hrun.
  replace (P + N + (c + length rx) - (P + N + c))%nat with (length rx) by lia.
  rewrite drop_all.
  split; [reflexivity|]. split.
  { apply (progress_after _ cur1); [exact Hbound | exact Hcur1 |].
    repeat split; try apply Hm1; congruence. }
  split; [lia|]. split; [reflexivity | exact Hlsr1].
Qed.

Lemma tick_progress now r c m rx rest :
  progress r c m -> rx ++ rest = drop c stream -> timed_out now m = false ->
  exists r' c' m',
    run_current_state T now (m, rx) = (m', drop (c' - c) rx)
    /\ progress r' c' m'
    /\ (c <= c')%nat /\ (c' - c <= length rx)%nat /\ (r <= r')%nat
    /\ (last_state_reset m' = last_state_reset m \/ last_state_reset m' = now)
    /\ (((c' - c)%nat = length rx /\ r' <> 3%nat) \/ (r < r')%nat)
    /\ ((r < r')%nat -> (c < c')%nat \/ r = 3%nat)
    /\ (r' <= S r)%nat.
Proof.
  intros Hprog Hrx Hquiet.
  destruct Hprog as [c cur m Hc Hcur Hidle | k m Hk Hin | c cur m Hc Hcur Hdone].
  - assert (state m = Some WaitStart) as Hs by apply Hidle.
    rewrite (run_current_state_quiet now m rx WaitStart Hs Hquiet). cbn [dispatch].
    destruct (tick_before now c cur m rx rest Hc Hcur Hidle Hrx)
      as (r' & c' & m' & Hrun & Hp' & H1 & H2 & H3 & H4 & H5 & H6).
    exists r', c', m'. rewrite Hrun.
    split; [reflexivity|]. split; [exact Hp'|]. split; [exact H1|]. split; [exact H2|].
    split; [lia|]. split; [left; exact H3|]. split; [exact H4|].
    split; [|exact H6]. intros Hr. left. now apply H5.
  - assert (state m = Some (phase_of k)) as Hs by apply Hin.
    rewrite (run_current_state_quiet now m rx _ Hs Hquiet).
    destruct (tick_within now k m rx rest Hk Hin Hrx)
      as (r' & c' & m' & Hrun & Hp' & H1 & H2 & H3 & H4 & H5 & H6 & H7).
    exists r', c', m'. rewrite Hrun. repeat split; assumption.
  - assert (state m = Some WaitStart) as Hs by apply Hdone.
    rewrite (run_current_state_quiet now m rx WaitStart Hs Hquiet). cbn [dispatch].
    destruct (tick_after now c cur m rx rest Hc Hcur Hdone Hrx)
      as (c' & m' & Hrun & Hp' & H1 & H2 & H3).
    exists 4%nat, c', m'. rewrite Hrun.
    split; [reflexivity|]. split; [exact Hp'|]. split; [exact H1|]. split; [lia|].
    split; [lia|]. split; [left; exact H3|].
    split; [left; split; [exact H2 | lia] | split; lia].
Qed.

Variable t0 : Z.

Lemma quiet_when_on_time now m last :
  t0 <= last_state_reset m <= last -> last <= now <= t0 + 30000 ->
  timed_out now m = false.
Proof.
  intros Hl Hn. unfold timed_out, to_uint32, READ_TIMEOUT.
  rewrite Z.mod_small by lia. apply Z.ltb_ge. lia.
Qed.

(** The datagram is complete in the buffer after some of the turns. *)
Definition visits_done (turns : list (Z * list Z)) (w : world) : Prop :=
  exists turns1 turns2,
    turns = turns1 ++ turns2 /\ in_datagram N (fst (run T turns1 w)).

Lemma visits_done_now turns m rx : in_datagram N m -> visits_done turns (m, rx).
Proof. intros H. exists [], turns. now split. Qed.

Lemma visits_done_cons turn turns w :
  visits_done turns (loop T w turn) -> visits_done (turn :: turns) w.
Proof.
  intros (t1 & t2 & -> & H). exists (turn :: t1), t2. now split.
Qed.

Lemma visits_done_app_l a b w : visits_done a w -> visits_done (a ++ b) w.
Proof.
  intros (t1 & t2 & -> & H). exists t1, (t2 ++ b). split; [now rewrite app_assoc | exact H].
Qed.

Lemma visits_done_app_r a b w : visits_done b (run T a w) -> visits_done (a ++ b) w.
Proof.
  intros (t1 & t2 & -> & H). exists (a ++ t1), t2.
  split; [now rewrite app_assoc|]. unfold run in *. now rewrite fold_left_app.
Qed.

Lemma progress_done c m : progress 3 c m -> in_datagram N m.
Proof.
  intros H. inversion H as [| k m' Hk Hin Hr |]; subst.
  destruct (Nat.lt_ge_cases k N) as [Hlt|Hge].
  - pose proof (phase_of_not_done k Hlt) as Hnd.
    destruct (phase_of k); cbn in Hr; try discriminate. contradiction.
  - now replace N with k by lia.
Qed.

(** Any turns of [loop()] that bring in a beginning of the stream leave the
    machine where the bytes consumed so far put it; the datagram cannot have
    been processed without having been complete in the buffer first. *)
Lemma run_progress turns : forall r c m rx last,
  progress r c m ->
  rx ++ concat (map snd turns) = drop c stream ->
  on_time last (t0 + 30000) turns ->
  t0 <= last_state_reset m <= last ->
  exists r' c' m',
    run T turns (m, rx) = (m', drop c' stream)
    /\ progress r' c' m'
    /\ t0 <= last_state_reset m' <= last_time last turns
    /\ ((r <= 3)%nat -> r' = 4%nat -> visits_done turns (m, rx)).
Proof.
  induction turns as [|[t arrived] turns IH]; intros r c m rx last Hp Hrx Htime Hlsr.
  - cbn in Hrx. rewrite app_nil_r in Hrx. subst rx.
    exists r, c, m. split; [reflexivity|]. split; [exact Hp|].
    split; [exact Hlsr | lia].
  - cbn [map concat snd] in Hrx. rewrite app_assoc in Hrx.
    cbn [on_time] in Htime. destruct Htime as (Ht & Htime).
    pose proof (quiet_when_on_time t m last Hlsr Ht) as Hquiet.
    destruct (tick_progress t r c m (rx ++ arrived) _ Hp Hrx Hquiet)
      as (r1 & c1 & m1 & Hrun & Hp1 & H1 & H2 & H3 & H4 & _ & _ & H7).
    assert (loop T (m, rx) (t, arrived) = (m1, drop (c1 - c) (rx ++ arrived))) as Hloop
      by exact Hrun.
    destruct (IH r1 c1 m1 (drop (c1 - c) (rx ++ arrived)) t Hp1)
      as (r' & c' & m' & Hrun' & Hp' & Hlsr' & Hvisit);
      [| exact Htime | destruct H4 as [-> | ->]; lia |].
    { rewrite <- (drop_app_le _ _ _ H2), Hrx, drop_drop. f_equal. lia. }
    exists r', c', m'. cbn [run fold_left]. rewrite Hloop.
    split; [exact Hrun'|]. split; [exact Hp'|]. split; [exact Hlsr'|].
    intros Hr Hr'. destruct (Nat.eq_dec r 3%nat) as [->|Hne].
    + apply visits_done_now. now apply (progress_done c).
    + apply visits_done_cons. rewrite Hloop. apply Hvisit; [lia | exact Hr'].
Qed.

(** Once all input is consumed and no datagram waits to be processed,
    further turns without input change nothing of that. *)
Lemma settled_stays t n : forall r c m,
  progress r c m -> drop c stream = [] -> r <> 3%nat ->
  t0 <= last_state_reset m <= t -> t <= t0 + 30000 ->
  exists c' m',
    run T (replicate n (t, [])) (m, drop c stream) = (m', drop c' stream)
    /\ progress r c' m' /\ drop c' stream = [].
Proof.
  induction n as [|n IH]; intros r c m Hp Hnil Hr Hlsr Ht.
  - exists c, m. repeat split; auto.
  - pose proof (quiet_when_on_time t m t Hlsr ltac:(lia)) as Hquiet.
    destruct (tick_progress t r c m (drop c stream) [] Hp (app_nil_r _) Hquiet)
      as (r1 & c1 & m1 & Hrun & Hp1 & H1 & H2 & H3 & H4 & H5 & H6 & H7).
    rewrite Hnil in H2. cbn [length] in H2.
    assert (c1 = c) as -> by lia.
    assert (r1 = r) as ->.
    { destruct (Nat.eq_dec r1 r) as [E|NE]; [exact E|].
      destruct (H6 ltac:(lia)); [lia | contradiction]. }
    cbn [replicate run fold_left]. unfold loop at 2. cbn [fst snd].
    rewrite app_nil_r, Hrun. rewrite Nat.sub_diag, drop_0.
    apply (IH r c m1 Hp1 Hnil Hr); [destruct H4 as [-> | ->]; lia | exact Ht].
Qed.

Lemma idle_ticks t n : forall r c m,
  progress r c m ->
  t0 <= last_state_reset m <= t -> t <= t0 + 30000 ->
  exists r' c' m',
    run T (replicate n (t, [])) (m, drop c stream) = (m', drop c' stream)
    /\ progress r' c' m'
    /\ ((drop c' stream = [] /\ r' <> 3%nat) \/ (r + n <= r')%nat)
    /\ ((r <= 3)%nat -> r' = 4%nat ->
        visits_done (replicate n (t, [])) (m, drop c stream)).
Proof.
  induction n as [|n IH]; intros r c m Hp Hlsr Ht.
  - exists r, c, m. split; [reflexivity|]. split; [exact Hp|]. split; [right; lia | lia].
  - pose proof (quiet_when_on_time t m t Hlsr ltac:(lia)) as Hquiet.
    destruct (tick_progress t r c m (drop c stream) [] Hp (app_nil_r _) Hquiet)
      as (r1 & c1 & m1 & Hrun & Hp1 & H1 & H2 & H3 & H4 & H5 & H6 & H7).
    assert (drop (c1 - c) (drop c stream) = drop c1 stream) as Hdrop
      by (rewrite drop_drop; f_equal; lia).
    assert (t0 <= last_state_reset m1 <= t) as Hlsr1
      by (destruct H4 as [-> | ->]; lia).
    assert (loop T (m, drop c stream) (t, []) = (m1, drop c1 stream)) as Hloop.
    { unfold loop. cbn [fst snd]. now rewrite app_nil_r, Hrun, Hdrop. }
    cbn [replicate run fold_left]. rewrite Hloop.
    destruct H5 as [[Hall Hr1]|Hup].
    + assert (drop c1 stream = []) as Hnil.
      { rewrite <- Hdrop. apply drop_ge. lia. }
      destruct (settled_stays t n r1 c1 m1 Hp1 Hnil Hr1 Hlsr1 Ht)
        as (c' & m' & Hrun' & Hp' & Hnil').
      exists r1, c', m'. split; [exact Hrun'|]. split; [exact Hp'|].
      split; [left; now split|].
      intros Hr Hr'. apply visits_done_now. apply (progress_done c).
      replace 3%nat with r by lia. exact Hp.
    + destruct (IH r1 c1 m1 Hp1 Hlsr1 Ht)
        as (r' & c' & m' & Hrun' & Hp' & Hres & Hvisit).
      exists r', c', m'. split; [exact Hrun'|]. split; [exact Hp'|].
      split; [destruct Hres as [Hs|Hs]; [left; exact Hs | right; lia]|].
      intros Hr Hr'. destruct (Nat.eq_dec r 3%nat) as [->|Hne].
      * apply visits_done_now. now apply (progress_done c).
      * apply visits_done_cons. rewrite Hloop. apply Hvisit; [lia | exact Hr'].
Qed.

Lemma progress_rank r c m : progress r c m -> (r <= 4)%nat.
Proof.
  intros [| k ? ? ? |]; try lia. destruct (phase_of k); cbn; lia.
Qed.

Lemma setup_idle : idle 0 (setup t0 f0).
Proof.
  split; [apply setup_matching|]. split; [reflexivity|].
  split; [|split; reflexivity].
  cbn [setup set_state power_on buffer set_state_pointer set_position
       set_last_state_reset println].
  apply drop_replicate.
Qed.

(** A well-formed datagram that fits the buffer and whose end sequence does
    not occur earlier in it, embedded in a stream between bytes on which the
    scan for the start sequence completes no match and, before the datagram,
    ends with its cursor at zero, when the turns of [loop()] are not spread
    over more than 30 seconds and five turns follow the last arrival: after
    some of the turns the machine is in the state [process_message] with
    exactly the datagram at the start of the buffer; at the end the buffer
    still holds the datagram from offset 8 on, and the register file and the
    serial output are those of [process_message] on the buffer that holds
    the datagram. *)
Lemma datagram_in_stream_on_time turns t_end :
  concat (map snd turns) = pre ++ datagram payload fill ++ post ->
  on_time t0 (t0 + 30000) (turns ++ replicate 5 (t_end, [])) ->
  let all_turns := turns ++ replicate 5 (t_end, []) in
  let w := run T all_turns (setup t0 f0, []) in
  (exists turns1 turns2,
     all_turns = turns1 ++ turns2
     /\ let m := fst (run T turns1 (setup t0 f0, [])) in
        state m = Some Done
        /\ position m = length (datagram payload fill)
        /\ buffer m = datagram payload fill
                      ++ replicate (BUFFER_SIZE - length (datagram payload fill)) 0)
  /\ state (fst w) = Some WaitStart
  /\ snd w = []
  /\ position (fst w) = post_cursor
  /\ drop 8 (buffer (fst w))
     = drop 8 (datagram payload fill)
       ++ replicate (BUFFER_SIZE - length (datagram payload fill)) 0
  /\ memory (fst w) = memory (process_message T 0 assembled)
  /\ serial (fst w) = serial (process_message T 0 assembled).
Proof.
  intros Harrive Htime. fold D in Harrive. fold stream in Harrive. fold D. fold N.
  pose proof D_length as HN.
  destruct (on_time_app _ _ _ _ Htime) as (Hturns & Hidle).
  apply on_time_replicate in Hidle.
  destruct (run_progress turns 0%nat 0%nat (setup t0 f0) [] t0)
    as (r1 & c1 & m1 & Hrun1 & Hp1 & Hlsr1 & Hvisit1); auto.
  { apply (progress_before 0 0%nat); [lia | reflexivity | apply setup_idle]. }
  { cbn [setup set_state last_state_reset set_state_pointer set_position
         set_last_state_reset]. lia. }
  destruct (idle_ticks t_end 5 r1 c1 m1 Hp1)
    as (r' & c' & m' & Hrun' & Hp' & Hres & Hvisit'); [lia | lia |].
  assert (run T (turns ++ replicate 5 (t_end, [])) (setup t0 f0, []) = (m', drop c' stream))
    as Hrun by (unfold run in *; now rewrite fold_left_app, Hrun1, Hrun').
  cbv zeta. rewrite Hrun. cbn [fst snd].
  pose proof (progress_rank _ _ _ Hp') as Hrank.
  pose proof (progress_rank _ _ _ Hp1) as Hrank1.
  destruct Hres as [(Hnil & Hr')|Hbig]; [|lia].
  assert (length stream <= c')%nat as Hall.
  { assert (length (drop c' stream) = 0%nat) as Hl by now rewrite Hnil.
    rewrite length_drop in Hl. lia. }
  assert (length stream = (P + N + length post)%nat) as Hlen
    by (unfold stream, P, N; rewrite !length_app; lia).
  assert (r' = 4%nat ->
          visits_done (turns ++ replicate 5 (t_end, [])) (setup t0 f0, [])) as Hvisit.
  { intros H4. destruct (Nat.eq_dec r1 4%nat) as [E|NE].
    - apply visits_done_app_l. apply Hvisit1; [lia | exact E].
    - apply visits_done_app_r. rewrite Hrun1. apply Hvisit'; [lia | exact H4]. }
  destruct Hp' as [c cur m Hc Hcur Hi | k m Hk Hin | c cur m Hc Hcur Hdone].
  - lia.
  - assert (k = N) as -> by lia. rewrite (phase_of_done N) in Hr' by lia.
    now cbn in Hr'.
  - assert (c = length post) as -> by lia.
    rewrite take_ge, post_idle in Hcur by lia. injection Hcur as <-.
    destruct Hdone as ((Hs & _) & Hpos & Hbuf & Hmem & Hser).
    split.
    { destruct (Hvisit eq_refl) as (turns1 & turns2 & Hsplit & Hin).
      exists turns1, turns2. split; [exact Hsplit|].
      destruct (in_datagram_done _ Hin) as (Hb & Hp & _ & _ & Hst).
      cbv zeta. split; [exact Hst|]. split; [exact Hp | exact Hb]. }
    split; [exact Hs|]. split; [exact Hnil|]. split; [exact Hpos|].
    split; [|split; assumption].
    rewrite Hbuf. cbn [assembled buffer]. apply drop_app_le. unfold N in HN. lia.
Qed.

End OneDatagram.

(** * Further properties of the sketch *)

(** ** When the register file changes *)

Lemma wait_for_start_sequence_memory T now rx : forall m,
  memory (fst (wait_for_start_sequence T now rx m)) = memory m.
Proof.
  induction rx as [|b rx IH]; intros m; [reflexivity|].
  cbn [wait_for_start_sequence]. cbv zeta.
  match goal with |- context [if ?c then (_, _) else _] => destruct c end;
    [reflexivity | now rewrite IH].
Qed.

Lemma read_message_memory T now rx : forall m,
  memory (fst (read_message T now rx m)) = memory m.
Proof.
  induction rx as [|b rx IH]; intros m; [reflexivity|].
  cbn [read_message].
  destruct (position m + 3 =? BUFFER_SIZE)%nat; [apply reset_memory|].
  cbv zeta. destruct (end_sequence_found T _ _); [reflexivity | now rewrite IH].
Qed.

Lemma read_checksum_loop_memory rx : forall m,
  memory (fst (read_checksum_loop rx m)) = memory m.
Proof.
  induction rx as [|b rx IH]; intros m; cbn [read_checksum_loop];
    destruct (0 <? bytes_until_checksum m); try reflexivity.
  cbv zeta. now rewrite IH.
Qed.

Lemma read_checksum_memory now rx m :
  memory (fst (read_checksum now rx m)) = memory m.
Proof.
  unfold read_checksum. pose proof (read_checksum_loop_memory rx m) as H.
  destruct (read_checksum_loop rx m) as [m1 rx1]. cbn [fst] in H.
  now destruct (bytes_until_checksum m1 =? 0).
Qed.

Lemma run_current_state_memory T now m rx :
  memory (fst (run_current_state T now (m, rx))) <> memory m ->
  state m = Some Done /\ timed_out now m = false
  /\ calculated_checksum m = given_checksum T m.
Proof.
  unfold run_current_state.
  destruct (state m) as [s|] eqn:Hs; [|intros H; now contradiction H].
  destruct (timed_out now m) eqn:Hq.
  - rewrite reset_state. intros H. contradiction H.
    now rewrite wait_for_start_sequence_memory, reset_memory.
  - rewrite Hs. destruct s.
    + intros H. contradiction H. apply wait_for_start_sequence_memory.
    + intros H. contradiction H. apply read_message_memory.
    + intros H. contradiction H. apply read_checksum_memory.
    + cbn [fst]. intros H.
      destruct (Z.eqb_spec (calculated_checksum m) (given_checksum T m)) as [E|NE];
        [now repeat split|].
      contradiction H. unfold process_message.
      destruct (Z.eqb_spec (calculated_checksum m) (given_checksum T m)) as [E|_];
        [contradiction|].
      apply reset_memory.
Qed.

(** A turn of [loop()] changes the register file only when it runs
    [process_message] on a buffer whose checksum is right: the state was
    [process_message], the watchdog did not fire, and the CRC of the buffer
    equals the checksum stored in it.  The registers then receive the scaled
    results of the parsing loop.  Bytes that arrive, state changes, time-outs
    and datagrams with a wrong checksum leave the registers as they are. *)
Theorem registers_change_only_for_a_valid_datagram T now m rx :
  memory (fst (run_current_state T now (m, rx))) <> memory m ->
  state m = Some Done /\ timed_out now m = false
  /\ calculated_checksum m = given_checksum T m
  /\ memory (fst (run_current_state T now (m, rx)))
     = Bae910 (scaled T (extracted T m 0)) (scaled T (extracted T m 1))
              (scaled T (extracted T m 2)) (userp (memory m)).
Proof.
  intros H. destruct (run_current_state_memory T now m rx H) as (Hs & Hq & Hok).
  repeat split; auto.
  rewrite (run_current_state_quiet T now m rx Done Hs Hq). cbn [dispatch fst].
  now apply process_message_memory.
Qed.

Lemma registers_change_only_for_a_valid_datagram_witness :
  let m := after_turns reference_target [matched_datagram; []; []] in
  state m = Some Done
  /\ calculated_checksum m = given_checksum reference_target m
  /\ memory (fst (run_current_state reference_target 0 (m, []))) = Bae910 91600 91600 91600 0.
Proof.
  cbv zeta.
  destruct (registers_change_only_for_a_valid_datagram reference_target 0
              (after_turns reference_target [matched_datagram; []; []]) [])
    as (Hs & _ & Hc & Hm).
  - vm_compute. discriminate.
  - split; [exact Hs|]. split; [exact Hc|]. rewrite Hm. vm_compute. reflexivity.
Defined.

(** *** The fourth register *)

(** [m'] differs from [m] in the register file by the first three registers
    at most, and in the serial output by lines that were added, none of them
    the complaint about too many metrics. *)
Definition spares_fourth_slot (m m' : machine) : Prop :=
  userp (memory m') = userp (memory m)
  /\ exists out, serial m' = serial m ++ out
       /\ Forall (fun l => forall n, l <> TooManyMetrics n) out.

Lemma spares_refl m : spares_fourth_slot m m.
Proof. split; [reflexivity|]. exists []. split; [now rewrite app_nil_r | constructor]. Qed.

Lemma spares_trans m1 m2 m3 :
  spares_fourth_slot m1 m2 -> spares_fourth_slot m2 m3 -> spares_fourth_slot m1 m3.
Proof.
  intros (H1 & o1 & Ho1 & Hf1) (H2 & o2 & Ho2 & Hf2).
  split; [congruence|]. exists (o1 ++ o2).
  split; [rewrite Ho2, Ho1; now rewrite app_assoc | now apply Forall_app].
Qed.

Lemma spares_println l m :
  (forall n, l <> TooManyMetrics n) -> spares_fourth_slot m (println l m).
Proof.
  intros Hl. split; [reflexivity|]. exists [l]. split; [reflexivity|].
  constructor; [exact Hl | constructor].
Qed.

Lemma spares_fields m m' :
  memory m' = memory m -> serial m' = serial m -> spares_fourth_slot m m'.
Proof.
  intros Hm Hs. split; [now rewrite Hm|]. exists [].
  split; [now rewrite app_nil_r | constructor].
Qed.

Lemma spares_set_state now s m : spares_fourth_slot m (set_state now s m).
Proof.
  apply (spares_trans _ (println (StateIs s) m)).
  - apply spares_println. discriminate.
  - apply spares_fields; now destruct s.
Qed.

Lemma spares_reset now msg m : spares_fourth_slot m (reset now msg m).
Proof.
  unfold reset. destruct (0 <? String.length msg)%nat.
  - apply (spares_trans _ (println (Message msg) m)); [|apply spares_set_state].
    apply spares_println. discriminate.
  - apply spares_set_state.
Qed.

Lemma spares_wait_for_start_sequence T now rx : forall m,
  spares_fourth_slot m (fst (wait_for_start_sequence T now rx m)).
Proof.
  induction rx as [|b rx IH]; intros m; [apply spares_refl|].
  cbn [wait_for_start_sequence]. cbv zeta.
  match goal with |- context [if ?c then (_, _) else _] => destruct c end.
  - cbn [fst]. eapply spares_trans; [|apply spares_set_state]. now apply spares_fields.
  - eapply spares_trans; [|apply IH]. now apply spares_fields.
Qed.

Lemma spares_read_message T now rx : forall m,
  spares_fourth_slot m (fst (read_message T now rx m)).
Proof.
  induction rx as [|b rx IH]; intros m; [apply spares_refl|].
  cbn [read_message].
  destruct (position m + 3 =? BUFFER_SIZE)%nat; [apply spares_reset|].
  cbv zeta. destruct (end_sequence_found T _ _).
  - cbn [fst]. eapply spares_trans; [|apply spares_set_state]. now apply spares_fields.
  - eapply spares_trans; [|apply IH]. now apply spares_fields.
Qed.

Lemma spares_read_checksum_loop rx : forall m,
  spares_fourth_slot m (fst (read_checksum_loop rx m)).
Proof.
  induction rx as [|b rx IH]; intros m; cbn [read_checksum_loop];
    destruct (0 <? bytes_until_checksum m); try apply spares_refl.
  cbv zeta. eapply spares_trans; [|apply IH]. now apply spares_fields.
Qed.

Lemma spares_read_checksum now rx m :
  spares_fourth_slot m (fst (read_checksum now rx m)).
Proof.
  unfold read_checksum. pose proof (spares_read_checksum_loop rx m) as H.
  destruct (read_checksum_loop rx m) as [m1 rx1]. cbn [fst] in H.
  destruct (bytes_until_checksum m1 =? 0); [|exact H].
  eapply spares_trans; [exact H | apply spares_set_state].
Qed.

Lemma spares_parse_step T st i :
  spares_fourth_slot (snd st) (snd (parse_step T st i)).
Proof.
  destruct st as [values m]. unfold parse_step. cbn [snd].
  destruct (found T m i); cbn [snd]; [|apply spares_refl].
  apply spares_println. discriminate.
Qed.

Lemma spares_publish_step T values m i :
  (i < 4)%nat -> spares_fourth_slot m (publish_step T values m i) \/ i = 3%nat.
Proof.
  intros Hi. destruct i as [|[|[|i]]]; [left..|right; lia];
    (split; [reflexivity|]; eexists [_]; split; [reflexivity|];
     constructor; [discriminate | constructor]).
Qed.

Lemma spares_process_message T now m :
  spares_fourth_slot m (process_message T now m).
Proof.
  unfold process_message. destruct (negb _); [apply spares_reset|].
  unfold parse, publish. change (seq 0 METRIC_LENGTH) with [0; 1; 2]%nat.
  generalize (map (indeterminate T) [0; 1; 2]%nat). intros v0.
  cbn [fold_left].
  pose proof (spares_parse_step T (v0, m) 0) as H0.
  destruct (parse_step T (v0, m) 0) as [v1 m1]. cbn [snd] in H0.
  pose proof (spares_parse_step T (v1, m1) 1) as H1.
  destruct (parse_step T (v1, m1) 1) as [v2 m2]. cbn [snd] in H1.
  pose proof (spares_parse_step T (v2, m2) 2) as H2.
  destruct (parse_step T (v2, m2) 2) as [v3 m3]. cbn [snd] in H2.
  destruct (spares_publish_step T v3 m3 0 ltac:(lia)) as [P0|]; [|lia].
  destruct (spares_publish_step T v3 (publish_step T v3 m3 0) 1 ltac:(lia)) as [P1|]; [|lia].
  destruct (spares_publish_step T v3
              (publish_step T v3 (publish_step T v3 m3 0) 1) 2 ltac:(lia)) as [P2|]; [|lia].
  repeat (eapply spares_trans; [eassumption|]). apply spares_reset.
Qed.

Lemma spares_run_current_state T now m rx :
  spares_fourth_slot m (fst (run_current_state T now (m, rx))).
Proof.
  unfold run_current_state.
  destruct (state m) as [s|] eqn:Hs; [|apply spares_refl].
  set (m1 := if timed_out now m then reset now "" (println ReadTimeout m) else m).
  assert (spares_fourth_slot m m1) as H1.
  { unfold m1. destruct (timed_out now m); [|apply spares_refl].
    eapply spares_trans; [|apply spares_reset]. apply spares_println. discriminate. }
  clearbody m1. eapply spares_trans; [exact H1|].
  destruct (state m1) as [[| | |]|]; cbn [fst].
  - apply spares_wait_for_start_sequence.
  - apply spares_read_message.
  - apply spares_read_checksum.
  - apply spares_process_message.
  - apply spares_refl.
Qed.

(** With three metrics the publishing loop never reaches its fourth slot nor
    its default branch: whatever arrives and whatever the clock does, the
    register [userp] keeps the content it had before [setup()], and the line
    "Error: Num of metrics exceeds ..." is never printed. *)
Theorem fourth_register_is_never_written T t0 f turns :
  let m := fst (run T turns (setup t0 f, [])) in
  userp (memory m) = userp f
  /\ forall n, ~ In (TooManyMetrics n) (serial m).
Proof.
  cbv zeta.
  assert (forall w, spares_fourth_slot (fst w) (fst (run T turns w))) as H.
  { induction turns as [|[now arrived] turns IH]; intros w; [apply spares_refl|].
    cbn [run fold_left]. eapply spares_trans; [|apply IH].
    unfold loop. apply spares_run_current_state. }
  destruct (H (setup t0 f, [])) as (Hu & out & Hout & Hall). cbn [fst] in *.
  split; [exact Hu|]. intros n Hin. rewrite Hout in Hin.
  cbn in Hin. destruct Hin as [E|Hin]; [discriminate|].
  apply list_elem_of_In in Hin.
  rewrite Forall_forall in Hall. exact (Hall _ Hin n eq_refl).
Qed.

(** ** The scan for the start sequence *)

Lemma matching_in_buffer m : matching m -> (position m < length (buffer m))%nat.
Proof.
  intros (_ & Hp & Hl & _). rewrite Hl.
  change START_SEQUENCE_LENGTH with 8%nat in Hp. unfold BUFFER_SIZE. lia.
Qed.

Lemma matching_next m b :
  matching m -> b = START_SEQUENCE !!! position m -> S (position m) <> 8%nat ->
  matching (set_position (S (position m)) (set_buffer (<[position m := b]> (buffer m)) m)).
Proof.
  intros Hm Hb Hp. pose proof (matching_advance m b Hm Hb) as Hadv.
  destruct Hm as (Hs & Hlt & Hl & Ht). change START_SEQUENCE_LENGTH with 8%nat in *.
  repeat split; cbn; [exact Hs | lia | now rewrite length_insert | exact Hadv].
Qed.

Lemma matching_restart m b :
  matching m ->
  matching (set_position 0%nat (set_buffer (<[position m := b]> (buffer m)) m)).
Proof.
  intros (Hs & Hlt & Hl & Ht). change START_SEQUENCE_LENGTH with 8%nat in *.
  repeat split; cbn; [exact Hs | lia | now rewrite length_insert].
Qed.

Lemma take_START_SEQUENCE_snoc p :
  (p < 8)%nat ->
  take p START_SEQUENCE ++ [START_SEQUENCE !!! p] = take (S p) START_SEQUENCE.
Proof.
  intros Hp. symmetry. apply take_S_r. now apply START_SEQUENCE_lookup.
Qed.

(** When the scan hands over to [read_message], the bytes it took from the
    line, preceded by the part of the start sequence that was matched
    before, end with the start sequence; the bytes behind them are left on
    the line.  The scan does not start a datagram on anything else. *)
Theorem start_sequence_match_is_sound T now rx m :
  matching m ->
  state (fst (wait_for_start_sequence T now rx m)) = Some Accumulate ->
  exists used before,
    rx = used ++ snd (wait_for_start_sequence T now rx m)
    /\ take (position m) START_SEQUENCE ++ used = before ++ START_SEQUENCE.
Proof.
  revert m. induction rx as [|b rx IH]; intros m Hm.
  - destruct Hm as (Hs & _). cbn. rewrite Hs. discriminate.
  - pose proof (matching_in_buffer m Hm) as Hlt.
    pose proof Hm as (_ & Hp & _). change START_SEQUENCE_LENGTH with 8%nat in Hp.
    rewrite wait_for_start_sequence_cons by exact Hlt. cbv zeta.
    destruct (Z.eqb_spec b (START_SEQUENCE !!! position m)) as [Eb|Eb].
    + change START_SEQUENCE_LENGTH with 8%nat.
      destruct (Nat.eqb_spec (S (position m)) 8) as [Efull|Efull].
      * intros _. exists [b], []. cbn [snd app]. split; [reflexivity|].
        rewrite Eb, take_START_SEQUENCE_snoc by lia. now rewrite Efull.
      * intros Hacc.
        destruct (IH _ (matching_next m b Hm Eb Efull) Hacc) as (used & before & Hrx & Hend).
        exists (b :: used), before. split; [cbn [app]; now rewrite <- Hrx|].
        cbn [position set_position] in Hend. rewrite <- Hend.
        rewrite <- take_START_SEQUENCE_snoc by lia. rewrite Eb, <- app_assoc. reflexivity.
    + intros Hacc.
      destruct (IH _ (matching_restart m b Hm) Hacc) as (used & before & Hrx & Hend).
      exists (b :: used), (take (position m) START_SEQUENCE ++ b :: before).
      split; [cbn [app]; now rewrite <- Hrx|].
      cbn [position set_position] in Hend.
      change (take 0 START_SEQUENCE) with (@nil Z) in Hend. cbn [app] in Hend.
      rewrite Hend, <- !app_assoc. reflexivity.
Qed.

Lemma start_sequence_match_is_sound_witness :
  exists used before,
    [0x1B; 0x1B; 0x01; 0x01; 0x01; 0x01; 0x76; 0x05]
    = used ++ snd (wait_for_start_sequence reference_target 0
                     [0x1B; 0x1B; 0x01; 0x01; 0x01; 0x01; 0x76; 0x05]
                     (fst (wait_for_start_sequence reference_target 0 [0x00; 0x1B; 0x1B]
                             (setup 0 (Bae910 0 0 0 0)))))
    /\ take 2 START_SEQUENCE ++ used = before ++ START_SEQUENCE.
Proof.
  apply (start_sequence_match_is_sound reference_target 0
           [0x1B; 0x1B; 0x01; 0x01; 0x01; 0x01; 0x76; 0x05]
           (fst (wait_for_start_sequence reference_target 0 [0x00; 0x1B; 0x1B]
                   (setup 0 (Bae910 0 0 0 0))))).
  - repeat split. vm_compute. lia.
  - vm_compute. reflexivity.
Defined.

(** The rest of the start sequence, arriving where the cursor stands,
    completes the match. *)
Lemma wait_for_start_sequence_completes T now rest : forall k m,
  matching m -> (position m + k = 8)%nat ->
  snd (wait_for_start_sequence T now (drop (position m) START_SEQUENCE ++ rest) m) = rest
  /\ state (fst (wait_for_start_sequence T now
                   (drop (position m) START_SEQUENCE ++ rest) m)) = Some Accumulate.
Proof.
  induction k as [|k IH]; intros m Hm Hk.
  - destruct Hm as (_ & Hp & _). change START_SEQUENCE_LENGTH with 8%nat in Hp. lia.
  - pose proof (matching_in_buffer m Hm) as Hlt.
    rewrite (drop_S START_SEQUENCE (START_SEQUENCE !!! position m) (position m))
      by (apply START_SEQUENCE_lookup; change START_SEQUENCE_LENGTH with 8%nat; lia).
    cbn [app]. rewrite wait_for_start_sequence_cons by exact Hlt. cbv zeta.
    rewrite Z.eqb_refl. change START_SEQUENCE_LENGTH with 8%nat.
    destruct (Nat.eqb_spec (S (position m)) 8) as [Efull|Efull].
    + rewrite Efull. cbn [drop app snd fst]. split; reflexivity.
    + apply (IH _ (matching_next m _ Hm eq_refl Efull)). cbn. lia.
Qed.

Lemma start_cursor_clean noise :
  Forall (fun b => b <> 0x1B) noise -> start_cursor 0 noise = Some 0%nat.
Proof.
  induction 1 as [|b noise Hb _ IH]; [reflexivity|].
  cbn [start_cursor]. cbv zeta. change (START_SEQUENCE !!! 0%nat) with 0x1B.
  destruct (Z.eqb_spec b 0x1B) as [E|_]; [contradiction | exact IH].
Qed.

(** A start sequence that comes after bytes none of which is 0x1B is always
    recognised, when the scan began with its cursor at zero: the scan takes
    the noise and the start sequence from the line, leaves what follows, and
    hands over to [read_message] with the start sequence at the beginning of
    the buffer and the position at 8. *)
Theorem start_sequence_after_clean_noise_is_found T now noise rest m :
  matching m -> position m = 0%nat ->
  Forall (fun b => b <> 0x1B) noise ->
  let w := wait_for_start_sequence T now (noise ++ START_SEQUENCE ++ rest) m in
  snd w = rest /\ state (fst w) = Some Accumulate /\ position (fst w) = 8%nat
  /\ take 8 (buffer (fst w)) = START_SEQUENCE
  /\ memory (fst w) = memory m.
Proof.
  intros Hm Hp Hclean. cbv zeta.
  pose proof (start_cursor_clean noise Hclean) as Hcur. rewrite <- Hp in Hcur at 1.
  destruct (wait_for_start_sequence_noise T now noise m 0%nat Hm Hcur)
    as (m1 & Hrun & Hm1 & Hp1 & _ & Hmem1 & _).
  rewrite Hrun.
  destruct (wait_for_start_sequence_completes T now rest 8 m1 Hm1 ltac:(lia)) as (Hrest & Hs).
  rewrite Hp1 in Hrest, Hs. cbn [drop] in Hrest, Hs.
  destruct (wait_for_start_sequence_found T now (START_SEQUENCE ++ rest) m1 Hm1 Hs)
    as (Hpos & Ht & _).
  repeat split; auto. now rewrite wait_for_start_sequence_memory.
Qed.

Lemma start_sequence_after_clean_noise_is_found_witness :
  let w := wait_for_start_sequence reference_target 0
             ([0x00; 0x01; 0x1A] ++ START_SEQUENCE ++ [0x76; 0x05])
             (setup 0 (Bae910 0 0 0 0)) in
  snd w = [0x76; 0x05] /\ state (fst w) = Some Accumulate.
Proof.
  cbv zeta.
  destruct (start_sequence_after_clean_noise_is_found reference_target 0
              [0x00; 0x01; 0x1A] [0x76; 0x05] (setup 0 (Bae910 0 0 0 0)))
    as (H1 & H2 & _).
  - apply setup_matching.
  - reflexivity.
  - repeat constructor; discriminate.
  - split; [exact H1 | exact H2].
Defined.

(** The scan does not look again at the byte that broke a partial match.
    The eight bytes of the start sequence are therefore recognised when they
    arrive with the cursor at zero, and only then: with one to seven bytes
    already matched, the scan swallows the whole start sequence, ends with
    the cursor at zero and keeps waiting. *)
Theorem start_sequence_is_recognised_at_cursor_zero_only T now m :
  matching m ->
  let w := wait_for_start_sequence T now START_SEQUENCE m in
  snd w = []
  /\ (position m = 0%nat -> state (fst w) = Some Accumulate)
  /\ (position m <> 0%nat -> state (fst w) = Some WaitStart /\ position (fst w) = 0%nat).
Proof.
  intros Hm. cbv zeta.
  destruct (Nat.eq_dec (position m) 0%nat) as [E|NE].
  - destruct (wait_for_start_sequence_completes T now [] 8 m Hm ltac:(lia)) as (Hrest & Hs).
    rewrite E in Hrest, Hs. cbn [drop] in Hrest, Hs. rewrite app_nil_r in Hrest, Hs.
    split; [exact Hrest|]. split; [intros _; exact Hs | intros H; contradiction].
  - assert (start_cursor (position m) START_SEQUENCE = Some 0%nat) as Hcur.
    { pose proof Hm as (_ & Hp & _). change START_SEQUENCE_LENGTH with 8%nat in Hp.
      destruct (position m) as [|[|[|[|[|[|[|[|p]]]]]]]]; try lia; reflexivity. }
    destruct (wait_for_start_sequence_noise T now START_SEQUENCE m 0%nat Hm Hcur)
      as (m1 & Hrun & Hm1 & Hp1 & _).
    specialize (Hrun []). rewrite app_nil_r in Hrun. rewrite Hrun. cbn.
    split; [reflexivity|]. split; [intros H; contradiction|].
    intros _. split; [apply Hm1 | exact Hp1].
Qed.

Lemma start_sequence_is_recognised_at_cursor_zero_only_witness :
  let m := fst (wait_for_start_sequence reference_target 0 [0x1B] (setup 0 (Bae910 0 0 0 0))) in
  state (fst (wait_for_start_sequence reference_target 0 START_SEQUENCE
                (setup 0 (Bae910 0 0 0 0)))) = Some Accumulate
  /\ position m = 1%nat
  /\ state (fst (wait_for_start_sequence reference_target 0 START_SEQUENCE m)) = Some WaitStart.
Proof.
  cbv zeta.
  destruct (start_sequence_is_recognised_at_cursor_zero_only reference_target 0
              (setup 0 (Bae910 0 0 0 0)) (setup_matching 0 (Bae910 0 0 0 0)))
    as (_ & Hzero & _).
  destruct (start_sequence_is_recognised_at_cursor_zero_only reference_target 0
              (fst (wait_for_start_sequence reference_target 0 [0x1B]
                      (setup 0 (Bae910 0 0 0 0)))))
    as (_ & _ & Hmissed).
  - repeat split. vm_compute. lia.
  - split; [apply Hzero; reflexivity|]. split; [reflexivity|].
    apply Hmissed. vm_compute. discriminate.
Defined.

(** ** The watchdog and the wrap of the clock *)

(** [millis()] counts modulo 2^32 and starts again at zero after about 49.7
    days.  The watchdog subtracts in [unsigned long]: when [elapsed]
    milliseconds, fewer than 2^32, have passed since the last reset, it fires
    exactly when [elapsed] exceeds 30000, also when the clock wrapped in
    between. *)
Theorem watchdog_measures_elapsed_time_across_the_wrap m elapsed :
  0 <= last_state_reset m < 2 ^ 32 -> 0 <= elapsed < 2 ^ 32 ->
  timed_out (to_uint32 (last_state_reset m + elapsed)) m = (30000 <? elapsed).
Proof.
  intros Hl He. unfold timed_out, to_uint32, READ_TIMEOUT.
  rewrite Zminus_mod_idemp_l.
  replace (last_state_reset m + elapsed - last_state_reset m) with elapsed by lia.
  rewrite Z.mod_small by lia. reflexivity.
Qed.

Lemma watchdog_measures_elapsed_time_across_the_wrap_witness :
  let m := setup (2 ^ 32 - 10000) (Bae910 0 0 0 0) in
  to_uint32 (last_state_reset m + 30001) = 20001
  /\ timed_out 20001 m = true /\ timed_out 20000 m = false.
Proof.
  cbv zeta. split; [reflexivity|].
  pose proof (watchdog_measures_elapsed_time_across_the_wrap
                (setup (2 ^ 32 - 10000) (Bae910 0 0 0 0)) 30001) as H1.
  pose proof (watchdog_measures_elapsed_time_across_the_wrap
                (setup (2 ^ 32 - 10000) (Bae910 0 0 0 0)) 30000) as H2.
  split; [apply H1 | apply H2]; vm_compute; split; congruence.
Defined.

(** ** The checksum and a changed byte *)

Definition is_word16 (c : Z) : Prop := 0 <= c < 2 ^ 16.

Lemma lxor_range n a b : 0 <= n -> 0 <= a < 2 ^ n -> 0 <= b < 2 ^ n -> 0 <= Z.lxor a b < 2 ^ n.
Proof.
  intros Hn Ha Hb. split; [apply Z.lxor_nonneg; lia|].
  destruct (Z.eq_dec (Z.lxor a b) 0) as [->|Hnz]; [apply Z.pow_pos_nonneg; lia|].
  assert (0 < Z.lxor a b) as Hpos by (pose proof (proj2 (Z.lxor_nonneg a b)); lia).
  apply Z.log2_lt_pow2; [exact Hpos|].
  pose proof (Z.log2_lxor a b ltac:(lia) ltac:(lia)) as Hlog.
  assert (forall x, 0 <= x < 2 ^ n -> Z.log2 x < n \/ x = 0) as Hx.
  { intros x Hx. destruct (Z.eq_dec x 0) as [->|]; [now right|].
    left. apply Z.log2_lt_pow2; lia. }
  assert (0 < n).
  { destruct (Z.eq_dec n 0) as [->|]; [|lia].
    change (2 ^ 0) with 1 in *. assert (a = 0) as -> by lia. assert (b = 0) as -> by lia.
    now cbn in Hnz. }
  destruct (Hx a Ha) as [?| ->], (Hx b Hb) as [?| ->];
    cbn [Z.log2] in Hlog; try lia.
Qed.

Lemma testbit_above n c : 0 <= c < 2 ^ n -> 0 <= n -> Z.testbit c n = false.
Proof.
  intros Hc Hn. destruct (Z.eq_dec c 0) as [->|Hnz]; [apply Z.bits_0|].
  apply Z.bits_above_log2; [lia|]. apply Z.log2_lt_pow2; lia.
Qed.

Lemma shiftr1_range c : is_word16 c -> 0 <= Z.shiftr c 1 < 2 ^ 15.
Proof.
  intros Hc. unfold is_word16 in Hc. rewrite Z.shiftr_div_pow2 by lia.
  change (2 ^ 1) with 2. change (2 ^ 16) with (2 * 2 ^ 15) in Hc.
  split; [apply Z.div_pos; lia | apply Z.div_lt_upper_bound; lia].
Qed.

Lemma crc_shift_range c : is_word16 c -> is_word16 (crc_shift c).
Proof.
  intros Hc. pose proof (shiftr1_range c Hc) as Hs. unfold crc_shift, is_word16.
  destruct (Z.testbit c 0).
  - apply lxor_range; [lia | lia | vm_compute; split; congruence].
  - lia.
Qed.

(** The shift of the CRC register can be undone: bit 15 of the result tells
    whether the polynomial was added. *)
Definition crc_unshift (r : Z) : Z :=
  if Z.testbit r 15 then 2 * Z.lxor r 0x8408 + 1 else 2 * r.

Lemma crc_unshift_shift c : is_word16 c -> crc_unshift (crc_shift c) = c.
Proof.
  intros Hc. pose proof (shiftr1_range c Hc) as Hs.
  pose proof (Z.div2_odd c) as Hodd. rewrite Z.div2_spec, <- Z.bit0_odd in Hodd.
  unfold crc_shift, crc_unshift.
  destruct (Z.testbit c 0) eqn:E0; cbn [Z.b2z] in Hodd.
  - rewrite Z.lxor_spec, (testbit_above 15 (Z.shiftr c 1)) by lia.
    change (Z.testbit 0x8408 15) with true. cbn [xorb].
    rewrite Z.lxor_assoc, Z.lxor_nilpotent, Z.lxor_0_r. lia.
  - rewrite (testbit_above 15 (Z.shiftr c 1)) by lia. lia.
Qed.

Lemma crc_shift_inj a b : is_word16 a -> is_word16 b -> crc_shift a = crc_shift b -> a = b.
Proof.
  intros Ha Hb H. rewrite <- (crc_unshift_shift a Ha), <- (crc_unshift_shift b Hb).
  now rewrite H.
Qed.

Lemma crc_shifts_range n c : is_word16 c -> is_word16 (Nat.iter n crc_shift c).
Proof. intros Hc. induction n as [|n IH]; [exact Hc | now apply crc_shift_range]. Qed.

Lemma crc_shifts_inj n a b :
  is_word16 a -> is_word16 b -> Nat.iter n crc_shift a = Nat.iter n crc_shift b -> a = b.
Proof.
  intros Ha Hb. induction n as [|n IH]; [auto|]. cbn [Nat.iter]. intros H.
  apply IH. apply crc_shift_inj; [now apply crc_shifts_range.. | exact H].
Qed.

Lemma byte_is_word16 b : is_byte b -> is_word16 b.
Proof. unfold is_byte, is_word16. change (2 ^ 16) with 65536. lia. Qed.

Lemma lxor_word16 c b : is_word16 c -> is_byte b -> is_word16 (Z.lxor c b).
Proof.
  intros Hc Hb. apply byte_is_word16 in Hb. unfold is_word16 in *.
  now apply lxor_range.
Qed.

Lemma lxor_cancel_l c a b : Z.lxor c a = Z.lxor c b -> a = b.
Proof.
  intros H. rewrite <- (Z.lxor_0_l a), <- (Z.lxor_nilpotent c), Z.lxor_assoc, H.
  now rewrite <- Z.lxor_assoc, Z.lxor_nilpotent, Z.lxor_0_l.
Qed.

Lemma lxor_cancel_r a b c : Z.lxor a c = Z.lxor b c -> a = b.
Proof. rewrite !(Z.lxor_comm _ c). apply lxor_cancel_l. Qed.

Lemma crc_update_range c b : is_word16 c -> is_byte b -> is_word16 (crc_update c b).
Proof. intros Hc Hb. apply crc_shifts_range. now apply lxor_word16. Qed.

Lemma crc_update_inj_byte c x y :
  is_word16 c -> is_byte x -> is_byte y -> crc_update c x = crc_update c y -> x = y.
Proof.
  intros Hc Hx Hy H. apply crc_shifts_inj in H; [|now apply lxor_word16..].
  now apply lxor_cancel_l in H.
Qed.

Lemma crc_update_inj_state a b x :
  is_word16 a -> is_word16 b -> is_byte x -> crc_update a x = crc_update b x -> a = b.
Proof.
  intros Ha Hb Hx H. apply crc_shifts_inj in H; [|now apply lxor_word16..].
  now apply lxor_cancel_r in H.
Qed.

Lemma crc_fold_range data : forall c,
  is_word16 c -> Forall is_byte data -> is_word16 (fold_left crc_update data c).
Proof.
  induction data as [|x data IH]; intros c Hc Hd; [exact Hc|].
  inversion Hd; subst. cbn [fold_left]. apply IH; [now apply crc_update_range | assumption].
Qed.

Lemma crc_fold_inj data : forall a b,
  is_word16 a -> is_word16 b -> Forall is_byte data ->
  fold_left crc_update data a = fold_left crc_update data b -> a = b.
Proof.
  induction data as [|x data IH]; intros a b Ha Hb Hd H; [exact H|].
  inversion Hd; subst. cbn [fold_left] in H.
  apply IH in H; [|now apply crc_update_range..|assumption].
  now apply crc_update_inj_state in H.
Qed.

(** Two inputs of the CRC that differ in one byte have different CRCs. *)
Lemma x25_one_byte before x y after :
  Forall is_byte before -> is_byte x -> is_byte y -> Forall is_byte after ->
  x25 (before ++ x :: after) = x25 (before ++ y :: after) -> x = y.
Proof.
  intros Hb Hx Hy Ha H. unfold x25 in H. apply lxor_cancel_r in H.
  rewrite !fold_left_app in H. cbn [fold_left] in H.
  assert (is_word16 (fold_left crc_update before 0xFFFF)) as Hc
    by (apply crc_fold_range; [vm_compute; split; congruence | exact Hb]).
  apply crc_fold_inj in H; [|now apply crc_update_range..|exact Ha].
  now apply crc_update_inj_byte in H.
Qed.

Lemma x25_range data : Forall is_byte data -> is_word16 (x25 data).
Proof.
  intros Hd. unfold x25, is_word16. apply lxor_range; [lia | | vm_compute; split; congruence].
  apply crc_fold_range; [vm_compute; split; congruence | exact Hd].
Qed.

Lemma Forall_is_byte_check l :
  forallb (fun b => (0 <=? b) && (b <? 256)) l = true -> Forall is_byte l.
Proof.
  intros H. apply Forall_forall. intros b Hb. apply list_elem_of_In in Hb.
  rewrite forallb_forall in H. specialize (H b Hb).
  apply andb_true_iff in H. unfold is_byte. lia.
Qed.

(** A datagram that passes the check does not pass it any more when one of
    its bytes is changed, be it a byte that the CRC covers or one of the two
    checksum bytes: [process_message] then prints the mismatch, publishes
    nothing and leaves the registers alone. *)
Theorem single_changed_byte_is_rejected T now m i b :
  (2 <= position m <= length (buffer m))%nat ->
  Forall is_byte (take (position m) (buffer m)) ->
  calculated_checksum m = given_checksum T m ->
  (i < position m)%nat -> is_byte b -> buffer m !! i <> Some b ->
  let m' := set_buffer (<[i := b]> (buffer m)) m in
  calculated_checksum m' <> given_checksum T m'
  /\ memory (process_message T now m') = memory m
  /\ serial (process_message T now m')
     = serial m ++ [Message "Checksum mismatch, starting over."; StateIs WaitStart].
Proof.
  intros Hp Hbytes Hok Hi Hb Hne. cbv zeta.
  set (p := position m) in *. set (buf := buffer m) in *.
  assert (forall j, (j < p)%nat -> exists v, buf !! j = Some v /\ is_byte v) as Hat.
  { intros j Hj. destruct (lookup_lt_is_Some_2 buf j ltac:(lia)) as (v & Hv).
    exists v. split; [exact Hv|].
    rewrite Forall_forall in Hbytes. apply Hbytes.
    apply (list_elem_of_lookup_2 _ j). now rewrite lookup_take_lt. }
  assert (calculated_checksum (set_buffer (<[i := b]> buf) m)
          <> given_checksum T (set_buffer (<[i := b]> buf) m)) as Hbad.
  { unfold calculated_checksum, given_checksum in *.
    cbn [buffer position set_buffer]. fold p buf in Hok |- *.
    destruct (Hat i Hi) as (x & Hx & Hxb).
    destruct (Hat (p - 1)%nat ltac:(lia)) as (hi & Hhi & Hhib).
    destruct (Hat (p - 2)%nat ltac:(lia)) as (lo & Hlo & Hlob).
    rewrite (peek_lookup T buf _ hi Hhi), (peek_lookup T buf _ lo Hlo) in Hok.
    rewrite lor_shiftl8_byte in Hok by exact Hlob.
    destruct (Nat.lt_ge_cases i (p - 2)) as [Hcov|Htail].
    - rewrite !peek_insert_ne by lia.
      rewrite (peek_lookup T buf _ hi Hhi), (peek_lookup T buf _ lo Hlo).
      rewrite lor_shiftl8_byte by exact Hlob. rewrite <- Hok.
      rewrite take_insert_lt by lia.
      assert (take (p - 2) buf !! i = Some x) as Hxi by now rewrite lookup_take_lt.
      rewrite (insert_take_drop (take (p - 2) buf) i b)
        by (rewrite length_take; lia).
      rewrite <- (take_drop_middle (take (p - 2) buf) i x Hxi) at 3.
      assert (Forall is_byte (take (p - 2) buf)) as Hcovered.
      { replace (take (p - 2) buf) with (take (p - 2) (take p buf))
          by (rewrite take_take; f_equal; lia).
        now apply Forall_take. }
      intros E. apply x25_one_byte in E;
        [| now apply Forall_take | exact Hb | exact Hxb | now apply Forall_drop].
      congruence.
    - rewrite take_insert_ge by lia. rewrite Hok.
      destruct (Nat.eq_dec i (p - 2)%nat) as [->|Hnot].
      + rewrite peek_insert_ne by lia.
        rewrite peek_insert_eq by lia.
        rewrite (peek_lookup T buf _ hi Hhi).
        rewrite !lor_shiftl8_byte by assumption.
        unfold little_endian16. assert (lo <> b) by congruence. lia.
      + assert (i = (p - 1)%nat) as -> by lia.
        rewrite peek_insert_eq by lia. rewrite peek_insert_ne by lia.
        rewrite (peek_lookup T buf _ lo Hlo).
        rewrite !lor_shiftl8_byte by assumption.
        unfold little_endian16. assert (hi <> b) by congruence. lia. }
  split; [exact Hbad|].
  unfold process_message.
  destruct (Z.eqb_spec (calculated_checksum (set_buffer (<[i := b]> buf) m))
                       (given_checksum T (set_buffer (<[i := b]> buf) m))) as [E|_];
    [contradiction|].
  cbn [negb]. split; [now rewrite reset_memory|].
  cbn. now rewrite <- app_assoc.
Qed.

Lemma single_changed_byte_is_rejected_witness :
  let m := after_turns reference_target [example_datagram; []; []] in
  let m' := set_buffer (<[25%nat := 0x95]> (buffer m)) m in
  calculated_checksum m' <> given_checksum reference_target m'
  /\ memory (process_message reference_target 0 m') = memory m.
Proof.
  cbv zeta.
  destruct (single_changed_byte_is_rejected reference_target 0
              (after_turns reference_target [example_datagram; []; []]) 25 0x95)
    as (H1 & H2 & _).
  - vm_compute. lia.
  - apply Forall_is_byte_check. vm_compute. reflexivity.
  - vm_compute. reflexivity.
  - vm_compute. lia.
  - vm_compute. split; congruence.
  - vm_compute. congruence.
  - split; [exact H1 | exact H2].
Defined.

(** ** The sign of a short value *)

Lemma big_endian_fold_range bytes : forall acc,
  Forall is_byte bytes -> 0 <= acc ->
  0 <= fold_left (fun a b => 256 * a + b) bytes acc
    < (acc + 1) * 256 ^ Z.of_nat (length bytes).
Proof.
  induction bytes as [|b bytes IH]; intros acc Hb Hacc.
  - cbn. lia.
  - inversion Hb as [|? ? [Hb0 Hb1] Hb']; subst. cbn [fold_left length].
    destruct (IH (256 * acc + b) Hb' ltac:(lia)) as (H0 & H1).
    split; [exact H0|].
    rewrite Nat2Z.inj_succ, Z.pow_succ_r by lia.
    assert (0 < 256 ^ Z.of_nat (length bytes)) by (apply Z.pow_pos_nonneg; lia).
    nia.
Qed.

(** The value loop shifts the payload bytes into an accumulator that starts
    at zero, and nothing extends the sign afterwards.  A value field with at
    most seven payload bytes is therefore stored as the unsigned number that
    its bytes denote, never as a negative one, whatever its type bits say:
    the two bytes FF FE of a signed 16-bit field are stored as 65534. *)
Theorem short_value_is_never_negative T buf cp :
  let header := peek T buf cp in
  let len := Z.land header 0x0f in
  let payload := bytes_at T buf (S cp) (Z.to_nat (len - 1)) in
  1 <= len <= 8 -> Forall is_byte payload ->
  parse_value T buf cp = big_endian payload
  /\ 0 <= parse_value T buf cp < 256 ^ (len - 1).
Proof.
  intros header len payload Hlen Hbytes.
  assert (length payload = Z.to_nat (len - 1)) as Hn
    by (unfold payload, bytes_at; now rewrite length_map, length_seq).
  pose proof (big_endian_fold_range payload 0 Hbytes ltac:(lia)) as Hrange.
  fold (big_endian payload) in Hrange. rewrite Hn, Z2Nat.id in Hrange by lia.
  assert (256 ^ (len - 1) <= 256 ^ 7) as Hpow by (apply Z.pow_le_mono_r; lia).
  assert (parse_value T buf cp = big_endian payload) as Hvalue.
  { unfold parse_value. fold header. fold len.
    replace len with (Z.of_nat (Z.to_nat (len - 1)) + 1) at 1 by lia.
    rewrite value_loop_runs by lia. fold payload.
    rewrite (fold_shift_or payload 0 0 Hbytes eq_refl). fold (big_endian payload).
    assert (to_int64 (big_endian payload mod 2 ^ 64) = big_endian payload) as Hsmall.
    { rewrite to_int64_mod. unfold to_int64.
      rewrite Z.mod_small by (change (256 ^ 7) with (2 ^ 56) in Hpow; lia). lia. }
    destruct (Z.land header 112 =? 80); [|exact Hsmall].
    now rewrite to_int64_idem. }
  split; [exact Hvalue | rewrite Hvalue; lia].
Qed.

Lemma short_value_is_never_negative_witness :
  parse_value reference_target [0x53; 0xFF; 0xFE] 0 = 65534.
Proof.
  destruct (short_value_is_never_negative reference_target [0x53; 0xFF; 0xFE] 0) as (H & _).
  - vm_compute. split; congruence.
  - apply Forall_is_byte_check. vm_compute. reflexivity.
  - rewrite H. vm_compute. reflexivity.
Defined.

(** ** A well-formed entry *)

(** A field of the list entry: a header whose low nibble is the length of
    the whole field, header included, followed by the payload. *)
Definition tl_field (field : list Z) : Prop :=
  exists header payload,
    field = header :: payload /\ Z.land header 0x0f = Z.of_nat (length field).

Lemma bytes_at_lookup T buf cp n (l : list Z) j :
  bytes_at T buf cp n = l -> (j < n)%nat -> peek T buf (cp + j) = l !!! j.
Proof.
  intros <- Hj. unfold bytes_at. symmetry. apply list_lookup_total_correct.
  rewrite list_lookup_fmap, lookup_seq_lt by exact Hj. reflexivity.
Qed.

Lemma bytes_at_drop T buf cp n (l : list Z) k :
  bytes_at T buf cp n = l -> (k <= n)%nat ->
  bytes_at T buf (cp + k) (n - k) = drop k l.
Proof.
  intros <- Hk. unfold bytes_at. rewrite <- fmap_drop. f_equal.
  apply list_eq. intros i. rewrite lookup_drop.
  destruct (Nat.lt_ge_cases i (n - k)) as [Hi|Hi].
  - rewrite !lookup_seq_lt by lia. f_equal. lia.
  - rewrite !lookup_seq_ge by lia. reflexivity.
Qed.

Lemma tl_field_header field :
  tl_field field ->
  Z.to_nat (Z.land (field !!! 0%nat) 0x0f) = length field /\ (1 <= length field)%nat.
Proof.
  intros (h & payload & -> & Hlen). cbn [lookup_total list_lookup_total].
  rewrite Hlen, Nat2Z.id. cbn [length]. lia.
Qed.

(** The decoder on well-formed input: when the pattern is followed by the
    five fields status, time, unit, scaler and value, each with a header
    whose low nibble is the length of the field, the walk over the fields
    stores the first payload byte of the unit field, the first payload byte
    of the scaler field as a signed 8-bit number, and the payload of the
    value field read as a big-endian number, modulo 2^64 and taken as a
    signed 64-bit number. *)
Theorem well_formed_entry_is_decoded T buf found_at status time unit_field scaler_field
    value_field :
  tl_field status -> tl_field time -> tl_field unit_field -> tl_field scaler_field ->
  tl_field value_field ->
  (2 <= length unit_field)%nat -> (2 <= length scaler_field)%nat ->
  Forall is_byte (tl value_field) ->
  bytes_at T buf (found_at + 8)
    (length (status ++ time ++ unit_field ++ scaler_field ++ value_field))
  = status ++ time ++ unit_field ++ scaler_field ++ value_field ->
  parse_metric T buf found_at 8
  = MetricValue (to_int64 (big_endian (tl value_field)))
                (unit_field !!! 1%nat) (to_int8 (scaler_field !!! 1%nat)).
Proof.
  intros Hstatus Htime Hunit Hscaler Hvalue Hu2 Hs2 Hbytes Hat.
  destruct (tl_field_header _ Hstatus) as (Ls & Ls1).
  destruct (tl_field_header _ Htime) as (Lt & Lt1).
  destruct (tl_field_header _ Hunit) as (Lu & Lu1).
  destruct (tl_field_header _ Hscaler) as (Lc & Lc1).
  destruct (tl_field_header _ Hvalue) as (Lv & Lv1).
  set (all := status ++ time ++ unit_field ++ scaler_field ++ value_field) in *.
  set (cp := (found_at + 8)%nat) in *.
  assert (length all = (length status + length time + length unit_field
                        + length scaler_field + length value_field)%nat) as Hall
    by (unfold all; rewrite !length_app; lia).
  assert (forall j, (j < length all)%nat -> peek T buf (cp + j) = all !!! j) as Hpeek
    by (intros j Hj; now apply (bytes_at_lookup T buf cp (length all))).
  assert (forall j, (j < length status)%nat -> all !!! j = status !!! j) as Hin0
    by (intros j Hj; unfold all; now rewrite lookup_total_app_l).
  assert (forall j, (j < length time)%nat -> all !!! (length status + j)%nat = time !!! j)
    as Hin1.
  { intros j Hj. unfold all. rewrite lookup_total_app_r by lia.
    replace (length status + j - length status)%nat with j by lia.
    now rewrite lookup_total_app_l. }
  assert (forall j, (j < length unit_field)%nat ->
            all !!! (length status + length time + j)%nat = unit_field !!! j) as Hin2.
  { intros j Hj. unfold all. rewrite lookup_total_app_r by lia.
    rewrite lookup_total_app_r by lia.
    replace (length status + length time + j - length status - length time)%nat
      with j by lia.
    now rewrite lookup_total_app_l. }
  assert (forall j, (j < length scaler_field)%nat ->
            all !!! (length status + length time + length unit_field + j)%nat
            = scaler_field !!! j) as Hin3.
  { intros j Hj. unfold all. rewrite lookup_total_app_r by lia.
    rewrite lookup_total_app_r by lia. rewrite lookup_total_app_r by lia.
    replace (length status + length time + length unit_field + j - length status
             - length time - length unit_field)%nat with j by lia.
    now rewrite lookup_total_app_l. }
  assert (drop (length status + length time + length unit_field + length scaler_field) all
          = value_field) as Hin4.
  { unfold all. rewrite <- !Nat.add_assoc.
    rewrite drop_app_add' by reflexivity. rewrite drop_app_add' by reflexivity.
    rewrite drop_app_add' by reflexivity. now rewrite drop_app_length. }
  assert (peek T buf cp = status !!! 0%nat) as P0.
  { rewrite <- (Nat.add_0_r cp). rewrite Hpeek by lia. apply Hin0. lia. }
  assert (peek T buf (cp + length status) = time !!! 0%nat) as P1.
  { rewrite <- (Nat.add_0_r (length status)). rewrite Hpeek by lia. apply Hin1. lia. }
  assert (forall j, (j < length unit_field)%nat ->
            peek T buf (cp + length status + length time + j) = unit_field !!! j) as P2.
  { intros j Hj.
    replace (cp + length status + length time + j)%nat
      with (cp + (length status + length time + j))%nat by lia.
    rewrite Hpeek by lia. now apply Hin2. }
  assert (forall j, (j < length scaler_field)%nat ->
            peek T buf (cp + length status + length time + length unit_field + j)
            = scaler_field !!! j) as P3.
  { intros j Hj.
    replace (cp + length status + length time + length unit_field + j)%nat
      with (cp + (length status + length time + length unit_field + j))%nat by lia.
    rewrite Hpeek by lia. now apply Hin3. }
  unfold parse_metric, parse_header. fold cp. cbv zeta.
  pose proof (P2 0%nat ltac:(lia)) as P2h. rewrite Nat.add_0_r in P2h.
  pose proof (P3 0%nat ltac:(lia)) as P3h. rewrite Nat.add_0_r in P3h.
  rewrite P0, Ls, P1, Lt, P2h, Lu, (P2 1%nat), P3h, Lc, (P3 1%nat) by lia.
  f_equal.
  set (k := (length status + length time + length unit_field + length scaler_field)%nat)
    in *.
  replace (cp + length status + length time + length unit_field
           + length scaler_field)%nat with (cp + k)%nat by lia.
  pose proof (bytes_at_drop T buf cp (length all) all k Hat ltac:(lia)) as Hval.
  rewrite Hin4 in Hval. replace (length all - k)%nat with (length value_field) in Hval by lia.
  destruct Hvalue as (h & payload & -> & Hlen). cbn [tl length] in *.
  rewrite bytes_at_cons in Hval. injection Hval as Hh Hpayload.
  unfold parse_value. rewrite Hh, Hlen.
  replace (Z.of_nat (S (length payload))) with (Z.of_nat (length payload) + 1) by lia.
  assert (length payload <= 254)%nat as Hshort.
  { pose proof (low_nibble_range h) as Hr. rewrite Hlen in Hr. lia. }
  rewrite value_loop_runs by lia.
  rewrite Hpayload, (fold_shift_or payload 0 0 Hbytes eq_refl).
  fold (big_endian payload).
  destruct (Z.land h 112 =? 80).
  - now rewrite to_int64_idem, to_int64_mod.
  - now rewrite to_int64_mod.
Qed.

Lemma well_formed_entry_is_decoded_witness :
  parse_metric reference_target (replicate 8 0 ++ example_fields) 0 8
  = MetricValue 916 0x1E (-1).
Proof.
  rewrite (well_formed_entry_is_decoded reference_target (replicate 8 0 ++ example_fields) 0
             [0x01] [0x01] [0x62; 0x1E] [0x52; 0xFF] [0x54; 0x00; 0x03; 0x94]).
  - vm_compute. reflexivity.
  - exists 0x01, []. split; reflexivity.
  - exists 0x01, []. split; reflexivity.
  - exists 0x62, [0x1E]. split; reflexivity.
  - exists 0x52, [0xFF]. split; reflexivity.
  - exists 0x54, [0x00; 0x03; 0x94]. split; reflexivity.
  - cbn. lia.
  - cbn. lia.
  - apply Forall_is_byte_check. vm_compute. reflexivity.
  - vm_compute. reflexivity.
Defined.

(** ** The loops, one byte at a time

    A turn of [loop()] without time-out runs the loop of one state function.
    [step] is one pass through the body of that loop (or the one call of
    [process_message]); [None] stands for a loop that stops because no byte
    is available.  The state functions are iterations of [step], which
    reduces statements about all turns to statements about one pass. *)

Definition step (T : target) (now : Z) (w : world) : option world :=
  let '(m, rx) := w in
  match state m with
  | None => None
  | Some WaitStart =>
      match rx with
      | [] => None
      | b :: rx' =>
          let m := set_buffer (<[position m := b]> (buffer m)) m in
          let m := set_position
                     (if peek T (buffer m) (position m) =? START_SEQUENCE !!! position m
                      then S (position m) else 0%nat) m in
          Some (if (position m =? START_SEQUENCE_LENGTH)%nat
                then set_state now Accumulate m else m, rx')
      end
  | Some Accumulate =>
      match rx with
      | [] => None
      | b :: rx' =>
          if (position m + 3 =? BUFFER_SIZE)%nat
          then Some (reset now "Buffer will overflow, starting over." m, rx)
          else
            let m := set_position (S (position m))
                       (set_buffer (<[position m := b]> (buffer m)) m) in
            Some (if end_sequence_found T (buffer m) (position m)
                  then set_state now AwaitTail m else m, rx')
      end
  | Some AwaitTail =>
      if 0 <? bytes_until_checksum m then
        match rx with
        | [] => None
        | b :: rx' =>
            let m := set_position (S (position m))
                       (set_buffer (<[position m := b]> (buffer m)) m) in
            let m := set_bytes_until_checksum (to_uint8 (bytes_until_checksum m - 1)) m in
            Some (if bytes_until_checksum m =? 0 then set_state now Done m else m, rx')
        end
      else if bytes_until_checksum m =? 0 then Some (set_state now Done m, rx)
      else None
  | Some Done => Some (process_message T now m, rx)
  end.

Definition state_is (s : state_fn) (m : machine) : bool :=
  match state m with
  | Some s' => state_fn_eqb s' s
  | None => false
  end.

(** Passes through the loop of the state function [s], until the state
    changes or no byte is available. *)
Fixpoint steps_while (fuel : nat) (T : target) (now : Z) (s : state_fn) (w : world) : world :=
  match fuel with
  | O => w
  | S fuel' =>
      match step T now w with
      | None => w
      | Some w' => if state_is s (fst w') then steps_while fuel' T now s w' else w'
      end
  end.

Lemma read_checksum_cons now b rx m :
  0 < bytes_until_checksum m ->
  read_checksum now (b :: rx) m
  = read_checksum now rx
      (set_bytes_until_checksum (to_uint8 (bytes_until_checksum m - 1))
         (set_position (S (position m)) (set_buffer (<[position m := b]> (buffer m)) m))).
Proof.
  intros Hpos. unfold read_checksum. cbn [read_checksum_loop].
  destruct (Z.ltb_spec 0 (bytes_until_checksum m)) as [_|H]; [reflexivity | lia].
Qed.

Lemma read_checksum_stop now rx m :
  bytes_until_checksum m <= 0 ->
  read_checksum now rx m
  = if bytes_until_checksum m =? 0 then (set_state now Done m, rx) else (m, rx).
Proof.
  intros Hle. unfold read_checksum.
  assert (read_checksum_loop rx m = (m, rx)) as ->; [|reflexivity].
  destruct rx; cbn [read_checksum_loop];
    destruct (Z.ltb_spec 0 (bytes_until_checksum m)); try reflexivity; lia.
Qed.

Lemma read_checksum_nil now m :
  0 < bytes_until_checksum m -> read_checksum now [] m = (m, []).
Proof.
  intros Hpos. unfold read_checksum. cbn [read_checksum_loop].
  destruct (Z.ltb_spec 0 (bytes_until_checksum m)) as [_|H]; [|lia].
  destruct (Z.eqb_spec (bytes_until_checksum m) 0); [lia | reflexivity].
Qed.

(** Each state function is the iteration of [step]. *)
Lemma dispatch_steps T s now rx : forall m,
  state m = Some s ->
  dispatch T s now rx m = steps_while (S (length rx)) T now s (m, rx).
Proof.
  destruct s.
  - induction rx as [|b rx IH]; intros m Hs.
    + cbn [dispatch wait_for_start_sequence steps_while step length]. now rewrite Hs.
    + cbn [dispatch] in *. cbn [wait_for_start_sequence length].
      change (steps_while (S (S (length rx))) T now WaitStart (m, b :: rx))
        with (match step T now (m, b :: rx) with
              | None => (m, b :: rx)
              | Some w' => if state_is WaitStart (fst w')
                           then steps_while (S (length rx)) T now WaitStart w' else w'
              end).
      cbn [step]. rewrite Hs. cbv zeta.
      match goal with |- context [if ?c then (_, _) else _] => destruct c end.
      * reflexivity.
      * cbn [fst]. unfold state_is at 1.
        cbn [state set_position set_buffer]. rewrite Hs. cbn [state_fn_eqb].
        apply IH. exact Hs.
  - induction rx as [|b rx IH]; intros m Hs.
    + cbn [dispatch read_message steps_while step length]. now rewrite Hs.
    + cbn [dispatch] in *. cbn [read_message length].
      change (steps_while (S (S (length rx))) T now Accumulate (m, b :: rx))
        with (match step T now (m, b :: rx) with
              | None => (m, b :: rx)
              | Some w' => if state_is Accumulate (fst w')
                           then steps_while (S (length rx)) T now Accumulate w' else w'
              end).
      cbn [step]. rewrite Hs.
      destruct (position m + 3 =? BUFFER_SIZE)%nat.
      * cbn [fst]. unfold state_is. rewrite reset_state. reflexivity.
      * cbv zeta. destruct (end_sequence_found T _ _).
        -- reflexivity.
        -- cbn [fst]. unfold state_is at 1.
           cbn [state set_position set_buffer]. rewrite Hs. cbn [state_fn_eqb].
           apply IH. exact Hs.
  - induction rx as [|b rx IH]; intros m Hs; cbn [dispatch] in *.
    + cbn [steps_while step length]. rewrite Hs.
      destruct (Z.ltb_spec 0 (bytes_until_checksum m)) as [Hpos|Hle].
      * now apply read_checksum_nil.
      * rewrite read_checksum_stop by exact Hle.
        destruct (bytes_until_checksum m =? 0); reflexivity.
    + cbn [length].
      change (steps_while (S (S (length rx))) T now AwaitTail (m, b :: rx))
        with (match step T now (m, b :: rx) with
              | None => (m, b :: rx)
              | Some w' => if state_is AwaitTail (fst w')
                           then steps_while (S (length rx)) T now AwaitTail w' else w'
              end).
      cbn [step]. rewrite Hs.
      destruct (Z.ltb_spec 0 (bytes_until_checksum m)) as [Hpos|Hle].
      * rewrite read_checksum_cons by exact Hpos. cbv zeta.
        cbn [bytes_until_checksum set_position set_buffer set_bytes_until_checksum].
        match goal with |- context [read_checksum now rx ?m1] => set (mm := m1) end.
        assert (bytes_until_checksum mm = to_uint8 (bytes_until_checksum m - 1)) as Hmm
          by reflexivity.
        destruct (Z.eqb_spec (to_uint8 (bytes_until_checksum m - 1)) 0) as [Ez|Ez].
        -- rewrite read_checksum_stop by lia. rewrite Hmm, Ez. reflexivity.
        -- cbn [fst]. unfold state_is at 1.
           replace (state mm) with (state m) by reflexivity.
           rewrite Hs. cbn [state_fn_eqb]. apply IH. exact Hs.
      * rewrite read_checksum_stop by exact Hle.
        destruct (bytes_until_checksum m =? 0); reflexivity.
  - intros m Hs. cbn [dispatch steps_while step]. rewrite Hs.
    cbn [fst]. unfold state_is.
    destruct (process_message_reset T now m) as (-> & _). reflexivity.
Qed.

(** *** Invariants of all turns *)

Section Invariants.

Variable T : target.

(** [I consumed m]: a property of the machine and of the bytes that it has
    taken from the line so far. *)
Variable I : list Z -> machine -> Prop.

Hypothesis I_step : forall now consumed m rx m' rx',
  I consumed m -> step T now (m, rx) = Some (m', rx') ->
  exists used, rx = used ++ rx' /\ I (consumed ++ used) m'.

Hypothesis I_time_out : forall now consumed m,
  I consumed m -> I consumed (reset now "" (println ReadTimeout m)).

Lemma invariant_steps_while fuel now s : forall consumed m rx,
  I consumed m ->
  exists used,
    rx = used ++ snd (steps_while fuel T now s (m, rx))
    /\ I (consumed ++ used) (fst (steps_while fuel T now s (m, rx))).
Proof.
  induction fuel as [|fuel IH]; intros consumed m rx Hm.
  - exists []. cbn. split; [reflexivity | now rewrite app_nil_r].
  - cbn [steps_while].
    destruct (step T now (m, rx)) as [[m1 rx1]|] eqn:Estep.
    + destruct (I_step now consumed m rx m1 rx1 Hm Estep) as (used & Hrx & Hm1).
      destruct (state_is s (fst (m1, rx1))).
      * destruct (IH (consumed ++ used) m1 rx1 Hm1) as (used' & Hrx' & Hm').
        exists (used ++ used'). split.
        -- rewrite Hrx at 1. rewrite Hrx' at 1. now rewrite app_assoc.
        -- now rewrite app_assoc.
      * exists used. cbn [fst snd]. now split.
    + exists []. cbn. split; [reflexivity | now rewrite app_nil_r].
Qed.

Lemma invariant_run_current_state now consumed m rx :
  I consumed m ->
  exists used,
    rx = used ++ snd (run_current_state T now (m, rx))
    /\ I (consumed ++ used) (fst (run_current_state T now (m, rx))).
Proof.
  intros Hm. unfold run_current_state.
  destruct (state m) as [s|] eqn:Hs.
  - set (m1 := if timed_out now m then reset now "" (println ReadTimeout m) else m).
    assert (I consumed m1) as Hm1
      by (unfold m1; destruct (timed_out now m); [now apply I_time_out | exact Hm]).
    assert (state m1 <> None) as Hs1.
    { unfold m1. destruct (timed_out now m); [now rewrite reset_state | congruence]. }
    clearbody m1.
    destruct (state m1) as [s1|] eqn:Es1; [|contradiction].
    pose proof (dispatch_steps T s1 now rx m1 Es1) as Hd.
    destruct s1; cbn [dispatch] in Hd; rewrite Hd;
    now apply invariant_steps_while.
  - exists []. cbn. split; [reflexivity | now rewrite app_nil_r].
Qed.

Lemma invariant_run turns : forall consumed w,
  I consumed (fst w) ->
  exists consumed',
    consumed ++ snd w ++ concat (map snd turns) = consumed' ++ snd (run T turns w)
    /\ I consumed' (fst (run T turns w)).
Proof.
  induction turns as [|[now arrived] turns IH]; intros consumed w Hw.
  - exists consumed. cbn. split; [now rewrite app_nil_r | exact Hw].
  - cbn [run fold_left map concat snd]. unfold loop at 2.
    destruct (invariant_run_current_state now consumed (fst w) (snd w ++ arrived) Hw)
      as (used & Hrx & Hw1).
    set (w1 := run_current_state T now (fst w, snd w ++ arrived)) in *.
    destruct (IH (consumed ++ used) w1 Hw1) as (consumed' & Hall & Hend).
    exists consumed'. split; [|exact Hend].
    change (fold_left (loop T) turns w1) with (run T turns w1). rewrite <- Hall.
    rewrite (app_assoc (snd w) arrived), Hrx, <- !app_assoc. reflexivity.
Qed.

End Invariants.

(** ** What is in the buffer *)

Lemma take_S_insert_snoc (buf : list Z) p b :
  (p < length buf)%nat -> take (S p) (<[p := b]> buf) = take p buf ++ [b].
Proof.
  intros Hp. rewrite (take_S_r _ p b) by now apply list_lookup_insert_eq.
  now rewrite take_insert_ge by lia.
Qed.

Lemma end_sequence_found_insert T buf i b j :
  (1 <= j <= i)%nat ->
  end_sequence_found T (<[i := b]> buf) j = end_sequence_found T buf j.
Proof.
  intros Hj. rewrite !end_sequence_found_peek.
  now rewrite !peek_insert_ne by lia.
Qed.

(** The backward comparison in [read_message] succeeds at [j] exactly when
    the five bytes before [j] are the end sequence. *)
Lemma end_sequence_found_window_eq T buf j :
  (5 <= j <= length buf)%nat ->
  end_sequence_found T buf j = true <-> take 5 (drop (j - 5) buf) = END_SEQUENCE.
Proof.
  intros Hj. rewrite end_sequence_found_peek.
  assert (forall k, (1 <= k <= 5)%nat -> exists v, buf !! (j - k)%nat = Some v) as Hv
    by (intros k Hk; apply lookup_lt_is_Some_2; lia).
  destruct (Hv 5%nat ltac:(lia)) as (v5 & H5), (Hv 4%nat ltac:(lia)) as (v4 & H4),
    (Hv 3%nat ltac:(lia)) as (v3 & H3), (Hv 2%nat ltac:(lia)) as (v2 & H2),
    (Hv 1%nat ltac:(lia)) as (v1 & H1).
  rewrite (peek_lookup T _ _ _ H5), (peek_lookup T _ _ _ H4), (peek_lookup T _ _ _ H3),
    (peek_lookup T _ _ _ H2), (peek_lookup T _ _ _ H1).
  assert (take 5 (drop (j - 5) buf) = [v5; v4; v3; v2; v1]) as ->.
  { apply list_eq. intros i.
    destruct (Nat.lt_ge_cases i 5) as [Hi|Hi].
    - rewrite lookup_take_lt, lookup_drop by lia.
      destruct i as [|[|[|[|[|i]]]]]; try lia; cbn [lookup list_lookup];
        [replace (j - 5 + 0)%nat with (j - 5)%nat by lia
        |replace (j - 5 + 1)%nat with (j - 4)%nat by lia
        |replace (j - 5 + 2)%nat with (j - 3)%nat by lia
        |replace (j - 5 + 3)%nat with (j - 2)%nat by lia
        |replace (j - 5 + 4)%nat with (j - 1)%nat by lia]; assumption.
    - rewrite lookup_take_ge by lia. symmetry. apply lookup_ge_None_2. cbn. lia. }
  unfold END_SEQUENCE. rewrite !andb_true_iff, !Z.eqb_eq. split.
  - intros ((((-> & ->) & ->) & ->) & ->). reflexivity.
  - intros H. injection H as -> -> -> -> ->. repeat split.
Qed.

(** Where [read_message] finds the end sequence, it stands at least five
    bytes behind the start sequence. *)
Lemma end_sequence_found_position T buf pos :
  take 8 buf = START_SEQUENCE -> (9 <= pos)%nat ->
  end_sequence_found T buf pos = true -> (13 <= pos)%nat.
Proof.
  intros Ht Hpos Hend.
  destruct (Nat.le_gt_cases 13 pos) as [H|H]; [exact H|exfalso].
  rewrite end_sequence_found_peek in Hend.
  assert (forall j, (4 <= j < 8)%nat -> peek T buf j = 1) as Hone.
  { intros j Hj.
    rewrite (peek_of_take_eq T buf START_SEQUENCE 8 j) by (auto; cbn; lia).
    destruct j as [|[|[|[|[|[|[|[|j]]]]]]]]; try lia; reflexivity. }
  rewrite (Hone (pos - 5)%nat) in Hend by lia. discriminate.
Qed.

Section Frame.

Variable T : target.

(** What holds of the machine and of the bytes it has taken from the line,
    after [setup()] and after every pass through a loop. *)
Definition frame_invariant (consumed : list Z) (m : machine) : Prop :=
  length (buffer m) = BUFFER_SIZE
  /\ (exists before, consumed = before ++ take (position m) (buffer m))
  /\ match state m with
     | Some WaitStart =>
         (position m < 8)%nat
         /\ take (position m) (buffer m) = take (position m) START_SEQUENCE
     | Some Accumulate =>
         (8 <= position m <= 3837)%nat /\ take 8 (buffer m) = START_SEQUENCE
         /\ forall j, (9 <= j <= position m)%nat ->
                      end_sequence_found T (buffer m) j = false
     | Some AwaitTail =>
         1 <= bytes_until_checksum m <= 3
         /\ (13 <= position m)%nat
         /\ 16 <= Z.of_nat (position m) + bytes_until_checksum m <= 3840
         /\ take 8 (buffer m) = START_SEQUENCE
         /\ forall j, (9 <= j)%nat ->
              Z.of_nat j + 3 <= Z.of_nat (position m) + bytes_until_checksum m ->
              end_sequence_found T (buffer m) j
              = (Z.of_nat j + 3 =? Z.of_nat (position m) + bytes_until_checksum m)
     | Some Done =>
         (16 <= position m <= 3840)%nat /\ take 8 (buffer m) = START_SEQUENCE
         /\ forall j, (9 <= j)%nat -> (j + 3 <= position m)%nat ->
              end_sequence_found T (buffer m) j = (j + 3 =? position m)%nat
     | None => False
     end.

Lemma frame_invariant_restart now msg consumed m :
  length (buffer m) = BUFFER_SIZE -> frame_invariant consumed (reset now msg m).
Proof.
  intros Hl. unfold frame_invariant.
  rewrite reset_state, reset_position, reset_buffer.
  split; [exact Hl|]. split; [exists consumed; cbn; now rewrite app_nil_r|].
  split; [lia | reflexivity].
Qed.

Lemma frame_invariant_time_out now consumed m :
  frame_invariant consumed m ->
  frame_invariant consumed (reset now "" (println ReadTimeout m)).
Proof. intros (Hl & _). now apply frame_invariant_restart. Qed.

Lemma frame_invariant_step now consumed m rx m' rx' :
  frame_invariant consumed m -> step T now (m, rx) = Some (m', rx') ->
  exists used, rx = used ++ rx' /\ frame_invariant (consumed ++ used) m'.
Proof.
  intros (Hl & (before & Hcons) & Hst) Hstep. unfold step in Hstep.
  destruct (state m) as [[| | |]|] eqn:Hs; [| | | |discriminate].
  - destruct rx as [|b rx]; [discriminate|]. cbv zeta in Hstep.
    destruct Hst as (Hp & Ht).
    assert (position m < length (buffer m))%nat as Hlt by (rewrite Hl; unfold BUFFER_SIZE; lia).
    cbn [buffer position set_buffer set_position] in Hstep.
    rewrite peek_insert_eq in Hstep by exact Hlt.
    exists [b]. split; [injection Hstep as _ <-; reflexivity|].
    destruct (Z.eqb_spec b (START_SEQUENCE !!! position m)) as [Eb|Eb].
    + assert (take (S (position m)) (<[position m := b]> (buffer m))
              = take (S (position m)) START_SEQUENCE) as Hadv.
      { rewrite take_S_insert_snoc by exact Hlt. rewrite Ht, Eb.
        apply take_START_SEQUENCE_snoc. lia. }
      assert (consumed ++ [b]
              = before ++ take (S (position m)) (<[position m := b]> (buffer m))) as Hc.
      { rewrite take_S_insert_snoc by exact Hlt. rewrite Hcons, <- app_assoc. reflexivity. }
      change START_SEQUENCE_LENGTH with 8%nat in Hstep.
      destruct (Nat.eqb_spec (S (position m)) 8) as [Efull|Efull];
        injection Hstep as <- _.
      * unfold frame_invariant. cbn [set_state set_state_pointer println state position buffer
                                     set_position set_buffer].
        rewrite length_insert. split; [exact Hl|]. split; [now exists before|].
        rewrite Efull in Hadv |- *. split; [lia|]. split; [exact Hadv|].
        intros j Hj. lia.
      * unfold frame_invariant. cbn [state position buffer set_position set_buffer].
        rewrite length_insert, Hs. split; [exact Hl|]. split; [now exists before|].
        split; [lia | exact Hadv].
    + change (0 =? START_SEQUENCE_LENGTH)%nat with false in Hstep.
      injection Hstep as <- _.
      unfold frame_invariant. cbn [state position buffer set_position set_buffer].
      rewrite length_insert, Hs. split; [exact Hl|].
      split; [exists (consumed ++ [b]); cbn; now rewrite app_nil_r|].
      split; [lia | reflexivity].
  - destruct rx as [|b rx]; [discriminate|].
    destruct Hst as (Hp & Ht & Hnone).
    destruct (Nat.eqb_spec (position m + 3) BUFFER_SIZE) as [Efull|Efull].
    + injection Hstep as <- <-. exists []. split; [reflexivity|].
      rewrite app_nil_r. now apply frame_invariant_restart.
    + unfold BUFFER_SIZE in Efull. cbv zeta in Hstep.
      cbn [buffer position set_buffer set_position] in Hstep.
      assert (position m < length (buffer m))%nat as Hlt by (rewrite Hl; unfold BUFFER_SIZE; lia).
      exists [b]. split; [injection Hstep as _ <-; reflexivity|].
      assert (consumed ++ [b]
              = before ++ take (S (position m)) (<[position m := b]> (buffer m))) as Hc.
      { rewrite take_S_insert_snoc by exact Hlt. rewrite Hcons, <- app_assoc. reflexivity. }
      assert (take 8 (<[position m := b]> (buffer m)) = START_SEQUENCE) as Ht'
        by (rewrite take_insert_ge by lia; exact Ht).
      assert (forall j, (9 <= j <= position m)%nat ->
                end_sequence_found T (<[position m := b]> (buffer m)) j = false) as Hnone'.
      { intros j Hj. rewrite end_sequence_found_insert by lia. now apply Hnone. }
      destruct (end_sequence_found T (<[position m := b]> (buffer m)) (S (position m)))
        eqn:Eend; injection Hstep as <- _.
      * assert (9 <= S (position m))%nat as H9 by lia.
        pose proof (end_sequence_found_position T _ _ Ht' H9 Eend) as H13.
        unfold frame_invariant.
        cbn [set_state set_state_pointer println state position buffer
             set_position set_buffer bytes_until_checksum set_bytes_until_checksum].
        rewrite length_insert. split; [exact Hl|]. split; [now exists before|].
        split; [lia|]. split; [lia|]. split; [lia|]. split; [exact Ht'|].
        intros j Hj Hle.
        destruct (Z.eqb_spec (Z.of_nat j + 3) (Z.of_nat (S (position m)) + 3)) as [E|E].
        -- replace j with (S (position m)) by lia. exact Eend.
        -- apply Hnone'. lia.
      * unfold frame_invariant. cbn [state position buffer set_position set_buffer].
        rewrite length_insert, Hs. split; [exact Hl|]. split; [now exists before|].
        split; [lia|]. split; [exact Ht'|].
        intros j Hj. destruct (Nat.eq_dec j (S (position m))) as [->|Hne];
          [exact Eend | apply Hnone'; lia].
  - destruct Hst as (Hb & Hp & Hsum & Ht & Hend).
    destruct (Z.ltb_spec 0 (bytes_until_checksum m)) as [_|Hle]; [|lia].
    destruct rx as [|b rx]; [discriminate|]. cbv zeta in Hstep.
    cbn [buffer position bytes_until_checksum set_buffer set_position
         set_bytes_until_checksum] in Hstep.
    assert (to_uint8 (bytes_until_checksum m - 1) = bytes_until_checksum m - 1) as Hdec
      by (unfold to_uint8; apply Z.mod_small; lia).
    rewrite Hdec in Hstep.
    assert (position m < length (buffer m))%nat as Hlt by (rewrite Hl; unfold BUFFER_SIZE; lia).
    exists [b]. split; [injection Hstep as _ <-; reflexivity|].
    assert (consumed ++ [b]
            = before ++ take (S (position m)) (<[position m := b]> (buffer m))) as Hc.
    { rewrite take_S_insert_snoc by exact Hlt. rewrite Hcons, <- app_assoc. reflexivity. }
    assert (take 8 (<[position m := b]> (buffer m)) = START_SEQUENCE) as Ht'
      by (rewrite take_insert_ge by lia; exact Ht).
    assert (forall j, (9 <= j)%nat ->
              Z.of_nat j + 3 <= Z.of_nat (position m) + bytes_until_checksum m ->
              end_sequence_found T (<[position m := b]> (buffer m)) j
              = (Z.of_nat j + 3 =? Z.of_nat (position m) + bytes_until_checksum m)) as Hend'.
    { intros j Hj Hle. rewrite end_sequence_found_insert by lia. now apply Hend. }
    destruct (Z.eqb_spec (bytes_until_checksum m - 1) 0) as [Ez|Ez];
      injection Hstep as <- _.
    + unfold frame_invariant.
      cbn [set_state set_state_pointer println state position buffer
           set_position set_buffer bytes_until_checksum set_bytes_until_checksum].
      rewrite length_insert. split; [exact Hl|]. split; [now exists before|].
      split; [lia|]. split; [exact Ht'|].
      intros j Hj Hle. rewrite Hend' by lia.
      destruct (Z.eqb_spec (Z.of_nat j + 3) (Z.of_nat (position m) + bytes_until_checksum m)),
        (Nat.eqb_spec (j + 3) (S (position m))); try reflexivity; lia.
    + unfold frame_invariant.
      cbn [state position buffer set_position set_buffer bytes_until_checksum
           set_bytes_until_checksum].
      rewrite length_insert, Hs. split; [exact Hl|]. split; [now exists before|].
      split; [lia|]. split; [lia|]. split; [lia|]. split; [exact Ht'|].
      intros j Hj Hle.
      replace (Z.of_nat (S (position m)) + (bytes_until_checksum m - 1))
        with (Z.of_nat (position m) + bytes_until_checksum m) in * by lia.
      now apply Hend'.
  - injection Hstep as <- <-. exists []. split; [reflexivity|].
    rewrite app_nil_r.
    destruct (process_message_reset T now m) as (H1 & H2 & _).
    unfold frame_invariant. rewrite H1, H2, process_message_buffer.
    split; [exact Hl|]. split; [exists consumed; cbn; now rewrite app_nil_r|].
    split; [lia | reflexivity].
Qed.

Lemma frame_invariant_setup t0 f : frame_invariant [] (setup t0 f).
Proof.
  split; [reflexivity|]. split; [now exists []|]. cbn. split; [lia | reflexivity].
Qed.

Lemma frame_invariant_run t0 f turns :
  exists consumed,
    concat (map snd turns) = consumed ++ snd (run T turns (setup t0 f, []))
    /\ frame_invariant consumed (fst (run T turns (setup t0 f, []))).
Proof.
  exact (invariant_run T frame_invariant frame_invariant_step frame_invariant_time_out
           turns [] (setup t0 f, []) (frame_invariant_setup t0 f)).
Qed.

End Frame.

(** In every state that the machine can reach from [setup()], for any input
    and any clock, the position lies where the next access of that state is
    inside the buffer: a byte that is stored goes to an index below 3840
    (below 8 while waiting, at most 3836 while accumulating, at most 3839
    in the tail), the backward comparison with the end sequence starts at
    index 4 or later, and a datagram that is processed has at least 16
    bytes, so that the two checksum bytes and the range of the CRC lie in
    the received part.  The state pointer is never NULL again. *)
Theorem position_stays_within_the_buffer T t0 f turns :
  let m := fst (run T turns (setup t0 f, [])) in
  length (buffer m) = BUFFER_SIZE
  /\ match state m with
     | Some WaitStart => (position m < 8)%nat
     | Some Accumulate => (8 <= position m <= 3837)%nat
     | Some AwaitTail =>
         (13 <= position m)%nat /\ 1 <= bytes_until_checksum m <= 3
         /\ 16 <= Z.of_nat (position m) + bytes_until_checksum m <= 3840
     | Some Done => (16 <= position m <= 3840)%nat
     | None => False
     end.
Proof.
  cbv zeta. destruct (frame_invariant_run T t0 f turns) as (consumed & _ & Hl & _ & Hst).
  split; [exact Hl|].
  destruct (state (fst (run T turns (setup t0 f, [])))) as [[| | |]|]; tauto.
Qed.

(** At any moment, for any input and any clock, the bytes in front of the
    position are the bytes that were taken from the line last, in their
    order, and the bytes that were not taken yet are still on the line:
    everything that has arrived is some earlier bytes, then the content of
    the buffer up to the position, then the unread rest.  Within a datagram
    nothing is lost, repeated or reordered. *)
Theorem buffer_holds_the_latest_input T t0 f turns :
  let w := run T turns (setup t0 f, []) in
  exists before,
    concat (map snd turns)
    = before ++ take (position (fst w)) (buffer (fst w)) ++ snd w.
Proof.
  cbv zeta.
  destruct (frame_invariant_run T t0 f turns) as (consumed & Hall & _ & (before & Hc) & _).
  exists before. rewrite Hall, Hc, <- app_assoc. reflexivity.
Qed.

Lemma frame_shape T consumed m :
  frame_invariant T consumed m -> state m = Some Done ->
  exists body tail,
    take (position m) (buffer m) = START_SEQUENCE ++ body ++ END_SEQUENCE ++ tail
    /\ length tail = 3%nat
    /\ forall j, (j < 8 + length body)%nat ->
                 take 5 (drop j (buffer m)) <> END_SEQUENCE.
Proof.
  intros (Hl & _ & Hst) Hs.
  rewrite Hs in Hst. destruct Hst as (Hp & Ht & Hend).
  set (p := position m) in *. set (buf := buffer m) in *.
  assert (take 5 (drop (p - 8) buf) = END_SEQUENCE) as Hlast.
  { replace (p - 8)%nat with (p - 3 - 5)%nat by lia.
    apply (end_sequence_found_window_eq T); [rewrite Hl; unfold BUFFER_SIZE; lia|].
    rewrite Hend by lia. apply Nat.eqb_eq. lia. }
  exists (take (p - 16) (drop 8 buf)), (take 3 (drop (p - 3) buf)).
  assert (length (take (p - 16) (drop 8 buf)) = (p - 16)%nat) as Hbody
    by (rewrite length_take, length_drop, Hl; unfold BUFFER_SIZE; lia).
  split; [|split].
  - rewrite <- Ht, <- Hlast.
    apply list_eq. intros i.
    destruct (Nat.lt_ge_cases i p) as [Hi|Hi].
    + rewrite lookup_take_lt by lia.
      destruct (Nat.lt_ge_cases i 8) as [H8|H8].
      { rewrite lookup_app_l by (rewrite length_take, Hl; unfold BUFFER_SIZE; lia).
        now rewrite lookup_take_lt. }
      rewrite lookup_app_r by (rewrite length_take, Hl; unfold BUFFER_SIZE; lia).
      rewrite length_take, Hl.
      replace (8 `min` BUFFER_SIZE)%nat with 8%nat by (unfold BUFFER_SIZE; lia).
      destruct (Nat.lt_ge_cases i (p - 8)) as [Hb|Hb].
      { rewrite lookup_app_l by lia. rewrite lookup_take_lt, lookup_drop by lia.
        f_equal. lia. }
      rewrite lookup_app_r by lia. rewrite Hbody.
      destruct (Nat.lt_ge_cases i (p - 3)) as [He|He].
      { rewrite lookup_app_l
          by (rewrite length_take, length_drop, Hl; unfold BUFFER_SIZE; lia).
        rewrite lookup_take_lt, lookup_drop by lia. f_equal. lia. }
      rewrite lookup_app_r
        by (rewrite length_take, length_drop, Hl; unfold BUFFER_SIZE; lia).
      rewrite length_take, length_drop, Hl.
      replace (5 `min` (BUFFER_SIZE - (p - 8)))%nat with 5%nat by (unfold BUFFER_SIZE; lia).
      rewrite lookup_take_lt, lookup_drop by lia. f_equal. lia.
    + rewrite lookup_take_ge by lia. symmetry. apply lookup_ge_None_2.
      rewrite !length_app, !length_take, !length_drop, Hl. unfold BUFFER_SIZE. lia.
  - rewrite length_take, length_drop, Hl. unfold BUFFER_SIZE. lia.
  - rewrite Hbody. intros j Hj Hwin.
    destruct (Nat.lt_ge_cases j 4) as [H4|H4].
    + assert (buf !! 4%nat = Some 0x01) as H01
        by (rewrite <- (lookup_take_lt buf 8 4), Ht by lia; reflexivity).
      assert (take 5 (drop j buf) !! (4 - j)%nat = Some 0x01) as Hx.
      { rewrite lookup_take_lt, lookup_drop by lia.
        replace (j + (4 - j))%nat with 4%nat by lia. exact H01. }
      rewrite Hwin in Hx.
      destruct j as [|[|[|[|j]]]]; try lia; discriminate.
    + assert (end_sequence_found T buf (j + 5) = true) as Hfound.
      { apply end_sequence_found_window_eq; [rewrite Hl; unfold BUFFER_SIZE; lia|].
        now replace (j + 5 - 5)%nat with j by lia. }
      rewrite Hend in Hfound by lia. apply Nat.eqb_eq in Hfound. lia.
Qed.


(** Whenever [process_message] is about to run, for any input and any
    clock, the received bytes are a frame: the start sequence, a body, the
    end sequence and three more bytes, where the end sequence at the end is
    the first one in the buffer.  In particular the five bytes of an end
    sequence inside a datagram end it early. *)
Theorem processed_bytes_are_a_frame T t0 f turns :
  let m := fst (run T turns (setup t0 f, [])) in
  state m = Some Done ->
  exists body tail,
    take (position m) (buffer m) = START_SEQUENCE ++ body ++ END_SEQUENCE ++ tail
    /\ length tail = 3%nat
    /\ forall j, (j < 8 + length body)%nat ->
                 take 5 (drop j (buffer m)) <> END_SEQUENCE.
Proof.
  cbv zeta. intros Hs.
  destruct (frame_invariant_run T t0 f turns) as (consumed & _ & Hinv).
  now apply (frame_shape T consumed).
Qed.

Lemma processed_bytes_are_a_frame_witness :
  let m := after_turns reference_target [example_datagram; []; []] in
  exists body tail,
    take (position m) (buffer m) = START_SEQUENCE ++ body ++ END_SEQUENCE ++ tail
    /\ length tail = 3%nat
    /\ forall j, (j < 8 + length body)%nat ->
                 take 5 (drop j (buffer m)) <> END_SEQUENCE.
Proof.
  apply (processed_bytes_are_a_frame reference_target 0 (Bae910 0 0 0 0)
           (map (fun a => (0, a)) [example_datagram; []; []])).
  vm_compute. reflexivity.
Defined.

(** End to end: whenever a turn of [loop()] changes the register file, for
    any input and any clock, the bytes that were taken from the line last
    are a frame (start sequence, body, end sequence, one more byte and two
    checksum bytes) that stood on the line in one piece, and the CRC-16/X-25
    of the frame without its last two bytes is the number that these two
    bytes give, low byte first.  Nothing else makes the sketch publish. *)
Theorem registers_change_only_for_a_frame_on_the_line T t0 f turns turn :
  let w := run T turns (setup t0 f, []) in
  memory (fst (loop T w turn)) <> memory (fst w) ->
  exists before body fill lo hi,
    concat (map snd turns)
    = before ++ (START_SEQUENCE ++ body ++ END_SEQUENCE ++ [fill; lo; hi]) ++ snd w
    /\ x25 (START_SEQUENCE ++ body ++ END_SEQUENCE ++ [fill]) = Z.lor (Z.shiftl hi 8) lo.
Proof.
  cbv zeta. destruct turn as [now arrived]. unfold loop. intros Hchanged.
  destruct (run_current_state_memory T now _ _ Hchanged) as (Hs & _ & Hok).
  destruct (frame_invariant_run T t0 f turns) as (consumed & Hall & Hinv).
  set (w := run T turns (setup t0 f, [])) in *.
  destruct (frame_shape T consumed (fst w) Hinv Hs) as (body & tail & Hframe & Htail & _).
  destruct Hinv as (Hl & (before & Hcons) & Hst). rewrite Hs in Hst.
  destruct Hst as (Hp & _).
  destruct tail as [|fill [|lo [|hi [|x tail]]]]; try discriminate.
  set (covered := START_SEQUENCE ++ body ++ END_SEQUENCE ++ [fill]).
  assert (take (position (fst w)) (buffer (fst w)) = covered ++ [lo; hi]) as Hsplit
    by (rewrite Hframe; unfold covered; now rewrite <- !app_assoc).
  assert (length covered = (position (fst w) - 2)%nat) as Hlen.
  { assert (length (take (position (fst w)) (buffer (fst w))) = position (fst w)) as H
      by (rewrite length_take, Hl; unfold BUFFER_SIZE; lia).
    rewrite Hsplit, length_app in H. cbn [length] in H. lia. }
  exists before, body, fill, lo, hi. split.
  - rewrite Hall, Hcons, Hframe, <- !app_assoc. reflexivity.
  - unfold calculated_checksum, given_checksum in Hok.
    assert (forall j v, [lo; hi] !! j = Some v ->
              peek T (buffer (fst w)) (position (fst w) - 2 + j) = v) as Hpeek.
    { intros j v Hj. apply peek_lookup.
      assert (j < 2)%nat by (apply lookup_lt_Some in Hj; cbn in Hj; lia).
      rewrite <- (lookup_take_lt _ (position (fst w))) by lia.
      rewrite Hsplit, lookup_app_r by lia.
      rewrite Hlen. replace (position (fst w) - 2 + j - (position (fst w) - 2))%nat with j by lia.
      exact Hj. }
    replace (position (fst w) - 1)%nat with (position (fst w) - 2 + 1)%nat in Hok by lia.
    rewrite (Hpeek 1%nat hi eq_refl) in Hok.
    replace (peek T (buffer (fst w)) (position (fst w) - 2)) with lo in Hok
      by (symmetry; rewrite <- (Nat.add_0_r (position (fst w) - 2)); now apply Hpeek).
    rewrite <- Hok. f_equal.
    replace (take (position (fst w) - 2) (buffer (fst w)))
      with (take (position (fst w) - 2) (take (position (fst w)) (buffer (fst w))))
      by (rewrite take_take; f_equal; lia).
    rewrite Hsplit. symmetry. now apply take_app_length'.
Qed.

Lemma registers_change_only_for_a_frame_on_the_line_witness :
  let turns := [(0, example_datagram); (0, []); (0, [])] in
  let w := run reference_target turns (setup 0 (Bae910 0 0 0 0), []) in
  exists before body fill lo hi,
    concat (map snd turns)
    = before ++ (START_SEQUENCE ++ body ++ END_SEQUENCE ++ [fill; lo; hi]) ++ snd w
    /\ x25 (START_SEQUENCE ++ body ++ END_SEQUENCE ++ [fill]) = Z.lor (Z.shiftl hi 8) lo.
Proof.
  apply (registers_change_only_for_a_frame_on_the_line reference_target 0 (Bae910 0 0 0 0)
           [(0, example_datagram); (0, []); (0, [])] (0, [])).
  vm_compute. discriminate.
Defined.

(** ** Every byte is taken from the line *)

(** Twice the number of unread bytes, plus what the state still owes. *)
Definition pending (w : world) : nat :=
  2 * length (snd w)
  + match state (fst w) with
    | Some Accumulate | Some Done => 1
    | Some AwaitTail => 2
    | _ => 0
    end.

(** The line is empty and no datagram waits to be processed. *)
Definition settled (w : world) : Prop :=
  snd w = [] /\ state (fst w) <> Some Done.

Lemma step_pending T now w w' :
  step T now w = Some w' -> (pending w' < pending w)%nat.
Proof.
  destruct w as [m rx]. unfold step, pending. cbn [fst snd].
  destruct (state m) as [[| | |]|] eqn:Hs; [| | | |discriminate].
  - destruct rx as [|b rx]; [discriminate|]. cbv zeta.
    intros H. injection H as <-. cbn [fst snd length].
    match goal with |- context [if ?c then set_state _ _ _ else _] => destruct c end;
      cbn [state set_state set_state_pointer set_position set_buffer println];
      rewrite ?Hs; lia.
  - destruct rx as [|b rx]; [discriminate|].
    destruct (position m + 3 =? BUFFER_SIZE)%nat.
    + intros H. injection H as <-. cbn [fst snd]. rewrite reset_state. lia.
    + cbv zeta. intros H. injection H as <-. cbn [fst snd length].
      match goal with |- context [if ?c then set_state _ _ _ else _] => destruct c end;
        cbn [state set_state set_state_pointer set_position set_buffer println
             set_bytes_until_checksum];
        rewrite ?Hs; lia.
  - destruct (0 <? bytes_until_checksum m).
    + destruct rx as [|b rx]; [discriminate|]. cbv zeta.
      intros H. injection H as <-. cbn [fst snd length].
      match goal with |- context [if ?c then set_state _ _ _ else _] => destruct c end;
        cbn [state set_state set_state_pointer set_position set_buffer println
             set_bytes_until_checksum];
        rewrite ?Hs; lia.
    + destruct (bytes_until_checksum m =? 0); [|discriminate].
      intros H. injection H as <-. cbn [fst snd state set_state set_state_pointer]. lia.
  - intros H. injection H as <-. cbn [fst snd].
    destruct (process_message_reset T now m) as (-> & _). lia.
Qed.

Lemma steps_while_pending T now s fuel : forall w,
  (pending (steps_while fuel T now s w) <= pending w)%nat.
Proof.
  induction fuel as [|fuel IH]; intros w; [reflexivity|].
  cbn [steps_while].
  destruct (step T now w) as [w'|] eqn:E; [|reflexivity].
  apply step_pending in E.
  destruct (state_is s (fst w')); [specialize (IH w')|]; lia.
Qed.

Lemma steps_while_progress T now s fuel w :
  step T now w <> None ->
  (pending (steps_while (S fuel) T now s w) < pending w)%nat.
Proof.
  intros Hsome. cbn [steps_while].
  destruct (step T now w) as [w'|] eqn:E; [|contradiction].
  apply step_pending in E.
  destruct (state_is s (fst w')); [pose proof (steps_while_pending T now s fuel w')|]; lia.
Qed.

(** A loop that cannot make a pass has nothing to read, unless the state is
    [process_message], whose one pass is always possible. *)
Lemma step_none T now consumed m rx :
  frame_invariant T consumed m -> step T now (m, rx) = None -> settled (m, rx).
Proof.
  intros (_ & _ & Hst). unfold step, settled. cbn [fst snd].
  destruct (state m) as [[| | |]|]; try contradiction.
  - destruct rx; [split; [reflexivity | discriminate] | discriminate].
  - destruct rx; [split; [reflexivity | discriminate]|].
    destruct (position m + 3 =? BUFFER_SIZE)%nat; discriminate.
  - destruct Hst as (Hb & _).
    destruct (Z.ltb_spec 0 (bytes_until_checksum m)); [|lia].
    destruct rx; [split; [reflexivity | discriminate] | discriminate].
  - discriminate.
Qed.

(** A turn of [loop()] lowers what is pending, unless there is nothing left
    to do after it. *)
Lemma run_current_state_progress T now consumed m rx :
  frame_invariant T consumed m ->
  settled (run_current_state T now (m, rx))
  \/ (pending (run_current_state T now (m, rx)) < pending (m, rx))%nat.
Proof.
  intros Hm. unfold run_current_state.
  destruct (state m) as [s|] eqn:Hs; [|destruct Hm as (_ & _ & H); now rewrite Hs in H].
  set (m1 := if timed_out now m then reset now "" (println ReadTimeout m) else m).
  assert (frame_invariant T consumed m1) as Hm1
    by (unfold m1; destruct (timed_out now m); [now apply frame_invariant_time_out | exact Hm]).
  assert (pending (m1, rx) <= pending (m, rx))%nat as Hle.
  { unfold m1, pending. cbn [fst snd]. destruct (timed_out now m); [|lia].
    rewrite reset_state. lia. }
  clearbody m1.
  destruct (state m1) as [s1|] eqn:Es1; [|destruct Hm1 as (_ & _ & H); now rewrite Es1 in H].
  pose proof (dispatch_steps T s1 now rx m1 Es1) as Hd.
  assert (settled (steps_while (S (length rx)) T now s1 (m1, rx))
          \/ (pending (steps_while (S (length rx)) T now s1 (m1, rx)) < pending (m, rx))%nat)
    as Hgoal.
  { destruct (step T now (m1, rx)) as [w'|] eqn:E.
    - right. pose proof (steps_while_progress T now s1 (length rx) (m1, rx)) as H.
      rewrite E in H. specialize (H ltac:(discriminate)). lia.
    - left. cbn [steps_while]. rewrite E. now apply (step_none T now consumed). }
  destruct s1; cbn [dispatch] in Hd; rewrite Hd; exact Hgoal.
Qed.

Lemma settled_run_current_state T now consumed m :
  frame_invariant T consumed m -> settled (m, []) ->
  settled (run_current_state T now (m, [])).
Proof.
  intros Hm (_ & Hnd). cbn [fst] in Hnd. unfold run_current_state.
  destruct (state m) as [s|] eqn:Hs; [|split; [reflexivity | cbn [fst]; congruence]].
  destruct (timed_out now m).
  - rewrite reset_state. cbn [wait_for_start_sequence].
    split; [reflexivity|]. cbn [fst]. rewrite reset_state. discriminate.
  - rewrite Hs. destruct s; try contradiction.
    + cbn [wait_for_start_sequence]. split; [reflexivity | cbn [fst]; congruence].
    + cbn [read_message]. split; [reflexivity | cbn [fst]; congruence].
    + destruct Hm as (_ & _ & Hst). rewrite Hs in Hst. destruct Hst as (Hb & _).
      rewrite read_checksum_nil by lia. split; [reflexivity | cbn [fst]; congruence].
Qed.

Lemma settled_idle_turns T idle : forall consumed w,
  Forall (fun turn => snd turn = []) idle ->
  frame_invariant T consumed (fst w) -> settled w -> settled (run T idle w).
Proof.
  induction idle as [|[now arrived] idle IH]; intros consumed w Hidle Hw Hset; [exact Hset|].
  inversion Hidle as [|? ? Hnil Hidle']; subst. cbn [snd] in Hnil. subst arrived.
  cbn [run fold_left]. unfold loop at 2. rewrite app_nil_r.
  change (fold_left (loop T) idle) with (run T idle).
  destruct w as [m rx]. destruct Hset as (Hrx & Hnd). cbn [fst snd] in *. subst rx.
  destruct (invariant_run_current_state T (frame_invariant T) (frame_invariant_step T)
              (frame_invariant_time_out T) now consumed m [] Hw) as (used & _ & Hw1).
  apply (IH (consumed ++ used)); [exact Hidle' | exact Hw1 |].
  apply (settled_run_current_state T now consumed); [exact Hw | now split].
Qed.

Lemma idle_turns_settle T idle : forall consumed w,
  Forall (fun turn => snd turn = []) idle ->
  frame_invariant T consumed (fst w) ->
  settled (run T idle w)
  \/ (pending (run T idle w) + length idle <= pending w)%nat.
Proof.
  induction idle as [|[now arrived] idle IH]; intros consumed w Hidle Hw.
  - right. cbn. lia.
  - inversion Hidle as [|? ? Hnil Hidle']; subst. cbn [snd] in Hnil. subst arrived.
    cbn [run fold_left]. change (fold_left (loop T) idle) with (run T idle).
    assert (loop T w (now, []) = run_current_state T now (fst w, snd w)) as ->
      by (unfold loop; now rewrite app_nil_r).
    destruct (invariant_run_current_state T (frame_invariant T) (frame_invariant_step T)
                (frame_invariant_time_out T) now consumed (fst w) (snd w) Hw)
      as (used & _ & Hw1).
    pose proof (run_current_state_progress T now consumed (fst w) (snd w) Hw) as Hprog.
    set (w1 := run_current_state T now (fst w, snd w)) in *.
    destruct Hprog as [Hset|Hlt].
    + left. now apply (settled_idle_turns T idle (consumed ++ used)).
    + destruct (IH (consumed ++ used) w1 Hidle' Hw1) as [H|H]; [now left|].
      right. cbn [length]. replace (fst w, snd w) with w in Hlt by now destruct w.
      fold w1. lia.
Qed.

(** However the input arrived and whatever the clock did, once nothing
    arrives any more the turns of [loop()] empty the line and finish the
    datagram that may wait for [process_message]: twice the number of bytes
    that ever arrived, plus three, turns are enough.  No byte stays unread
    for ever. *)
Theorem pending_bytes_are_consumed T t0 f turns idle :
  Forall (fun turn => snd turn = []) idle ->
  (2 * length (concat (map snd turns)) + 3 <= length idle)%nat ->
  let w := run T (turns ++ idle) (setup t0 f, []) in
  snd w = [] /\ state (fst w) <> Some Done.
Proof.
  intros Hidle Hmany. cbv zeta.
  unfold run. rewrite fold_left_app. fold (run T turns (setup t0 f, [])).
  change (fold_left (loop T) idle) with (run T idle).
  destruct (frame_invariant_run T t0 f turns) as (consumed & Hall & Hinv).
  set (w1 := run T turns (setup t0 f, [])) in *.
  destruct (idle_turns_settle T idle consumed w1 Hidle Hinv) as [H|H]; [exact H|].
  exfalso.
  assert (length (snd w1) <= length (concat (map snd turns)))%nat as Hlen
    by (rewrite Hall, length_app; lia).
  assert (pending w1 <= 2 * length (snd w1) + 2)%nat as Hp.
  { unfold pending. destruct (state (fst w1)) as [[| | |]|]; lia. }
  lia.
Qed.

Lemma pending_bytes_are_consumed_witness :
  let w := run reference_target ([(0, example_datagram)] ++ replicate 71 (0, []))
               (setup 0 (Bae910 0 0 0 0), []) in
  snd w = [] /\ state (fst w) <> Some Done.
Proof.
  apply (pending_bytes_are_consumed reference_target 0 (Bae910 0 0 0 0)
           [(0, example_datagram)] (replicate 71 (0, []))).
  - apply Forall_replicate. reflexivity.
  - vm_compute. lia.
Defined.

(** ** The outcome does not depend on how the input is cut *)







(** The time of the last reset is not changed but by a reset, which sets it
    to the time of the turn. *)
Lemma step_last_state_reset T now m rx m' rx' :
  step T now (m, rx) = Some (m', rx') ->
  last_state_reset m' = last_state_reset m \/ last_state_reset m' = now.
Proof.
  unfold step. destruct (state m) as [[| | |]|]; [| | | |discriminate].
  - destruct rx as [|b rx]; [discriminate|]. cbv zeta.
    intros H. injection H as <- _.
    match goal with |- context [if ?c then set_state _ _ _ else _] => destruct c end;
      now left.
  - destruct rx as [|b rx]; [discriminate|].
    destruct (position m + 3 =? BUFFER_SIZE)%nat.
    + intros H. injection H as <- _. right. apply reset_last_state_reset.
    + cbv zeta. intros H. injection H as <- _.
      match goal with |- context [if ?c then set_state _ _ _ else _] => destruct c end;
        now left.
  - destruct (0 <? bytes_until_checksum m).
    + destruct rx as [|b rx]; [discriminate|]. cbv zeta.
      intros H. injection H as <- _.
      match goal with |- context [if ?c then set_state _ _ _ else _] => destruct c end;
        now left.
    + destruct (bytes_until_checksum m =? 0); [|discriminate].
      intros H. injection H as <- _. now left.
  - intros H. injection H as <- _. right. apply process_message_reset.
Qed.

Lemma steps_while_last_state_reset T now s fuel : forall w,
  last_state_reset (fst (steps_while fuel T now s w)) = last_state_reset (fst w)
  \/ last_state_reset (fst (steps_while fuel T now s w)) = now.
Proof.
  induction fuel as [|fuel IH]; intros w; [now left|].
  cbn [steps_while]. destruct (step T now w) as [[m' rx']|] eqn:E; [|now left].
  destruct w as [m rx]. apply step_last_state_reset in E.
  destruct (state_is s (fst (m', rx'))).
  - destruct (IH (m', rx')) as [H|H]; [|now right].
    cbn [fst] in *. rewrite H. exact E.
  - exact E.
Qed.

Lemma run_current_state_last_state_reset T now m rx :
  last_state_reset (fst (run_current_state T now (m, rx))) = last_state_reset m
  \/ last_state_reset (fst (run_current_state T now (m, rx))) = now.
Proof.
  unfold run_current_state. destruct (state m) as [s|] eqn:Hs; [|now left].
  set (m1 := if timed_out now m then reset now "" (println ReadTimeout m) else m).
  assert (last_state_reset m1 = last_state_reset m \/ last_state_reset m1 = now) as H1.
  { unfold m1. destruct (timed_out now m); [right; apply reset_last_state_reset | now left]. }
  assert (state m1 <> None) as Hs1.
  { unfold m1. destruct (timed_out now m); [now rewrite reset_state | congruence]. }
  clearbody m1. destruct (state m1) as [s1|] eqn:Es1; [|contradiction].
  pose proof (dispatch_steps T s1 now rx m1 Es1) as Hd.
  pose proof (steps_while_last_state_reset T now s1 (S (length rx)) (m1, rx)) as H2.
  cbn [fst] in H2.
  destruct s1; cbn [dispatch] in Hd; rewrite Hd;
    (destruct H2 as [H2|H2]; [rewrite H2; exact H1 | now right]).
Qed.

Lemma quiet_in_window t0 now m :
  t0 <= last_state_reset m <= now -> now <= t0 + 30000 -> timed_out now m = false.
Proof.
  intros Hl Hn. unfold timed_out, to_uint32, READ_TIMEOUT.
  rewrite Z.mod_small by lia. apply Z.ltb_ge. lia.
Qed.


(** *** Two paths from one start *)













(** ** One datagram in a stream, with the watchdog

    The watchdog measures the time since the last reset, whatever the
    machine has received since.  When it strikes while the machine waits for
    a start sequence and has matched no byte of it, nothing is lost: the
    reset leaves the machine as it is but for the clock and a line of
    output. *)

(** The machine without its clock and its serial output. *)
Definition core (m : machine) : machine :=
  Machine (buffer m) (position m) 0 (bytes_until_checksum m) (state m) (memory m) [].

Lemma core_fields m m' :
  core m = core m' ->
  buffer m = buffer m' /\ position m = position m'
  /\ bytes_until_checksum m = bytes_until_checksum m'
  /\ state m = state m' /\ memory m = memory m'.
Proof. unfold core. intros H. injection H as -> -> -> -> ->. repeat split. Qed.

Lemma process_message_core T now now' m m' :
  core m = core m' -> core (process_message T now m) = core (process_message T now' m').
Proof.
  destruct m as [b p t n s f l], m' as [b' p' t' n' s' f' l'].
  unfold core. fields. intros H. injection H as -> -> -> -> ->.
  unfold process_message, calculated_checksum, given_checksum. fields.
  destruct (negb _); [reflexivity|].
  unfold parse. change (seq 0 METRIC_LENGTH) with [0; 1; 2]%nat.
  cbn [fold_left map]. unfold parse_step, found. cbn [buffer position println].
  destruct (memmem (take p' b') (front_memory T 0 _));
    cbn [buffer position println];
    destruct (memmem (take p' b') (front_memory T 1 _));
    cbn [buffer position println];
    destruct (memmem (take p' b') (front_memory T 2 _));
    reflexivity.
Qed.

(** One pass of a loop does not look at the clock or at the output. *)
Lemma step_core T now now' m m' rx :
  core m = core m' ->
  match step T now (m, rx), step T now' (m', rx) with
  | Some (a, r), Some (b, r') => core a = core b /\ r = r'
  | None, None => True
  | _, _ => False
  end.
Proof.
  intros Hcore. pose proof (process_message_core T now now' m m' Hcore) as Hpm.
  destruct m as [buf p l n s f out], m' as [buf' p' l' n' s' f' out'].
  unfold core in Hcore. fields. injection Hcore as -> -> -> -> ->.
  unfold step. fields.
  destruct s' as [[| | |]|]; [| | | |exact Logic.I].
  - destruct rx as [|b rx]; [exact Logic.I|]. cbv zeta. fields.
    match goal with |- context [if ?c then _ else _] => destruct c end;
      match goal with |- context [if ?c then _ else _] => destruct c end;
      split; reflexivity.
  - destruct rx as [|b rx]; [exact Logic.I|].
    destruct (p' + 3 =? BUFFER_SIZE)%nat; [split; reflexivity|].
    cbv zeta. fields.
    match goal with |- context [if ?c then _ else _] => destruct c end;
      split; reflexivity.
  - destruct (0 <? n').
    + destruct rx as [|b rx]; [exact Logic.I|]. cbv zeta. fields.
      match goal with |- context [if ?c then _ else _] => destruct c end;
        split; reflexivity.
    + destruct (n' =? 0); [split; reflexivity | exact Logic.I].
  - split; [exact Hpm | reflexivity].
Qed.

Lemma state_is_core s m m' : core m = core m' -> state_is s m = state_is s m'.
Proof.
  intros H. destruct (core_fields m m' H) as (_ & _ & _ & Hs & _).
  unfold state_is. now rewrite Hs.
Qed.

Lemma steps_while_core T now now' s fuel : forall m m' rx,
  core m = core m' ->
  core (fst (steps_while fuel T now s (m, rx)))
  = core (fst (steps_while fuel T now' s (m', rx)))
  /\ snd (steps_while fuel T now s (m, rx)) = snd (steps_while fuel T now' s (m', rx)).
Proof.
  induction fuel as [|fuel IH]; intros m m' rx Hcore; [now split|].
  cbn [steps_while].
  pose proof (step_core T now now' m m' rx Hcore) as Hstep.
  destruct (step T now (m, rx)) as [[a r]|], (step T now' (m', rx)) as [[b r']|];
    try contradiction; [|now split].
  destruct Hstep as (Hab & <-). cbn [fst].
  rewrite (state_is_core s a b Hab).
  destruct (state_is s b); [now apply IH | now split].
Qed.

(** A turn of [loop()] at which the watchdog is quiet or strikes a machine
    that waits with its match cursor at zero, beside a turn without
    time-out on a machine that differs in clock and output only. *)
Lemma run_current_state_core T now now' m m' rx :
  core m = core m' ->
  timed_out now m = false \/ (state m = Some WaitStart /\ position m = 0%nat) ->
  timed_out now' m' = false ->
  core (fst (run_current_state T now (m, rx)))
  = core (fst (run_current_state T now' (m', rx)))
  /\ snd (run_current_state T now (m, rx)) = snd (run_current_state T now' (m', rx)).
Proof.
  intros Hcore Hspared Hquiet.
  destruct (core_fields m m' Hcore) as (Hb & Hp & Hn & Hs & Hf).
  unfold run_current_state. rewrite Hquiet, <- Hs.
  destruct (state m) as [s|] eqn:Es; [|now split].
  set (m1 := if timed_out now m then reset now "" (println ReadTimeout m) else m).
  assert (core m1 = core m') as Hcore1.
  { unfold m1. destruct (timed_out now m); [|exact Hcore].
    destruct Hspared as [H|(Hw & H0)]; [discriminate H|].
    rewrite <- Hcore. unfold core. cbn. rewrite H0. congruence. }
  assert (state m1 = Some s) as Es1.
  { destruct (core_fields m1 m' Hcore1) as (_ & _ & _ & H & _). congruence. }
  clearbody m1. rewrite Es1.
  assert (state m' = Some s) as Es' by congruence.
  pose proof (dispatch_steps T s now rx m1 Es1) as Hd.
  pose proof (dispatch_steps T s now' rx m' Es') as Hd'.
  pose proof (steps_while_core T now now' s (S (length rx)) m1 m' rx Hcore1) as Hsw.
  destruct s; cbn [dispatch] in Hd, Hd'; rewrite Hd, Hd'; exact Hsw.
Qed.

(** No turn of [loop()] finds the watchdog timed out unless the machine
    waits for a start sequence and has matched no byte of it. *)
Fixpoint time_outs_only_while_idle (T : target) (turns : list (Z * list Z)) (w : world)
  : bool :=
  match turns with
  | [] => true
  | turn :: turns' =>
      (negb (timed_out (fst turn) (fst w))
       || (state_is WaitStart (fst w) && (position (fst w) =? 0)%nat))
      && time_outs_only_while_idle T turns' (loop T w turn)
  end.

(** The same arrivals, every turn at the time [t]. *)
Definition at_time (t : Z) (turns : list (Z * list Z)) : list (Z * list Z) :=
  map (fun turn => (t, snd turn)) turns.

Lemma time_outs_only_while_idle_app T a : forall b w,
  time_outs_only_while_idle T (a ++ b) w = true ->
  time_outs_only_while_idle T a w = true.
Proof.
  induction a as [|turn a IH]; intros b w H; [reflexivity|].
  cbn [app time_outs_only_while_idle] in *.
  apply andb_prop in H as (H1 & H2). rewrite H1. cbn [andb]. now apply (IH b).
Qed.

Lemma state_is_true s m : state_is s m = true -> state m = Some s.
Proof.
  unfold state_is. destruct (state m) as [s'|]; [|discriminate].
  intros H. apply state_fn_eqb_eq in H. now subst.
Qed.

Lemma timed_out_just_reset t m : last_state_reset m = t -> timed_out t m = false.
Proof.
  intros <-. unfold timed_out. rewrite Z.sub_diag. reflexivity.
Qed.

(** Time-outs that strike an idle machine only do not change what the
    machine receives and publishes: the run agrees, but for the clock and
    the output, with the run in which every turn comes at the time [t] of
    the last reset and the watchdog never strikes. *)
Lemma run_at_time T t turns : forall w w',
  core (fst w) = core (fst w') -> snd w = snd w' -> last_state_reset (fst w') = t ->
  time_outs_only_while_idle T turns w = true ->
  core (fst (run T turns w)) = core (fst (run T (at_time t turns) w'))
  /\ snd (run T turns w) = snd (run T (at_time t turns) w').
Proof.
  induction turns as [|[now arrived] turns IH]; intros w w' Hcore Hrx Hlsr Hsp;
    [now split|].
  cbn [time_outs_only_while_idle fst] in Hsp.
  apply andb_prop in Hsp as (Hnow & Hrest).
  cbn [at_time map run fold_left snd].
  change (fold_left (loop T) (map (fun turn => (t, snd turn)) turns))
    with (run T (at_time t turns)).
  change (fold_left (loop T) turns) with (run T turns).
  assert (timed_out t (fst w') = false) as Hquiet by now apply timed_out_just_reset.
  assert (timed_out now (fst w) = false
          \/ (state (fst w) = Some WaitStart /\ position (fst w) = 0%nat)) as Hspared.
  { apply orb_prop in Hnow as [H|H].
    - left. now apply negb_true_iff.
    - right. apply andb_prop in H as (H1 & H2).
      split; [now apply state_is_true | now apply Nat.eqb_eq]. }
  pose proof (run_current_state_core T now t (fst w) (fst w') (snd w ++ arrived)
                Hcore Hspared Hquiet) as (Hc1 & Hr1).
  apply IH.
  - unfold loop. rewrite <- Hrx. exact Hc1.
  - unfold loop. rewrite <- Hrx. exact Hr1.
  - unfold loop.
    destruct (run_current_state_last_state_reset T t (fst w') (snd w' ++ arrived))
      as [H|H]; rewrite H; [exact Hlsr | reflexivity].
  - exact Hrest.
Qed.

Lemma on_time_at_time t turns : on_time t (t + 30000) (at_time t turns).
Proof.
  induction turns as [|turn turns IH]; [exact Logic.I|].
  cbn. split; [lia | exact IH].
Qed.

Lemma at_time_arrivals t turns :
  concat (map snd (at_time t turns)) = concat (map snd turns).
Proof.
  unfold at_time. rewrite map_map. reflexivity.
Qed.

(** Turns that all come within 30 seconds of [setup()] are such turns: the
    watchdog does not strike at all. *)
Lemma on_time_time_outs_only_while_idle T t0 turns : forall last w,
  on_time last (t0 + 30000) turns -> t0 <= last_state_reset (fst w) <= last ->
  time_outs_only_while_idle T turns w = true.
Proof.
  induction turns as [|[t arrived] turns IH]; intros last w Htime Hlsr; [reflexivity|].
  cbn [on_time] in Htime. destruct Htime as (Ht & Htime).
  cbn [time_outs_only_while_idle fst].
  rewrite (quiet_in_window t0 t (fst w)) by lia. cbn [negb orb andb].
  apply (IH t); [exact Htime|]. unfold loop.
  destruct (run_current_state_last_state_reset T t (fst w) (snd w ++ arrived))
    as [H|H]; rewrite H; lia.
Qed.

(** C2, as the code has it: a well-formed datagram that fits the buffer and
    whose end sequence does not occur earlier in it, embedded in a stream
    between bytes on which the scan for the start sequence completes no
    match and, before the datagram, ends with its cursor at zero, is
    assembled in the buffer byte for byte and processed, and the machine
    ends in [WaitStart] with the input used up.  This holds however the
    stream is cut into arrivals and whenever the turns of [loop()] come,
    provided that the watchdog does not strike while a start sequence is
    partly matched or a datagram is in the buffer, and that five turns
    follow the last arrival.  After some of the turns the machine is in the
    state [process_message] with exactly the datagram at the start of the
    buffer; at the end the buffer still holds the datagram from offset 8 on
    and the register file is that of [process_message] on the buffer that
    holds the datagram; so is the serial output when all turns come within
    30 seconds of [setup()]. *)
Theorem datagram_in_stream_is_assembled_and_processed T payload fill f0 pre post post_cursor
    t0 turns t_end :
  (length (datagram payload fill) <= BUFFER_SIZE)%nat ->
  end_marker_only_at_end payload = true ->
  start_cursor 0 pre = Some 0%nat ->
  start_cursor 0 post = Some post_cursor ->
  concat (map snd turns) = pre ++ datagram payload fill ++ post ->
  let all_turns := turns ++ replicate 5 (t_end, []) in
  time_outs_only_while_idle T all_turns (setup t0 f0, []) = true ->
  let w := run T all_turns (setup t0 f0, []) in
  (exists turns1 turns2,
     all_turns = turns1 ++ turns2
     /\ let m := fst (run T turns1 (setup t0 f0, [])) in
        state m = Some Done
        /\ position m = length (datagram payload fill)
        /\ buffer m = datagram payload fill
                      ++ replicate (BUFFER_SIZE - length (datagram payload fill)) 0)
  /\ state (fst w) = Some WaitStart
  /\ snd w = []
  /\ position (fst w) = post_cursor
  /\ drop 8 (buffer (fst w))
     = drop 8 (datagram payload fill)
       ++ replicate (BUFFER_SIZE - length (datagram payload fill)) 0
  /\ memory (fst w) = memory (process_message T 0 (assembled payload fill f0))
  /\ (on_time t0 (t0 + 30000) all_turns ->
      serial (fst w) = serial (process_message T 0 (assembled payload fill f0))).
Proof.
  intros Hfits Hend Hpre Hpost Harrive all_turns Hspared w.
  assert (at_time t0 all_turns = at_time t0 turns ++ replicate 5 (t0, [])) as Hall
    by (unfold all_turns, at_time; now rewrite map_app).
  destruct (datagram_in_stream_on_time T payload fill f0 Hfits Hend pre post post_cursor
              Hpre Hpost t0 (at_time t0 turns) t0)
    as ((turns1 & turns2 & Hsplit & Hdone) & Hs & Hrx & Hp & Hbuf & Hmem & _).
  { now rewrite at_time_arrivals. }
  { rewrite <- Hall. apply on_time_at_time. }
  rewrite <- Hall in Hsplit, Hs, Hrx, Hp, Hbuf, Hmem.
  destruct (run_at_time T t0 all_turns (setup t0 f0, []) (setup t0 f0, [])
              eq_refl eq_refl eq_refl Hspared) as (Hcore & Hqueue).
  destruct (core_fields _ _ Hcore) as (Eb & Ep & _ & Es & Ef).
  fold w in Eb, Ep, Es, Ef, Hqueue.
  split; [|split; [congruence|split; [congruence|split; [congruence|split; [congruence|
          split; [congruence|]]]]]].
  - set (n := length turns1).
    assert (turns1 = at_time t0 (take n all_turns)) as H1.
    { unfold at_time. rewrite <- firstn_map. fold (at_time t0 all_turns).
      rewrite Hsplit. unfold n. now rewrite take_app_length. }
    exists (take n all_turns), (drop n all_turns).
    split; [now rewrite take_drop|].
    assert (time_outs_only_while_idle T (take n all_turns) (setup t0 f0, []) = true)
      as Hsp1.
    { apply (time_outs_only_while_idle_app T _ (drop n all_turns)).
      now rewrite take_drop. }
    destruct (run_at_time T t0 (take n all_turns) (setup t0 f0, []) (setup t0 f0, [])
                eq_refl eq_refl eq_refl Hsp1) as (Hcore1 & _).
    rewrite <- H1 in Hcore1.
    destruct (core_fields _ _ Hcore1) as (Eb1 & Ep1 & _ & Es1 & _).
    cbv zeta in Hdone |- *. destruct Hdone as (Hd1 & Hd2 & Hd3).
    split; [congruence|]. split; congruence.
  - intros Htime.
    destruct (datagram_in_stream_on_time T payload fill f0 Hfits Hend pre post post_cursor
                Hpre Hpost t0 turns t_end Harrive Htime) as (_ & _ & _ & _ & _ & _ & Hser).
    exact Hser.
Qed.

(** Streams that hold one well-formed datagram.  With one byte 0x1B in
    front of it, the fifth 0x1B in a row resets the match cursor and is not
    looked at again: the start sequence is missed and the datagram is never
    assembled, while without that byte it is processed.  With the datagram
    in two arrivals of which the second is read more than 30 seconds after
    [setup()], the watchdog strikes in [read_message] and the datagram is
    dropped.  With five bytes 0x1B in front of the datagram, which leave the
    match cursor at zero, the datagram is processed when all turns come at
    once, and missed when the watchdog strikes after the third of them. *)
Lemma datagram_in_stream_can_be_missed :
  let start := (setup 0 (Bae910 0 0 0 0), []) in
  let w := run reference_target ((0, 0x1B :: example_datagram) :: replicate 5 (0, []))
               start in
  let w' := run reference_target ((0, example_datagram) :: replicate 5 (0, [])) start in
  let late := run reference_target
                ((0, take 20 example_datagram) :: (30001, drop 20 example_datagram)
                 :: replicate 5 (30001, [])) start in
  let whole := run reference_target
                 ((0, [0x1B; 0x1B; 0x1B]) :: (0, [0x1B; 0x1B] ++ example_datagram)
                  :: replicate 5 (0, [])) start in
  let torn := run reference_target
                ((0, [0x1B; 0x1B; 0x1B]) :: (30001, [0x1B; 0x1B] ++ example_datagram)
                 :: replicate 5 (30001, [])) start in
  (snd w = [] /\ state (fst w) = Some WaitStart
   /\ serial (fst w) = [StateIs WaitStart] /\ memory (fst w) = Bae910 0 0 0 0)
  /\ (state (fst w') = Some WaitStart
      /\ take 4 (serial (fst w'))
         = [StateIs WaitStart; StateIs Accumulate; StateIs AwaitTail; StateIs Done])
  /\ (snd late = [] /\ state (fst late) = Some WaitStart
      /\ serial (fst late)
         = [StateIs WaitStart; StateIs Accumulate; ReadTimeout; StateIs WaitStart]
      /\ memory (fst late) = Bae910 0 0 0 0)
  /\ (start_cursor 0 [0x1B; 0x1B; 0x1B; 0x1B; 0x1B] = Some 0%nat
      /\ take 4 (serial (fst whole))
         = [StateIs WaitStart; StateIs Accumulate; StateIs AwaitTail; StateIs Done]
      /\ snd torn = [] /\ state (fst torn) = Some WaitStart
      /\ serial (fst torn) = [StateIs WaitStart; ReadTimeout; StateIs WaitStart]
      /\ memory (fst torn) = Bae910 0 0 0 0).
Proof. vm_compute. repeat split. Qed.

(** A run in which the watchdog strikes twice while the machine is idle,
    40 seconds after [setup()] and 40 seconds later, before the datagram
    arrives in three parts between other bytes. *)
Lemma datagram_in_stream_is_assembled_and_processed_witness :
  let turns := [ (40000, []);
                 (80000, [0x00; 0x1B]);
                 (80010, 0x55 :: take 10 example_datagram);
                 (80020, drop 10 example_datagram ++ [0x1B]);
                 (80030, [0x1B]) ] in
  let w := run reference_target (turns ++ replicate 5 (80040, []))
               (setup 5 (Bae910 0 0 0 0), []) in
  state (fst w) = Some WaitStart /\ snd w = [] /\ position (fst w) = 2%nat
  /\ drop 8 (buffer (fst w))
     = drop 8 example_datagram ++ replicate (BUFFER_SIZE - length example_datagram) 0.
Proof.
  cbv zeta.
  destruct (datagram_in_stream_is_assembled_and_processed reference_target
              (pattern (METRICS !!! 0%nat) ++ example_fields) 0 (Bae910 0 0 0 0)
              [0x00; 0x1B; 0x55] [0x1B; 0x1B] 2%nat 5
              [ (40000, []);
                (80000, [0x00; 0x1B]);
                (80010, 0x55 :: take 10 example_datagram);
                (80020, drop 10 example_datagram ++ [0x1B]);
                (80030, [0x1B]) ]
              80040)
    as (_ & Hs & Hrx & Hp & Hb & _).
  - vm_compute. lia.
  - vm_compute. reflexivity.
  - reflexivity.
  - reflexivity.
  - vm_compute. reflexivity.
  - vm_compute. reflexivity.
  - split; [exact Hs|]. split; [exact Hrx|]. split; [exact Hp | exact Hb].
Defined.

(** ** One datagram after the other *)




Section Delivery.

Variable T : target.
Variable payload : list Z.
Variable fill : Z.

Let D : list Z := datagram payload fill.
Let N : nat := length D.

Hypothesis D_fits : (length (datagram payload fill) <= BUFFER_SIZE)%nat.
Hypothesis D_end : end_marker_only_at_end payload = true.

(** The machine at the start of the datagram. *)
Variable m0 : machine.
Hypothesis m0_buffer : length (buffer m0) = BUFFER_SIZE.











Hypothesis m0_state : state m0 = Some WaitStart.
Hypothesis m0_position : position m0 = 0%nat.



End Delivery.







(** ** The debug dump

    [dump_buffer] is called from [read_checksum] when [DEBUG] is set.  It
    prints the received bytes in hexadecimal with [Serial.print(b, HEX)],
    which writes the digits of the number without leading zeros and with
    capital letters. *)

(** [Print::printNumber]: the digits are produced from the least
    significant one and put in front of what is there already. *)
Definition digit_char (c : Z) : Ascii.ascii :=
  Ascii.ascii_of_nat (Z.to_nat (if c <? 10 then c + 48 else c + 65 - 10)).

Fixpoint print_number (fuel : nat) (n base : Z) (str : string) : string :=
  match fuel with
  | O => str
  | S fuel' =>
      let m := n in
      let n := n / base in
      let c := m - base * n in
      let str := String (digit_char c) str in
      if n =? 0 then str else print_number fuel' n base str
  end.

(** [Serial.print(b, HEX)] for a byte; the buffer of [printNumber] has room
    for 32 digits. *)
Definition print_hex (b : Z) : string := print_number 32 b 16 EmptyString.

(** The three lines that [dump_buffer] prints. *)
Definition dump_line (bytes : list Z) : string :=
  fold_left (fun line b => String.append line
                             (String.append "0x" (String.append (print_hex b) " ")))
            bytes EmptyString.

Definition dump_buffer (T : target) (m : machine) : list string :=
  [ "----DATA----"%string;
    dump_line (map (peek T (buffer m)) (seq 0 (position m)));
    "---END_OF_DATA---"%string ].

Lemma print_hex_byte b :
  is_byte b ->
  print_hex b = if b <? 16 then String (digit_char b) EmptyString
                else String (digit_char (b / 16)) (String (digit_char (b mod 16)) EmptyString).
Proof.
  intros [H0 H1]. unfold print_hex.
  change (print_number 32 b 16 EmptyString)
    with (let n := b / 16 in
          let str := String (digit_char (b - 16 * n)) EmptyString in
          if n =? 0 then str else print_number 31 n 16 str).
  cbv zeta.
  destruct (Z.ltb_spec b 16) as [Hlt|Hge].
  - rewrite Z.div_small by lia. cbn [Z.eqb]. now rewrite Z.mul_0_r, Z.sub_0_r.
  - assert (0 < b / 16 < 16) as Hq.
    { split; [apply Z.div_str_pos; lia | apply Z.div_lt_upper_bound; lia]. }
    destruct (Z.eqb_spec (b / 16) 0) as [E|_]; [lia|].
    change (print_number 31 (b / 16) 16 ?s)
      with (let n := b / 16 / 16 in
            let str := String (digit_char (b / 16 - 16 * n)) s in
            if n =? 0 then str else print_number 30 n 16 str).
    cbv zeta. rewrite (Z.div_small (b / 16)) by lia. cbn [Z.eqb].
    rewrite Z.mul_0_r, Z.sub_0_r. do 2 f_equal.
    f_equal. rewrite Z.mod_eq by lia. reflexivity.
Qed.

Lemma digit_cases c :
  0 <= c < 16 ->
  c = 0 \/ c = 1 \/ c = 2 \/ c = 3 \/ c = 4 \/ c = 5 \/ c = 6 \/ c = 7 \/ c = 8
  \/ c = 9 \/ c = 10 \/ c = 11 \/ c = 12 \/ c = 13 \/ c = 14 \/ c = 15.
Proof. lia. Qed.

Lemma digit_char_inj c d :
  0 <= c < 16 -> 0 <= d < 16 -> digit_char c = digit_char d -> c = d.
Proof.
  intros Hc Hd.
  destruct (digit_cases c Hc) as
    [->|[->|[->|[->|[->|[->|[->|[->|[->|[->|[->|[->|[->|[->|[->| ->]]]]]]]]]]]]]]];
    destruct (digit_cases d Hd) as
    [->|[->|[->|[->|[->|[->|[->|[->|[->|[->|[->|[->|[->|[->|[->| ->]]]]]]]]]]]]]]];
    vm_compute; intros H; first [reflexivity | discriminate H].
Qed.

Lemma digit_char_no_space c : 0 <= c < 16 -> digit_char c <> Ascii.ascii_of_nat 32.
Proof.
  intros Hc.
  destruct (digit_cases c Hc) as
    [->|[->|[->|[->|[->|[->|[->|[->|[->|[->|[->|[->|[->|[->|[->| ->]]]]]]]]]]]]]]];
    vm_compute; discriminate.
Qed.

Definition dump_token (b : Z) : string :=
  String.append "0x" (String.append (print_hex b) " ").

Lemma append_assoc (a b c : string) :
  String.append (String.append a b) c = String.append a (String.append b c).
Proof. induction a as [|x a IH]; cbn; [reflexivity | now rewrite IH]. Qed.

Lemma append_nil_r (a : string) : String.append a EmptyString = a.
Proof. induction a as [|x a IH]; cbn; [reflexivity | now rewrite IH]. Qed.

Lemma dump_line_from bytes : forall line,
  fold_left (fun line b => String.append line (dump_token b)) bytes line
  = String.append line
      (fold_left (fun line b => String.append line (dump_token b)) bytes EmptyString).
Proof.
  induction bytes as [|b bytes IH]; intros line; cbn [fold_left].
  - now rewrite append_nil_r.
  - rewrite (IH (String.append line (dump_token b))).
    rewrite (IH (String.append EmptyString (dump_token b))).
    cbn [String.append]. apply append_assoc.
Qed.

Lemma dump_line_cons b bytes :
  dump_line (b :: bytes) = String.append (dump_token b) (dump_line bytes).
Proof.
  unfold dump_line. fold dump_token. cbn [fold_left].
  now rewrite dump_line_from.
Qed.

Lemma dump_token_inj b1 b2 rest1 rest2 :
  is_byte b1 -> is_byte b2 ->
  String.append (dump_token b1) rest1 = String.append (dump_token b2) rest2 ->
  b1 = b2 /\ rest1 = rest2.
Proof.
  intros H1 H2. unfold dump_token.
  rewrite (print_hex_byte b1 H1), (print_hex_byte b2 H2).
  pose proof H1 as [H10 H11]. pose proof H2 as [H20 H21].
  assert (forall b, 0 <= b < 256 -> 0 <= b / 16 < 16) as Hhi
    by (intros b Hb; split; [apply Z.div_pos; lia | apply Z.div_lt_upper_bound; lia]).
  assert (forall b, 0 <= b mod 16 < 16) as Hlo by (intros b; apply Z.mod_pos_bound; lia).
  destruct (Z.ltb_spec b1 16), (Z.ltb_spec b2 16); cbn [String.append]; intros E.
  - injection E as E Hrest. apply digit_char_inj in E; [now split | lia | lia].
  - injection E as _ E _. symmetry in E. now apply digit_char_no_space in E.
  - injection E as _ E _. now apply digit_char_no_space in E.
  - injection E as Ea Eb Hrest.
    apply digit_char_inj in Ea; [|now apply Hhi..].
    apply digit_char_inj in Eb; [|now apply Hlo..].
    split; [|exact Hrest].
    rewrite (Z.div_mod b1 16), (Z.div_mod b2 16) by lia. congruence.
Qed.

Lemma dump_line_inj bytes1 : forall bytes2,
  Forall is_byte bytes1 -> Forall is_byte bytes2 ->
  dump_line bytes1 = dump_line bytes2 -> bytes1 = bytes2.
Proof.
  induction bytes1 as [|b1 bytes1 IH]; intros [|b2 bytes2] Hb1 Hb2 E.
  - reflexivity.
  - rewrite dump_line_cons in E. discriminate E.
  - rewrite dump_line_cons in E. discriminate E.
  - inversion Hb1; inversion Hb2; subst.
    rewrite !dump_line_cons in E.
    apply dump_token_inj in E; [|assumption..]. destruct E as (-> & E).
    f_equal. now apply IH.
Qed.

(** The dump shows the received bytes and nothing else, and it shows them
    without ambiguity although the digits are not padded: two machines print
    the same dump exactly when the bytes in front of their positions are the
    same. *)
Theorem dump_identifies_the_received_bytes T m1 m2 :
  (position m1 <= length (buffer m1))%nat -> (position m2 <= length (buffer m2))%nat ->
  Forall is_byte (take (position m1) (buffer m1)) ->
  Forall is_byte (take (position m2) (buffer m2)) ->
  (dump_buffer T m1 = dump_buffer T m2
   <-> take (position m1) (buffer m1) = take (position m2) (buffer m2)).
Proof.
  intros Hp1 Hp2 Hb1 Hb2.
  assert (forall m, (position m <= length (buffer m))%nat ->
            map (peek T (buffer m)) (seq 0 (position m)) = take (position m) (buffer m))
    as Hread.
  { intros m Hp. apply list_eq. intros i.
    destruct (Nat.lt_ge_cases i (position m)) as [Hi|Hi].
    - rewrite list_lookup_fmap, lookup_seq_lt by lia. cbn.
      rewrite lookup_take_lt by lia.
      destruct (lookup_lt_is_Some_2 (buffer m) i ltac:(lia)) as (v & Hv).
      now rewrite Hv, (peek_lookup T _ _ _ Hv).
    - rewrite lookup_take_ge by lia. apply lookup_ge_None_2.
      rewrite length_map, length_seq. lia. }
  unfold dump_buffer. rewrite (Hread m1 Hp1), (Hread m2 Hp2). split.
  - intros E. injection E as E. now apply dump_line_inj.
  - now intros ->.
Qed.

Lemma dump_identifies_the_received_bytes_witness :
  dump_buffer reference_target (after_turns reference_target [[0x1B; 0x1B; 0x1B]])
  = ["----DATA----"; "0x1B 0x1B 0x1B "; "---END_OF_DATA---"]%string
  /\ dump_buffer reference_target (after_turns reference_target [[0x1B; 0x1B; 0x1B]])
     = dump_buffer reference_target (after_turns reference_target [[0x1B]; [0x1B; 0x1B]]).
Proof.
  split; [vm_compute; reflexivity|].
  apply (dump_identifies_the_received_bytes reference_target
           (after_turns reference_target [[0x1B; 0x1B; 0x1B]])
           (after_turns reference_target [[0x1B]; [0x1B; 0x1B]])).
  - vm_compute. lia.
  - vm_compute. lia.
  - apply Forall_is_byte_check. vm_compute. reflexivity.
  - apply Forall_is_byte_check. vm_compute. reflexivity.
  - vm_compute. reflexivity.
Defined.
